(** * hashmap.c -- generic intrusive hash table with chained buckets

    A shallow embedding of [hashmap.c] / [hashmap.h] and the properties of
    its bucket array, its chains and its resizing.

    Representation.
    - [size_t] values are integers in [Z]; every arithmetic operation the C
      code performs on them is written with its wrap-around ([size_wrap]),
      for a 64-bit [size_t] and 8-byte pointers (LP64).
    - A [struct hash_node] is identified by its address.  The [next]
      pointers of a bucket are represented by the list they thread: a chain
      is the list of the nodes reached from the bucket head by following
      [next] until [NULL], each with its cached [hash] field.  This is the
      representation of well-formed chains, which is what the C code has as
      long as the caller respects the contract of [hashmap_insert] (the node
      is not a member of a table already): the properties of insertions are
      stated for nodes that the table does not link ([fresh]).
    - The bucket array [map->table] is a list of chains whose length is the
      number of slots of the allocated block.  A [NULL] table (a failed
      [calloc]) has no slot.  An access outside the block is undefined
      behaviour: the operations return [None] there.
    - [calloc] and [realloc] may fail: each operation takes the outcome of
      the one allocation it can perform as a boolean. *)

From stdpp Require Import base numbers option list.

Local Open Scope Z_scope.

(** ** Machine integers *)

Definition SIZE_BITS : Z := 64.
Definition PTR_SIZE : Z := 8.
Definition NODE_SIZE : Z := 16.

Definition size_wrap (z : Z) : Z := z mod 2 ^ SIZE_BITS.

(** [#define MIN_SLOTS 16] *)
Definition MIN_SLOTS : Z := 16.

(** Distinct nodes occupy [NODE_SIZE] bytes each of the address space. *)
Definition MAX_LINKS : Z := 2 ^ SIZE_BITS / NODE_SIZE.

(** ** Nodes, chains and the bucket array *)

Record hash_node : Type := HashNode {
  node_addr : Z;
  node_hash : Z
}.

Global Instance hash_node_eq_dec : EqDecision hash_node.
Proof. solve_decision. Defined.

Abbreviation chain := (list hash_node).

(** [table[i]] as an rvalue and as an lvalue. *)
Definition load (t : list chain) (i : Z) : option chain :=
  t !! Z.to_nat i.

Definition store (t : list chain) (i : Z) (c : chain) : option (list chain) :=
  if decide (Z.to_nat i < length t)%nat then Some (<[Z.to_nat i := c]> t)
  else None.

(** [calloc(n, sizeof(struct hash_node * ))]: [n] empty slots, or [NULL]. *)
Definition calloc (ok : bool) (n : Z) : list chain :=
  if ok then replicate (Z.to_nat n) [] else [].

(** [realloc(t, bytes)]: on success the block has [bytes / PTR_SIZE] slots and
    keeps the contents of the slots that remain; on failure ([None]) the old
    block is untouched. *)
Definition realloc (ok : bool) (t : list chain) (bytes : Z)
  : option (list chain) :=
  if ok then Some (resize (Z.to_nat (bytes / PTR_SIZE)) [] t) else None.

Section Hashmap.

Context {K : Type}.

Record hashmap : Type := Hashmap {
  table : list chain;
  len : Z;
  count : Z;
  hash : K → Z;
  cmp : hash_node → K → bool
}.

Definition set_table (t : list chain) (map : hashmap) : hashmap :=
  {| table := t; len := len map; count := count map;
     hash := hash map; cmp := cmp map |}.

Definition set_len (n : Z) (map : hashmap) : hashmap :=
  {| table := table map; len := n; count := count map;
     hash := hash map; cmp := cmp map |}.

Definition set_count (n : Z) (map : hashmap) : hashmap :=
  {| table := table map; len := len map; count := n;
     hash := hash map; cmp := cmp map |}.

Definition set_hash (h : K → Z) (map : hashmap) : hashmap :=
  {| table := table map; len := len map; count := count map;
     hash := h; cmp := cmp map |}.

(** *** hashmap_grow *)

(** The inner [while (node)] loop of [hashmap_grow]: every node is pushed on
    the front of [b] when [node->hash & map->len] is set, of [a] otherwise. *)
Fixpoint split_chain (l : Z) (node a b : chain) : chain * chain :=
  match node with
  | [] => (a, b)
  | n :: next =>
      if Z.land (node_hash n) l =? 0
      then split_chain l next (n :: a) b
      else split_chain l next a (n :: b)
  end.

(** The outer [for (i = 0; i < map->len; ++i)] loop, [todo] iterations from
    index [i]. *)
Fixpoint grow_loop (todo : nat) (i l : Z) (t : list chain)
  : option (list chain) :=
  match todo with
  | O => Some t
  | S todo' =>
      node ← load t i;
      let '(a, b) := split_chain l node [] [] in
      t1 ← store t i a;
      t2 ← store t1 (size_wrap (i + l)) b;
      grow_loop todo' (i + 1) l t2
  end.

Definition hashmap_grow (ok : bool) (map : hashmap) : option (hashmap * Z) :=
  match realloc ok (table map)
          (size_wrap (size_wrap (len map * 2) * PTR_SIZE)) with
  | None => Some (map, -1)
  | Some newtable =>
      t ← grow_loop (Z.to_nat (len map)) 0 (len map) newtable;
      Some (set_len (size_wrap (len map * 2)) (set_table t map), 0)
  end.

(** *** hashmap_shrink *)

(** [while (prev->next) prev = prev->next; prev->next = next;] on a non-empty
    chain. *)
Fixpoint chain_append (prev next : chain) : chain :=
  match prev with
  | [] => next
  | n :: rest => n :: chain_append rest next
  end.

Fixpoint shrink_loop (todo : nat) (i l : Z) (t : list chain)
  : option (list chain) :=
  match todo with
  | O => Some t
  | S todo' =>
      prev ← load t i;
      next ← load t (size_wrap (i + l));
      t1 ← match prev with
           | [] => store t i next
           | _ :: _ => store t i (chain_append prev next)
           end;
      shrink_loop todo' (i + 1) l t1
  end.

Definition hashmap_shrink (ok : bool) (map : hashmap)
  : option (hashmap * Z) :=
  let map1 := set_len (len map / 2) map in
  t ← shrink_loop (Z.to_nat (len map1)) 0 (len map1) (table map1);
  match realloc ok t (size_wrap (len map1 * PTR_SIZE)) with
  | None => Some (set_table t map1, -1)
  | Some newtable => Some (set_table newtable map1, 0)
  end.

(** *** hashmap_init, hashmap_get, hashmap_insert, hashmap_remove *)

Definition hashmap_init (ok : bool) (h : K → Z) (c : hash_node → K → bool)
  : hashmap :=
  {| len := MIN_SLOTS; table := calloc ok MIN_SLOTS; count := 0;
     hash := h; cmp := c |}.

Definition slot_of (map : hashmap) (h : Z) : Z :=
  Z.land h (size_wrap (len map - 1)).

Fixpoint chain_find (c : hash_node → K → bool) (key : K) (node : chain)
  : option hash_node :=
  match node with
  | [] => None
  | n :: next => if c n key then Some n else chain_find c key next
  end.

Definition hashmap_get (map : hashmap) (key : K)
  : option (option hash_node) :=
  node ← load (table map) (slot_of map (hash map key));
  Some (chain_find (cmp map) key node).

(** The first five statements of [hashmap_insert]: cache the hash, link the
    node in front of its bucket, count it. *)
Definition insert_link (map : hashmap) (node : Z) (key : K)
  : option hashmap :=
  let n := {| node_addr := node; node_hash := hash map key |} in
  let slot := slot_of map (node_hash n) in
  next ← load (table map) slot;
  t ← store (table map) slot (n :: next);
  Some (set_count (size_wrap (count map + 1)) (set_table t map)).

Definition grow_due (map : hashmap) : bool :=
  count map >? size_wrap (len map * 3).

Definition hashmap_insert (ok : bool) (map : hashmap) (node : Z) (key : K)
  : option (hashmap * Z) :=
  map1 ← insert_link map node key;
  if grow_due map1 then
    r ← hashmap_grow ok map1;
    Some (r.1, 0)
  else Some (map1, 0).

(** The walk of [hashmap_remove] with its [prev] pointer: the first node that
    matches, and the chain without it. *)
Fixpoint chain_unlink (c : hash_node → K → bool) (key : K) (node : chain)
  : option (hash_node * chain) :=
  match node with
  | [] => None
  | n :: next =>
      if c n key then Some (n, next)
      else r ← chain_unlink c key next; Some (r.1, n :: r.2)
  end.

Definition shrink_due (map : hashmap) : bool :=
  (count map <? len map / 4) && (len map >? MIN_SLOTS).

Definition hashmap_remove (ok : bool) (map : hashmap) (key : K)
  : option (hashmap * option hash_node) :=
  let slot := slot_of map (hash map key) in
  head ← load (table map) slot;
  match chain_unlink (cmp map) key head with
  | None => Some (map, None)
  | Some (node, rest) =>
      t ← store (table map) slot rest;
      let map1 := set_count (size_wrap (count map - 1)) (set_table t map) in
      if shrink_due map1 then
        r ← hashmap_shrink ok map1;
        Some (r.1, Some node)
      else Some (map1, Some node)
  end.

End Hashmap.

Arguments hashmap : clear implicits.

(** * The vocabulary of the statements

    Closed forms of what the operations compute, the invariant of the table
    and sequences of operations.  The properties below relate them to the
    functions of the program. *)

(** ** Chains and bucket arrays *)

(** [node->hash & len] is zero: the node stays in the lower half when the
    array of [l] buckets grows. *)
Definition lower_half (l : Z) (n : hash_node) : Prop :=
  Z.land (node_hash n) l = 0.

Global Instance lower_half_dec l n : Decision (lower_half l n).
Proof. unfold lower_half. apply _. Defined.

(** The two chains that the inner loop of [hashmap_grow] makes of a chain: the
    loop pushes the nodes one by one, which reverses their order. *)
Definition split_lo (l : Z) (c : chain) : chain :=
  reverse (filter (lower_half l) c).

Definition split_hi (l : Z) (c : chain) : chain :=
  reverse (filter (λ n, ¬ lower_half l n) c).

(** The bucket array after a successful [hashmap_grow] of [n] buckets. *)
Definition grow_table (n : nat) (l : Z) (t : list chain) : list chain :=
  (split_lo l <$> take n t) ++ (split_hi l <$> take n t).

(** The [n] buckets that [hashmap_shrink] makes of [2 * n]: bucket [i] followed
    by bucket [i + n]. *)
Definition fold_table (n : nat) (t : list chain) : list chain :=
  zip_with app (take n t) (take n (drop n t)).

(** ** Operations of a caller

    Each operation carries the outcome of the reallocation that it may
    trigger. *)

Inductive op (K : Type) : Type :=
  | Insert (node : Z) (key : K) (ok : bool)
  | Remove (key : K) (ok : bool).

Arguments Insert {K} node key ok.
Arguments Remove {K} key ok.

Section Vocabulary.

Context {K : Type}.
Implicit Types (map : hashmap K) (key : K) (t : list chain) (ch : chain).
Implicit Types (o : op K) (ops : list (op K)) (ins : list (Z * K * bool)).

(** The number of buckets as an index bound, the buckets in use, and all
    the links of the table. *)
Definition slots map : nat := Z.to_nat (len map).
Definition buckets map : list chain := take (slots map) (table map).
Definition links map : list hash_node := concat (buckets map).

(** The chain of the bucket selected by hash [h]. *)
Definition bucket map (h : Z) : chain :=
  default [] (load (table map) (slot_of map h)).

(** The addresses of the nodes that the table links. *)
Definition addresses map : list Z := node_addr <$> links map.

(** The contract of [hashmap_insert]: the node is not a member of the
    table. *)
Definition fresh map (node : Z) : bool :=
  forallb (λ a, negb (a =? node)) (addresses map).

(** The invariant of the table: [len] is a power of two from [MIN_SLOTS] up
    to what an array of pointers can hold, the block has at least [len]
    slots, every link is in the bucket that the low bits of its cached hash
    select, [count] is the number of links, and the links are distinct
    objects of [NODE_SIZE] bytes: no node is linked twice, which is what makes
    the chains lists. *)
Record wf map : Prop := Wf {
  wf_pow2 : ∃ k, 4 ≤ k ≤ 60 ∧ len map = 2 ^ k;
  wf_capacity : (slots map ≤ length (table map))%nat;
  wf_slot : ∀ (i : nat) c n,
    buckets map !! i = Some c → n ∈ c →
    Z.land (node_hash n) (len map - 1) = Z.of_nat i;
  wf_count : count map = Z.of_nat (length (links map));
  wf_bound : count map ≤ MAX_LINKS;
  wf_distinct : NoDup (addresses map)
}.

(** The array is not larger than removals leave it. *)
Definition compact map : Prop :=
  len map = MIN_SLOTS ∨ len map ≤ 4 * count map.

(** The table once [hashmap_insert] has linked and counted the node, before
    it looks at the load. *)
Definition linked map (node : Z) key : hashmap K :=
  set_count (count map + 1)
    (set_table
       (<[Z.to_nat (slot_of map (hash map key)) :=
            HashNode node (hash map key) :: bucket map (hash map key)]>
          (table map)) map).

(** The table after a [hashmap_grow] whose reallocation succeeded. *)
Definition grown map : hashmap K :=
  set_len (2 * len map)
    (set_table (grow_table (slots map) (len map) (table map)) map).

(** The table after [hashmap_shrink]: the lower half of the array holds the
    folded chains; when the reallocation fails the block keeps its size, and
    its upper slots keep their stale heads, which no operation reads before
    it has written them. *)
Definition shrunk (ok : bool) map : hashmap K :=
  let n := Z.to_nat (len map / 2) in
  set_table
    (if ok then fold_table n (table map)
     else fold_table n (table map) ++ drop n (table map))
    (set_len (len map / 2) map).

(** The links of a chain that [cmp] accepts for a key, in chain order. *)
Definition matching (c : hash_node → K → bool) key ch : chain :=
  filter (λ n, c n key = true) ch.

(** The table once [hashmap_remove] has unlinked a node from the bucket of
    hash [h], leaving the chain [rest], before it looks at the load. *)
Definition unlinked map (h : Z) (rest : chain) : hashmap K :=
  set_count (count map - 1)
    (set_table (<[Z.to_nat (slot_of map h) := rest]> (table map)) map).

(** The table after a [hashmap_remove] that found its key. *)
Definition removed (ok : bool) map (h : Z) (rest : chain) : hashmap K :=
  if shrink_due (unlinked map h rest)
  then shrunk ok (unlinked map h rest)
  else unlinked map h rest.

(** The table after [hashmap_insert]. *)
Definition inserted (ok : bool) map (node : Z) key : hashmap K :=
  if grow_due (linked map node key) && ok
  then grown (linked map node key)
  else linked map node key.

(** When the links that match a key carry the hash of the key, they are all
    in the bucket of the key. *)
Definition hash_consistent map key : Prop :=
  ∀ x, x ∈ links map → cmp map x key = true →
       node_hash x = hash map key.

(** The operation respects the contract of the table. *)
Definition allowed map o : bool :=
  match o with
  | Insert node _ _ => fresh map node
  | Remove _ _ => true
  end.

(** One operation, and a sequence of operations; [None] when an operation is
    undefined. *)
Definition step map o : option (hashmap K) :=
  match o with
  | Insert node key ok => fst <$> hashmap_insert ok map node key
  | Remove key ok => fst <$> hashmap_remove ok map key
  end.

Fixpoint run map ops : option (hashmap K) :=
  match ops with
  | [] => Some map
  | o :: ops' => map' ← step map o; run map' ops'
  end.

(** Every operation of the sequence respects the contract when its turn
    comes. *)
Fixpoint respects map ops : bool :=
  match ops with
  | [] => true
  | o :: ops' =>
      allowed map o &&
      match step map o with
      | Some map' => respects map' ops'
      | None => true
      end
  end.

(** The operation is a [hashmap_insert] that calls [hashmap_grow] and gets
    [-1] from it. *)
Definition grow_fails map o : bool :=
  match o with
  | Insert node key ok =>
      match insert_link map node key with
      | Some map1 =>
          grow_due map1 &&
          match hashmap_grow ok map1 with
          | Some (_, r) => r =? -1
          | None => false
          end
      | None => false
      end
  | Remove _ _ => false
  end.

(** Some operation of the sequence is one. *)
Fixpoint grow_failed map ops : bool :=
  match ops with
  | [] => false
  | o :: ops' =>
      grow_fails map o ||
      match step map o with
      | Some map' => grow_failed map' ops'
      | None => false
      end
  end.

(** The reallocation of the operation is attempted and fails: the operation
    is a [hashmap_insert] that counts more than [len * 3] links after its
    increment, and its [realloc] returns [NULL]. *)
Definition realloc_fails map o : bool :=
  match o with
  | Insert _ _ ok => negb ok && (len map * 3 <? count map + 1)
  | Remove _ _ => false
  end.

(** This happens to some operation of the sequence. *)
Fixpoint realloc_failed map ops : bool :=
  match ops with
  | [] => false
  | o :: ops' =>
      realloc_fails map o ||
      match step map o with
      | Some map' => realloc_failed map' ops'
      | None => false
      end
  end.

(** An insertion: the address of the node, the key, and whether the
    reallocation of a triggered grow succeeds. *)
Definition insert_op (i : Z * K * bool) : op K := Insert i.1.1 i.1.2 i.2.

(** The links of the table that match a key, as a multiset. *)
Definition matches map key : list hash_node :=
  matching (cmp map) key (links map).

(** A sequence of [hashmap_remove], each with the outcome of the reallocation
    that it may trigger: the table it leaves and the links it returns. *)
Fixpoint remove_all map (rems : list (K * bool))
  : option (hashmap K * list (option hash_node)) :=
  match rems with
  | [] => Some (map, [])
  | r :: rems' =>
      p ← hashmap_remove r.2 map r.1;
      q ← remove_all p.1 rems';
      Some (q.1, p.2 :: q.2)
  end.

(** No [hashmap_shrink] of the sequence meets a reallocation that fails. *)
Definition shrinks_succeed (ops : list (op K)) : bool :=
  forallb (λ o, match o with Remove _ ok => ok | Insert _ _ _ => true end) ops.

(** Two tables that differ at most in the slots of the block above [len]. *)
Definition same_buckets (m1 m2 : hashmap K) : Prop :=
  len m1 = len m2 ∧ count m1 = count m2 ∧ hash m1 = hash m2 ∧
  cmp m1 = cmp m2 ∧ buckets m1 = buckets m2.

End Vocabulary.

(** ** The table as a map

    The usual way to use the table: the record of every node holds a key, and
    no two nodes of the table hold the same key. *)

Section Model.

Context {K : Type} `{EqDecision K}.

(** The nodes that the table holds after an operation, when it held the
    nodes [m] before and the record of the node at address [a] holds the key
    [key_of a]: the most recent first. *)
Definition model_step (key_of : Z → K) (m : list Z) (o : op K) : list Z :=
  match o with
  | Insert node _ _ => node :: m
  | Remove key _ => filter (λ a, key_of a ≠ key) m
  end.

Definition model (key_of : Z → K) (ops : list (op K)) : list Z :=
  foldl (model_step key_of) [] ops.

(** The table is used as a map: a node is inserted with the key of its
    record, when the table holds neither this node nor a node with this
    key. *)
Definition keyed (key_of : Z → K) (m : list Z) (o : op K) : bool :=
  match o with
  | Insert node key _ =>
      bool_decide (key_of node = key) && bool_decide (node ∉ m) &&
      bool_decide (key ∉ key_of <$> m)
  | Remove _ _ => true
  end.

Fixpoint well_keyed (key_of : Z → K) (m : list Z) (ops : list (op K))
  : bool :=
  match ops with
  | [] => true
  | o :: ops' =>
      keyed key_of m o && well_keyed key_of (model_step key_of m o) ops'
  end.

(** The table holds the nodes [m], no two with the same key, each linked with
    the hash of its key. *)
Definition represents (h : K → Z) (c : hash_node → K → bool)
    (key_of : Z → K) (map : hashmap K) (m : list Z) : Prop :=
  wf map ∧ hash map = h ∧ cmp map = c ∧
  NoDup (key_of <$> m) ∧
  links map ≡ₚ (λ a, HashNode a (h (key_of a))) <$> m.

End Model.

(** ** The test harness of hashmap.c

    [struct test] embeds the node; [hash_test] returns the key ([int]
    converted to [size_t]) and [cmp_test] compares the key with field [i] of
    the record of the node.  The records of the examples are laid out so that
    the record whose node is at address [a] has [i = a / 4]: the nodes at
    addresses [4 * k] to [4 * k + 3] all carry key [k]. *)

Module Harness.

Definition hash_test (key : Z) : Z := size_wrap key.

Definition test_i (addr : Z) : Z := addr / 4.

Definition cmp_test (node : hash_node) (key : Z) : bool :=
  test_i (node_addr node) =? key.

Definition init : hashmap Z := hashmap_init true hash_test cmp_test.

(** [n] insertions of the keys [a], [a + 1], ... with their own records, as
    the first loop of [main] does. *)
Definition insert_keys (a : Z) (n : nat) : list (op Z) :=
  (λ i : nat, Insert (4 * (a + Z.of_nat i)) (a + Z.of_nat i) true)
    <$> seq 0 n.

(** The same insertions when no reallocation succeeds. *)
Definition starved_insert_keys (a : Z) (n : nat) : list (op Z) :=
  (λ i : nat, Insert (4 * (a + Z.of_nat i)) (a + Z.of_nat i) false)
    <$> seq 0 n.

(** [n] removals of the keys [a], [a + 1], ... *)
Definition remove_keys (a : Z) (n : nat) : list (op Z) :=
  (λ i : nat, Remove (a + Z.of_nat i) true) <$> seq 0 n.

(** The table that a sequence of operations makes of the initial one. *)
Definition table_of (ops : list (op Z)) : hashmap Z :=
  default init (run init ops).

End Harness.

(** A table of 32 buckets with a single link, for which
    [count < len / 4] and [len > MIN_SLOTS] hold. *)
Definition sparse_table : hashmap Z :=
  {| table := <[3%nat := [HashNode 12 3]]> (replicate 32 []);
     len := 32; count := 1;
     hash := Harness.hash_test; cmp := Harness.cmp_test |}.

(** ** The test program of hashmap.c

    [main] with its three loops and its assertions.  The C library is a
    parameter: the outcome of every allocation and the values of [rand].
    A run either completes, stops at a failed [assert], or has undefined
    behaviour (a store through [NULL], a signed overflow, a division by zero,
    an access outside the bucket array). *)

Module Main.

Inductive exec (A : Type) : Type :=
  | Ok (a : A)
  | Abort
  | Undefined.

Arguments Ok {A} a.
Arguments Abort {A}.
Arguments Undefined {A}.

Global Instance exec_ret : MRet exec := λ A a, Ok a.

Global Instance exec_bind : MBind exec := λ A B f m,
  match m with
  | Ok a => f a
  | Abort => Abort
  | Undefined => Undefined
  end.

(** An operation of the table, whose [None] is undefined behaviour. *)
Definition defined {A : Type} (o : option A) : exec A :=
  match o with
  | Some a => Ok a
  | None => Undefined
  end.

Definition assert (b : bool) : exec unit := if b then Ok () else Abort.

(** [int] is 32 bits wide; an [int] operation whose result does not fit is
    undefined. *)
Definition INT_MIN : Z := - 2 ^ 31.
Definition INT_MAX : Z := 2 ^ 31 - 1.

Definition int (z : Z) : exec Z :=
  if (INT_MIN <=? z) && (z <=? INT_MAX) then Ok z else Undefined.

(** [a % b] on [int]: the remainder of the division that truncates towards
    zero; undefined when [b] is zero or the quotient does not fit. *)
Definition int_rem (a b : Z) : exec Z :=
  if (b =? 0) || ((a =? INT_MIN) && (b =? -1)) then Undefined
  else int (Z.rem a b).

(** [struct test]: the node is the first member, so that [container_of]
    maps the address of a node to the address of its record; the fields [i]
    and [j]. *)
Record test : Type := Test {
  test_i : Z;
  test_j : Z
}.

(** The records that [main] has allocated and filled, by address. *)
Definition memory : Type := Z → option test.

(** [t->i = i; t->j = j;] *)
Definition store_test (mem : memory) (t : Z) (v : test) : memory :=
  λ a, if decide (a = t) then Some v else mem a.

(** A key is a pointer to an [int]: the callbacks get the value it points
    to, and [cmp_test] the memory in which it reads the record of the
    node.  [main] calls the operations of the table with the memory of the
    moment. *)
Definition key : Type := memory * Z.

(** [return *i;] converted to [size_t]. *)
Definition hash_test (k : key) : Z := size_wrap k.2.

(** [return t->i == *i;] on the record of the node.  The table calls it on
    linked nodes only; [main] is undefined when one of them has no record
    ([readable] below), so that the last case is never the answer of a
    defined call. *)
Definition cmp_test (node : hash_node) (k : key) : bool :=
  match k.1 (node_addr node) with
  | Some t => test_i t =? k.2
  | None => false
  end.

(** What [main] gets from the C library: whether the [calloc] of
    [hashmap_init] succeeds, the address that [calloc(1, sizeof *t)] returns
    in iteration [i] of the first loop ([0] is [NULL]), whether the
    reallocation of a resize succeeds in iteration [i] of the first and of the
    third loop, and the value of [rand()] in iteration [i] of the second. *)
Record libc : Type := Libc {
  calloc_table : bool;
  calloc_test : Z → Z;
  realloc_grow : Z → bool;
  realloc_shrink : Z → bool;
  rand : Z → Z
}.

(** [cmp_test] reads the record of every node that the table passes to it:
    a call of [hashmap_get] or [hashmap_remove] is defined only if all the
    linked nodes have their record. *)
Definition readable (mem : memory) (map : hashmap key) : exec unit :=
  if forallb (λ n, bool_decide (is_Some (mem (node_addr n)))) (links map)
  then Ok ()
  else Undefined.

(** [assert (t->i == k && t->j == k + 123)] *)
Definition check_test (mem : memory) (node : hash_node) (k : Z)
  : exec unit :=
  t ← defined (mem (node_addr node));
  e ← (if test_i t =? k then j ← int (k + 123); Ok (test_j t =? j)
       else Ok false);
  assert e.

(** The first loop, [todo] iterations from index [i]. *)
Fixpoint insert_loop (env : libc) (todo : nat) (i : Z) (map : hashmap key)
    (mem : memory) : exec (hashmap key * memory) :=
  match todo with
  | O => Ok (map, mem)
  | S todo' =>
      let t := calloc_test env i in
      if t =? 0 then Undefined
      else
        j ← int (i + 123);
        let mem' := store_test mem t (Test i j) in
        r ← defined (hashmap_insert (realloc_grow env i) map t (mem', i));
        i' ← int (i + 1);
        insert_loop env todo' i' r.1 mem'
  end.

(** The second loop. *)
Fixpoint get_loop (env : libc) (COUNT : Z) (mem : memory)
    (map : hashmap key) (todo : nat) (i : Z) : exec unit :=
  match todo with
  | O => Ok ()
  | S todo' =>
      k ← int_rem (rand env i) COUNT;
      _ ← readable mem map;
      node ← defined (hashmap_get map (mem, k));
      match node with
      | None => Abort
      | Some node =>
          _ ← check_test mem node k;
          i' ← int (i + 1);
          get_loop env COUNT mem map todo' i'
      end
  end.

(** The third loop. *)
Fixpoint remove_loop (env : libc) (COUNT : Z) (mem : memory) (todo : nat)
    (i : Z) (map : hashmap key) : exec (hashmap key) :=
  match todo with
  | O => Ok map
  | S todo' =>
      k1 ← int (COUNT - 1);
      k ← int (k1 - i);
      _ ← readable mem map;
      r ← defined (hashmap_remove (realloc_shrink env i) map (mem, k));
      match r.2 with
      | None => Abort
      | Some node =>
          _ ← check_test mem node k;
          i' ← int (i + 1);
          remove_loop env COUNT mem todo' i' r.1
      end
  end.

(** [main] for given values of [COUNT] and [GET_COUNT]; the result is the
    value that [main] returns. *)
Definition main_with (COUNT GET_COUNT : Z) (env : libc) : exec Z :=
  let map := hashmap_init (calloc_table env) hash_test cmp_test in
  s ← insert_loop env (Z.to_nat COUNT) 0 map (λ _, None);
  _ ← get_loop env COUNT s.2 s.1 (Z.to_nat GET_COUNT) 0;
  map' ← remove_loop env COUNT s.2 (Z.to_nat COUNT) 0 s.1;
  _ ← assert (len map' =? MIN_SLOTS);
  Ok 0.

Definition COUNT : Z := 1000000.
Definition GET_COUNT : Z := 10000000.

Definition main (env : libc) : exec Z := main_with COUNT GET_COUNT env.

(** The link of the record that iteration [j] of the first loop inserts. *)
Definition node_of (env : libc) (j : nat) : hash_node :=
  HashNode (calloc_test env (Z.of_nat j)) (size_wrap (Z.of_nat j)).

(** The table holds the links of the first [n] records. *)
Definition holds (env : libc) (n : nat) (map : hashmap key) : Prop :=
  wf map ∧ compact map ∧ hash map = hash_test ∧ cmp map = cmp_test ∧
  count map = Z.of_nat n ∧ links map ≡ₚ node_of env <$> seq 0 n.

(** The first [n] records are filled. *)
Definition filled (env : libc) (n : nat) (mem : memory) : Prop :=
  ∀ j : nat, (j < n)%nat →
    mem (calloc_test env (Z.of_nat j))
      = Some (Test (Z.of_nat j) (Z.of_nat j + 123)).

(** A small run: 100 records at addresses 24, 48, ...; the reallocations of
    odd iterations fail. *)
Definition small_env : libc :=
  {| calloc_table := true;
     calloc_test := λ i, 24 * (i + 1);
     realloc_grow := Z.even;
     realloc_shrink := Z.even;
     rand := λ i, 7 * i + 3 |}.

End Main.

(** * Properties *)

(** ** Arithmetic of [size_t] and of powers of two *)

Lemma size_wrap_small z : 0 ≤ z < 2 ^ SIZE_BITS → size_wrap z = z.
Proof. intros. unfold size_wrap. by apply Z.mod_small. Qed.

Lemma pow2_pos k : 0 ≤ k → 0 < 2 ^ k.
Proof. intros. by apply Z.pow_pos_nonneg. Qed.

Lemma pow2_le_mono j k : 0 ≤ j ≤ k → 2 ^ j ≤ 2 ^ k.
Proof. intros. apply Z.pow_le_mono_r; lia. Qed.

Lemma land_mask h k : 0 ≤ k → Z.land h (2 ^ k - 1) = h mod 2 ^ k.
Proof.
  intros Hk. rewrite <- Z.land_ones by done.
  by rewrite Z.ones_equiv, <- Z.sub_1_r.
Qed.

Lemma land_bit h k :
  0 ≤ k → Z.land h (2 ^ k) = if Z.testbit h k then 2 ^ k else 0.
Proof.
  intros Hk. apply Z.bits_inj'. intros n Hn.
  rewrite Z.land_spec, Z.pow2_bits_eqb by done.
  destruct (Z.eqb_spec k n) as [->|Hne].
  - destruct (Z.testbit h n) eqn:E; simpl.
    + by rewrite Z.pow2_bits_true.
    + by rewrite Z.bits_0.
  - rewrite andb_false_r. destruct (Z.testbit h k).
    + by rewrite Z.pow2_bits_false.
    + by rewrite Z.bits_0.
Qed.

Lemma land_bit_div h k :
  0 ≤ k → Z.land h (2 ^ k) = 2 ^ k * ((h / 2 ^ k) mod 2).
Proof.
  intros Hk. rewrite land_bit by done.
  pose proof (Z.testbit_true h k Hk) as Ht.
  pose proof (Z.mod_pos_bound (h / 2 ^ k) 2 ltac:(lia)).
  destruct (Z.testbit h k).
  - assert ((h / 2 ^ k) mod 2 = 1) as -> by (by apply Ht). lia.
  - assert ((h / 2 ^ k) mod 2 ≠ 1) by (intros E; apply Ht in E; done). lia.
Qed.

(** One more bit of the hash selects between bucket [i] and bucket
    [i + 2 ^ k]. *)
Lemma land_mask_succ h k :
  0 ≤ k →
  Z.land h (2 ^ (k + 1) - 1) = Z.land h (2 ^ k - 1) + Z.land h (2 ^ k).
Proof.
  intros Hk. rewrite !land_mask, land_bit_div by lia.
  rewrite Z.pow_add_r, Z.pow_1_r by lia.
  pose proof (pow2_pos k Hk).
  rewrite Z.rem_mul_r by lia. done.
Qed.

Lemma land_mask_range h k : 0 ≤ k → 0 ≤ Z.land h (2 ^ k - 1) < 2 ^ k.
Proof.
  intros Hk. rewrite land_mask by done.
  apply Z.mod_pos_bound. by apply pow2_pos.
Qed.

(** ** The bucket array *)

Lemma load_lookup (t : list chain) (i : nat) : load t (Z.of_nat i) = t !! i.
Proof. unfold load. by rewrite Nat2Z.id. Qed.

Lemma store_insert (t : list chain) (i : nat) c :
  (i < length t)%nat → store t (Z.of_nat i) c = Some (<[i := c]> t).
Proof. intros. unfold store. rewrite Nat2Z.id. by rewrite decide_True. Qed.

(** ** Splitting a chain in [hashmap_grow] *)

Lemma split_chain_acc l c a b :
  split_chain l c a b = (split_lo l c ++ a, split_hi l c ++ b).
Proof.
  unfold split_lo, split_hi. revert a b.
  induction c as [|n c IH]; intros a b; cbn [split_chain]; [done|].
  rewrite !filter_cons.
  destruct (Z.eqb_spec (Z.land (node_hash n) l) 0) as [E|E].
  - rewrite decide_True, decide_False by (unfold lower_half; tauto).
    rewrite IH, reverse_cons, <- app_assoc. done.
  - rewrite decide_False, decide_True by (unfold lower_half; tauto).
    rewrite IH, reverse_cons, <- app_assoc. done.
Qed.

Lemma split_chain_spec l c :
  split_chain l c [] [] = (split_lo l c, split_hi l c).
Proof. by rewrite split_chain_acc, !app_nil_r. Qed.

Lemma split_perm l c : split_lo l c ++ split_hi l c ≡ₚ c.
Proof.
  unfold split_lo, split_hi. rewrite !reverse_Permutation.
  induction c as [|n c IH]; [done|].
  rewrite !filter_cons. destruct (decide (lower_half l n)).
  - rewrite decide_False by tauto. simpl. by rewrite IH.
  - rewrite decide_True by done.
    rewrite <- Permutation_middle. by rewrite IH.
Qed.

Lemma elem_of_split_lo l c n :
  n ∈ split_lo l c ↔ n ∈ c ∧ Z.land (node_hash n) l = 0.
Proof.
  unfold split_lo. rewrite elem_of_reverse, list_elem_of_filter.
  unfold lower_half. tauto.
Qed.

Lemma elem_of_split_hi l c n :
  n ∈ split_hi l c ↔ n ∈ c ∧ Z.land (node_hash n) l ≠ 0.
Proof.
  unfold split_hi. rewrite elem_of_reverse, list_elem_of_filter.
  unfold lower_half. tauto.
Qed.

(** The state of the array while the [for] loop of [hashmap_grow] runs: the
    buckets below [i] are split, the others are as they were. *)
Lemma grow_loop_spec (n : nat) (l : Z) :
  l = Z.of_nat n → 2 * l < 2 ^ SIZE_BITS →
  ∀ (todo i : nat) (t : list chain),
    (i + todo = n)%nat → (n + n ≤ length t)%nat →
    ∃ t', grow_loop todo (Z.of_nat i) l t = Some t' ∧
          length t' = length t ∧
          ∀ j : nat,
            t' !! j =
              if decide (i ≤ j < n)%nat then split_lo l <$> t !! j
              else if decide (n + i ≤ j < n + n)%nat
                   then split_hi l <$> t !! (j - n)%nat
                   else t !! j.
Proof.
  intros Hl Hb. induction todo as [|todo IH]; intros i t Hi Hlen.
  - exists t. split; [done|]. split; [done|]. intros j.
    rewrite decide_False by lia. by rewrite decide_False by lia.
  - simpl. rewrite load_lookup.
    destruct (lookup_lt_is_Some_2 t i ltac:(lia)) as [c Hc].
    rewrite Hc. simpl. rewrite split_chain_spec.
    rewrite store_insert by lia. simpl.
    rewrite size_wrap_small by lia.
    replace (Z.of_nat i + l) with (Z.of_nat (i + n)) by lia.
    rewrite store_insert by (rewrite length_insert; lia). simpl.
    replace (Z.of_nat i + 1) with (Z.of_nat (S i)) by lia.
    destruct (IH (S i) (<[(i + n)%nat := split_hi l c]>
                          (<[i := split_lo l c]> t)))
      as (t' & Hrun & Hlen' & Hget); [lia|by rewrite !length_insert|].
    exists t'. split; [done|]. split; [by rewrite Hlen', !length_insert|].
    intros j. rewrite Hget. clear Hget Hrun IH.
    destruct (decide (j = i)) as [->|Hji].
    + rewrite decide_False by lia. rewrite decide_False by lia.
      rewrite decide_True by lia.
      rewrite list_lookup_insert_ne by lia.
      rewrite list_lookup_insert_eq by lia. by rewrite Hc.
    + destruct (decide (j = (i + n)%nat)) as [->|Hjn].
      * rewrite decide_False by lia. rewrite decide_False by lia.
        rewrite decide_False by lia. rewrite decide_True by lia.
        rewrite list_lookup_insert_eq by (rewrite length_insert; lia).
        replace (i + n - n)%nat with i by lia. by rewrite Hc.
      * rewrite !list_lookup_insert_ne by lia.
        repeat case_decide; try lia; try done.
        by rewrite !list_lookup_insert_ne by lia.
Qed.

Lemma length_grow_table n l (t : list chain) :
  (n ≤ length t)%nat → length (grow_table n l t) = (n + n)%nat.
Proof.
  intros. unfold grow_table.
  rewrite length_app, !length_fmap, length_take. lia.
Qed.

Lemma lookup_grow_table_lo n l (t : list chain) (j : nat) :
  (j < n)%nat → (n ≤ length t)%nat →
  grow_table n l t !! j = split_lo l <$> t !! j.
Proof.
  intros. unfold grow_table.
  rewrite lookup_app_l by (rewrite length_fmap, length_take; lia).
  rewrite list_lookup_fmap. by rewrite lookup_take_lt by lia.
Qed.

Lemma lookup_grow_table_hi n l (t : list chain) (j : nat) :
  (j < n)%nat → (n ≤ length t)%nat →
  grow_table n l t !! (n + j)%nat = split_hi l <$> t !! j.
Proof.
  intros. unfold grow_table.
  rewrite lookup_app_r by (rewrite length_fmap, length_take; lia).
  rewrite length_fmap, length_take.
  replace (n + j - n `min` length t)%nat with j by lia.
  rewrite list_lookup_fmap. by rewrite lookup_take_lt by lia.
Qed.

Lemma grow_loop_table (n : nat) (l : Z) (t : list chain) :
  l = Z.of_nat n → 2 * l < 2 ^ SIZE_BITS → (n ≤ length t)%nat →
  grow_loop n 0 l (resize (n + n) [] t) = Some (grow_table n l t).
Proof.
  intros Hl Hb Hn.
  destruct (grow_loop_spec n l Hl Hb n 0%nat (resize (n + n) [] t))
    as (t' & Hrun & Hlen & Hget); [lia|by rewrite length_resize|].
  change (Z.of_nat 0) with 0 in Hrun. rewrite Hrun. f_equal.
  rewrite length_resize in Hlen.
  apply list_eq. intros j. rewrite Hget.
  destruct (decide (j < n)%nat).
  - rewrite decide_True by lia.
    rewrite lookup_grow_table_lo by lia.
    by rewrite lookup_resize by lia.
  - rewrite decide_False by lia.
    destruct (decide (j < n + n)%nat).
    + rewrite decide_True by lia.
      replace j with (n + (j - n))%nat at 2 by lia.
      rewrite lookup_grow_table_hi by lia.
      by rewrite lookup_resize by lia.
    + rewrite decide_False by lia.
      rewrite !lookup_ge_None_2; [done| |].
      * rewrite length_grow_table; lia.
      * rewrite length_resize; lia.
Qed.

(** ** Folding the array in [hashmap_shrink] *)

Lemma chain_append_app prev next : chain_append prev next = prev ++ next.
Proof. induction prev as [|n prev IH]; simpl; [done|]. by rewrite IH. Qed.

Lemma length_fold_table n (t : list chain) :
  (n + n ≤ length t)%nat → length (fold_table n t) = n.
Proof.
  intros. unfold fold_table.
  rewrite length_zip_with, !length_take, length_drop. lia.
Qed.

Lemma lookup_fold_table n (t : list chain) (j : nat) c c' :
  (j < n)%nat → t !! j = Some c → t !! (n + j)%nat = Some c' →
  fold_table n t !! j = Some (c ++ c').
Proof.
  intros Hj Hc Hc'. unfold fold_table.
  rewrite lookup_zip_with.
  rewrite !lookup_take_lt by done. by rewrite lookup_drop, Hc, Hc'.
Qed.

Lemma shrink_loop_spec (n : nat) (l : Z) :
  l = Z.of_nat n → 2 * l < 2 ^ SIZE_BITS →
  ∀ (todo i : nat) (t : list chain),
    (i + todo = n)%nat → (n + n ≤ length t)%nat →
    ∃ t', shrink_loop todo (Z.of_nat i) l t = Some t' ∧
          length t' = length t ∧
          ∀ j : nat,
            t' !! j =
              if decide (i ≤ j < n)%nat
              then c ← t !! j; c' ← t !! (n + j)%nat; Some (c ++ c')
              else t !! j.
Proof.
  intros Hl Hb. induction todo as [|todo IH]; intros i t Hi Hlen.
  - exists t. split; [done|]. split; [done|]. intros j.
    by rewrite decide_False by lia.
  - cbn [shrink_loop]. rewrite load_lookup.
    destruct (lookup_lt_is_Some_2 t i ltac:(lia)) as [c Hc].
    destruct (lookup_lt_is_Some_2 t (n + i) ltac:(lia)) as [c' Hc'].
    rewrite Hc. cbn [mbind option_bind].
    rewrite size_wrap_small by lia.
    replace (Z.of_nat i + l) with (Z.of_nat (n + i)) by lia.
    rewrite load_lookup, Hc'. cbn [mbind option_bind].
    assert (match c with
            | [] => store t (Z.of_nat i) c'
            | _ :: _ => store t (Z.of_nat i) (chain_append c c')
            end = Some (<[i := c ++ c']> t)) as ->.
    { destruct c; rewrite ?chain_append_app; by rewrite store_insert by lia. }
    cbn [mbind option_bind].
    replace (Z.of_nat i + 1) with (Z.of_nat (S i)) by lia.
    destruct (IH (S i) (<[i := c ++ c']> t))
      as (t' & Hrun & Hlen' & Hget); [lia|by rewrite length_insert|].
    exists t'. split; [done|]. split; [by rewrite Hlen', length_insert|].
    intros j. rewrite Hget. clear Hget Hrun IH.
    destruct (decide (j = i)) as [->|Hji].
    + rewrite decide_False by lia. rewrite decide_True by lia.
      rewrite list_lookup_insert_eq by lia. by rewrite Hc, Hc'.
    + repeat case_decide; try lia; by rewrite ?list_lookup_insert_ne by lia.
Qed.

Lemma shrink_loop_table (n : nat) (l : Z) (t : list chain) :
  l = Z.of_nat n → 2 * l < 2 ^ SIZE_BITS → (n + n ≤ length t)%nat →
  shrink_loop n 0 l t = Some (fold_table n t ++ drop n t).
Proof.
  intros Hl Hb Hn.
  destruct (shrink_loop_spec n l Hl Hb n 0%nat t)
    as (t' & Hrun & Hlen & Hget); [lia|lia|].
  change (Z.of_nat 0) with 0 in Hrun. rewrite Hrun. f_equal.
  apply list_eq. intros j. rewrite Hget.
  destruct (decide (j < n)%nat).
  - rewrite decide_True by lia.
    rewrite lookup_app_l by (rewrite length_fold_table; lia).
    destruct (lookup_lt_is_Some_2 t j ltac:(lia)) as [c Hc].
    destruct (lookup_lt_is_Some_2 t (n + j) ltac:(lia)) as [c' Hc'].
    rewrite (lookup_fold_table n t j c c') by done.
    by rewrite Hc, Hc'.
  - rewrite decide_False by lia.
    rewrite lookup_app_r by (rewrite length_fold_table; lia).
    rewrite length_fold_table, lookup_drop by lia. f_equal. lia.
Qed.

(** ** Lists of chains *)

Lemma concat_insert_perm (l : list chain) (s : nat) (c c' : chain) :
  l !! s = Some c →
  ∃ R, concat l ≡ₚ c ++ R ∧ concat (<[s := c']> l) ≡ₚ c' ++ R.
Proof.
  intros Hs. exists (concat (take s l) ++ concat (drop (S s) l)).
  pose proof (lookup_lt_Some _ _ _ Hs) as Hlt.
  split.
  - rewrite <- (take_drop_middle l s c Hs) at 1.
    rewrite concat_app, concat_cons. apply Permutation_app_swap_app.
  - rewrite insert_take_drop by done.
    rewrite concat_app, concat_cons. apply Permutation_app_swap_app.
Qed.

Lemma concat_split_perm (f g : chain → chain) (l : list chain) :
  (∀ c, f c ++ g c ≡ₚ c) →
  concat ((f <$> l) ++ (g <$> l)) ≡ₚ concat l.
Proof.
  intros Hfg. rewrite concat_app.
  induction l as [|c l IH]; [done|].
  rewrite !fmap_cons, !concat_cons.
  rewrite <- (Hfg c) at 3. rewrite <- IH.
  rewrite <- !app_assoc. f_equiv. apply Permutation_app_swap_app.
Qed.

Lemma concat_zip_app_perm (l1 l2 : list chain) :
  length l1 = length l2 →
  concat (zip_with app l1 l2) ≡ₚ concat l1 ++ concat l2.
Proof.
  revert l2. induction l1 as [|c l1 IH]; intros [|c' l2] Hlen;
    simplify_eq/=; [done|].
  rewrite IH by done.
  rewrite <- !app_assoc. f_equiv. apply Permutation_app_swap_app.
Qed.

Lemma elem_of_concat_lookup (l : list chain) (x : hash_node) :
  x ∈ concat l ↔ ∃ (i : nat) c, l !! i = Some c ∧ x ∈ c.
Proof.
  rewrite list_elem_of_In, in_concat. split.
  - intros (c & Hc & Hx).
    apply list_elem_of_In, list_elem_of_lookup in Hc as [i Hi].
    exists i, c. by rewrite list_elem_of_In.
  - intros (i & c & Hi & Hx). exists c.
    rewrite <- !list_elem_of_In. split; [|done].
    apply list_elem_of_lookup. eauto.
Qed.

(** ** The invariant of the table *)

Lemma MAX_LINKS_eq : MAX_LINKS = 2 ^ 60.
Proof. reflexivity. Qed.

Ltac consts :=
  unfold MIN_SLOTS, PTR_SIZE, SIZE_BITS in *; rewrite ?MAX_LINKS_eq in *.

Section Invariant.

Context {K : Type}.
Implicit Types (map : hashmap K) (key : K) (t : list chain).

Lemma wf_len_range map : wf map → 16 ≤ len map ≤ 2 ^ 60.
Proof.
  intros [(k & Hk & ->) _ _ _ _].
  split; [apply (pow2_le_mono 4 k)|apply (pow2_le_mono k 60)]; lia.
Qed.

Lemma wf_slots map : wf map → len map = Z.of_nat (slots map).
Proof. intros Hwf. pose proof (wf_len_range _ Hwf). unfold slots. lia. Qed.

Lemma slot_of_wf map h : wf map → slot_of map h = Z.land h (len map - 1).
Proof.
  intros Hwf. pose proof (wf_len_range _ Hwf). unfold slot_of.
  rewrite size_wrap_small; [done|]. consts. lia.
Qed.

Lemma slot_of_range map h : wf map → 0 ≤ slot_of map h < len map.
Proof.
  intros Hwf. rewrite slot_of_wf by done.
  destruct (wf_pow2 _ Hwf) as (k & Hk & ->).
  apply land_mask_range. lia.
Qed.

Lemma slot_of_lt map h : wf map → (Z.to_nat (slot_of map h) < slots map)%nat.
Proof. intros Hwf. pose proof (slot_of_range map h Hwf). unfold slots. lia. Qed.

Lemma table_bucket map h :
  wf map → table map !! Z.to_nat (slot_of map h) = Some (bucket map h).
Proof.
  intros Hwf. unfold bucket, load.
  pose proof (slot_of_lt map h Hwf). pose proof (wf_capacity _ Hwf).
  destruct (lookup_lt_is_Some_2 (table map) (Z.to_nat (slot_of map h)))
    as [c ->]; [lia|done].
Qed.

Lemma buckets_bucket map h :
  wf map → buckets map !! Z.to_nat (slot_of map h) = Some (bucket map h).
Proof.
  intros Hwf. unfold buckets.
  rewrite lookup_take_lt by by apply slot_of_lt. by apply table_bucket.
Qed.

Lemma elem_of_links map x :
  x ∈ links map ↔ ∃ (i : nat) c, buckets map !! i = Some c ∧ x ∈ c.
Proof. apply elem_of_concat_lookup. Qed.

Lemma elem_of_bucket_links map h x :
  wf map → x ∈ bucket map h → x ∈ links map.
Proof.
  intros Hwf Hx. apply elem_of_links.
  eexists _, _. split; [by apply buckets_bucket|done].
Qed.

(** Every link is in the bucket that its cached hash selects. *)
Lemma elem_of_links_bucket map x :
  wf map → x ∈ links map → x ∈ bucket map (node_hash x).
Proof.
  intros Hwf (i & c & Hi & Hx)%elem_of_links.
  pose proof (wf_slot _ Hwf i c x Hi Hx) as Hs.
  rewrite <- slot_of_wf in Hs by done.
  pose proof (buckets_bucket map (node_hash x) Hwf) as Hb.
  rewrite Hs, Nat2Z.id, Hi in Hb. by simplify_eq.
Qed.

Lemma fresh_spec map node : fresh map node = true ↔ node ∉ addresses map.
Proof.
  unfold fresh. rewrite forallb_forall, list_elem_of_In. split.
  - intros H Hin. apply H in Hin. rewrite Z.eqb_refl in Hin. done.
  - intros H a Ha. apply negb_true_iff, Z.eqb_neq. by intros ->.
Qed.

Lemma addresses_perm map map' :
  links map' ≡ₚ links map → addresses map' ≡ₚ addresses map.
Proof. intros Hp. unfold addresses. by rewrite Hp. Qed.

Lemma addresses_perm_cons map map' x :
  links map' ≡ₚ x :: links map →
  addresses map' ≡ₚ node_addr x :: addresses map.
Proof. intros Hp. unfold addresses. by rewrite Hp. Qed.

End Invariant.

(** ** hashmap_insert: linking the node *)

Section Insert.

Context {K : Type}.
Implicit Types (map : hashmap K) (key : K) (t : list chain).

Lemma insert_link_spec map node key :
  wf map → count map < MAX_LINKS →
  insert_link map node key = Some (linked map node key).
Proof.
  intros Hwf Hc. unfold insert_link, linked, load. cbn [node_hash].
  rewrite table_bucket by done. cbn [mbind option_bind].
  pose proof (slot_of_lt map (hash map key) Hwf).
  pose proof (wf_capacity _ Hwf).
  unfold store. rewrite decide_True by lia. cbn [mbind option_bind].
  rewrite size_wrap_small; [done|].
  pose proof (wf_count _ Hwf). consts. lia.
Qed.

Lemma linked_links map node key :
  wf map →
  links (linked map node key) ≡ₚ HashNode node (hash map key) :: links map.
Proof.
  intros Hwf. unfold links, buckets, linked, slots. cbn.
  rewrite take_insert_lt by by apply slot_of_lt.
  destruct (concat_insert_perm _ _ _
              (HashNode node (hash map key) :: bucket map (hash map key))
              (buckets_bucket map (hash map key) Hwf)) as (R & H1 & H2).
  unfold buckets, slots in H1, H2. rewrite H1, H2. done.
Qed.

Lemma linked_wf map node key :
  wf map → count map < MAX_LINKS → fresh map node = true →
  wf (linked map node key).
Proof.
  intros Hwf Hc Hfresh. split.
  - apply (wf_pow2 _ Hwf).
  - unfold slots. cbn. rewrite length_insert. apply (wf_capacity _ Hwf).
  - intros i c n. unfold buckets, slots. cbn.
    rewrite take_insert_lt by by apply slot_of_lt.
    destruct (decide (i = Z.to_nat (slot_of map (hash map key)))) as [->|Hi].
    + rewrite list_lookup_insert_eq
        by (rewrite length_take; pose proof (slot_of_lt map (hash map key) Hwf);
            pose proof (wf_capacity _ Hwf); unfold slots in *; lia).
      intros [= <-] [->|Hn]%elem_of_cons.
      * cbn. rewrite <- slot_of_wf by done.
        pose proof (slot_of_range map (hash map key) Hwf). lia.
      * eapply (wf_slot _ Hwf); [by apply buckets_bucket|done].
    + rewrite list_lookup_insert_ne by done. apply (wf_slot _ Hwf).
  - pose proof (linked_links map node key Hwf) as Hp.
    apply Permutation_length in Hp. rewrite Hp. cbn.
    rewrite (wf_count _ Hwf). lia.
  - cbn. lia.
  - rewrite (addresses_perm_cons _ _ _ (linked_links map node key Hwf)).
    apply NoDup_cons. split; [by apply fresh_spec|apply (wf_distinct _ Hwf)].
Qed.

Lemma linked_bucket map node key h :
  wf map →
  bucket (linked map node key) h =
    if decide (slot_of map h = slot_of map (hash map key))
    then HashNode node (hash map key) :: bucket map h
    else bucket map h.
Proof.
  intros Hwf. unfold bucket at 1. unfold load, linked. cbn.
  change (slot_of (set_count _ (set_table _ map)) h) with (slot_of map h).
  pose proof (slot_of_range map h Hwf).
  pose proof (slot_of_range map (hash map key) Hwf).
  pose proof (slot_of_lt map (hash map key) Hwf).
  pose proof (wf_capacity _ Hwf).
  case_decide as Hs.
  - rewrite Hs. rewrite list_lookup_insert_eq by lia. cbn.
    unfold bucket, load. by rewrite Hs.
  - rewrite list_lookup_insert_ne by lia. done.
Qed.

End Insert.

(** ** hashmap_grow *)

Section Grow.

Context {K : Type}.
Implicit Types (map : hashmap K) (key : K) (t : list chain).

Lemma hashmap_grow_fail map : hashmap_grow false map = Some (map, -1).
Proof. reflexivity. Qed.

Lemma hashmap_grow_spec map :
  wf map → len map ≤ 2 ^ 59 → hashmap_grow true map = Some (grown map, 0).
Proof.
  intros Hwf Hb. pose proof (wf_len_range _ Hwf).
  unfold hashmap_grow, realloc.
  rewrite (size_wrap_small (len map * 2)) by (consts; lia).
  rewrite size_wrap_small by (consts; lia).
  replace (Z.to_nat (len map * 2 * PTR_SIZE / PTR_SIZE))
    with (slots map + slots map)%nat
    by (unfold slots; rewrite Z.div_mul by done; lia).
  fold (slots map).
  rewrite (grow_loop_table (slots map) (len map))
    by (try apply wf_slots; try apply wf_capacity; try done; consts; lia).
  cbn [mbind option_bind]. unfold grown. do 3 f_equal. lia.
Qed.

Lemma grown_buckets map :
  wf map → buckets (grown map) = grow_table (slots map) (len map) (table map).
Proof.
  intros Hwf. pose proof (wf_len_range _ Hwf).
  unfold buckets at 1. unfold grown, slots at 1. cbn.
  apply take_ge. rewrite length_grow_table by apply (wf_capacity _ Hwf).
  unfold slots. lia.
Qed.

Lemma grown_links map : wf map → links (grown map) ≡ₚ links map.
Proof.
  intros Hwf. unfold links at 1. rewrite grown_buckets by done.
  unfold grow_table. rewrite concat_split_perm; [done|].
  intros c. apply split_perm.
Qed.

(** With one more bit of the hash in the bucket index, a link of bucket [i]
    belongs to bucket [i] or to bucket [i + len]. *)
Lemma grown_wf map : wf map → len map ≤ 2 ^ 59 → wf (grown map).
Proof.
  intros Hwf Hb. pose proof (wf_len_range _ Hwf) as Hr.
  pose proof (wf_capacity _ Hwf) as Hcap.
  pose proof (wf_slots _ Hwf) as Hn.
  destruct (wf_pow2 _ Hwf) as (k & Hk & Hlen).
  assert (k ≤ 59) as Hk'.
  { destruct (decide (k ≤ 59)); [done|].
    pose proof (pow2_le_mono 60 k ltac:(lia)). lia. }
  split.
  - exists (k + 1). split; [lia|]. cbn.
    rewrite Hlen, Z.pow_add_r by lia. lia.
  - unfold slots, grown. cbn.
    rewrite length_grow_table by done. unfold slots. lia.
  - intros i c n. rewrite grown_buckets by done. cbn [len grown set_len].
    replace (2 * len map) with (2 ^ (k + 1))
      by (rewrite Hlen, Z.pow_add_r by lia; lia).
    rewrite land_mask_succ, <- Hlen by lia.
    intros Hi Hin.
    pose proof (lookup_lt_Some _ _ _ Hi) as Hlt.
    rewrite length_grow_table in Hlt by done.
    destruct (decide (i < slots map)%nat) as [Hlo|Hhi].
    + rewrite lookup_grow_table_lo in Hi by done.
      destruct (table map !! i) as [c0|] eqn:Hc0; simplify_eq/=.
      apply elem_of_split_lo in Hin as [Hin Hbit].
      rewrite Hbit, Z.add_0_r.
      apply (wf_slot _ Hwf i c0); [|done].
      unfold buckets. by rewrite lookup_take_lt.
    + replace i with (slots map + (i - slots map))%nat in Hi by lia.
      rewrite lookup_grow_table_hi in Hi by lia.
      destruct (table map !! (i - slots map)%nat) as [c0|] eqn:Hc0;
        simplify_eq/=.
      apply elem_of_split_hi in Hin as [Hin Hbit].
      rewrite (wf_slot _ Hwf (i - slots map)%nat c0 n)
        by (unfold buckets; rewrite ?lookup_take_lt by lia; done).
      rewrite Hlen in Hbit |- *. rewrite land_bit in Hbit |- * by lia.
      destruct (Z.testbit (node_hash n) k); [|done].
      rewrite <- Hlen. lia.
  - pose proof (grown_links map Hwf) as Hp.
    apply Permutation_length in Hp. rewrite Hp. cbn. apply (wf_count _ Hwf).
  - cbn. apply (wf_bound _ Hwf).
  - rewrite (addresses_perm _ _ (grown_links map Hwf)).
    apply (wf_distinct _ Hwf).
Qed.

Lemma grown_bucket map h :
  wf map → len map ≤ 2 ^ 59 →
  bucket (grown map) h =
    if decide (Z.land h (len map) = 0)
    then split_lo (len map) (bucket map h)
    else split_hi (len map) (bucket map h).
Proof.
  intros Hwf Hb. pose proof (grown_wf map Hwf Hb) as Hwf'.
  pose proof (wf_capacity _ Hwf) as Hcap.
  pose proof (wf_slots _ Hwf) as Hn.
  pose proof (slot_of_range map h Hwf) as Hs.
  pose proof (table_bucket map h Hwf) as Hbk.
  destruct (wf_pow2 _ Hwf) as (k & Hk & Hlen).
  assert (slot_of (grown map) h = slot_of map h + Z.land h (len map)) as Hs'.
  { rewrite !slot_of_wf by done. cbn.
    replace (2 * len map) with (2 ^ (k + 1))
      by (rewrite Hlen, Z.pow_add_r by lia; lia).
    rewrite land_mask_succ by lia. by rewrite Hlen. }
  unfold bucket at 1. unfold load. rewrite Hs'.
  change (table (grown map))
    with (grow_table (slots map) (len map) (table map)).
  case_decide as Hbit.
  - rewrite Hbit, Z.add_0_r.
    rewrite lookup_grow_table_lo by lia. by rewrite Hbk.
  - assert (Z.land h (len map) = len map) as ->.
    { rewrite Hlen in Hbit |- *. rewrite land_bit in Hbit |- * by lia.
      by destruct (Z.testbit h k). }
    replace (Z.to_nat (slot_of map h + len map))
      with (slots map + Z.to_nat (slot_of map h))%nat by lia.
    rewrite lookup_grow_table_hi by lia. by rewrite Hbk.
Qed.

End Grow.

(** ** hashmap_shrink *)

Section Shrink.

Context {K : Type}.
Implicit Types (map : hashmap K) (key : K) (t : list chain).

Lemma wf_half map :
  wf map → MIN_SLOTS < len map →
  ∃ k, 4 ≤ k ≤ 59 ∧ len map / 2 = 2 ^ k ∧ len map = 2 ^ (k + 1) ∧
       len map = 2 * (len map / 2) ∧
       (Z.to_nat (len map / 2) + Z.to_nat (len map / 2) = slots map)%nat.
Proof.
  intros Hwf Hlt. destruct (wf_pow2 _ Hwf) as (k & Hk & Hlen).
  assert (5 ≤ k) as Hk5.
  { destruct (decide (5 ≤ k)); [done|]. assert (k = 4) as -> by lia.
    rewrite Hlen in Hlt. by compute in Hlt. }
  exists (k - 1). replace (k - 1 + 1) with k by lia.
  assert (len map = 2 * 2 ^ (k - 1)) as Hl2.
  { rewrite Hlen. rewrite <- (Z.pow_succ_r 2 (k - 1)) by lia. f_equal. lia. }
  pose proof (pow2_pos (k - 1) ltac:(lia)).
  assert (len map / 2 = 2 ^ (k - 1)) as Hh.
  { rewrite Hl2. rewrite Z.mul_comm, Z.div_mul; lia. }
  repeat split; try done; try lia. unfold slots. lia.
Qed.

Lemma hashmap_shrink_spec ok map :
  wf map → MIN_SLOTS < len map →
  hashmap_shrink ok map = Some (shrunk ok map, if ok then 0 else -1).
Proof.
  intros Hwf Hlt. pose proof (wf_len_range _ Hwf) as Hr.
  pose proof (wf_capacity _ Hwf) as Hcap.
  destruct (wf_half map Hwf Hlt) as (k & Hk & Hh & Hlen & Hl2 & Hn).
  pose proof (pow2_pos k ltac:(lia)) as Hpos.
  unfold hashmap_shrink. cbn [len table set_len].
  rewrite (shrink_loop_table (Z.to_nat (len map / 2)) (len map / 2))
    by (consts; lia).
  cbn [mbind option_bind]. unfold realloc, shrunk.
  destruct ok; [|done].
  rewrite size_wrap_small by (consts; lia).
  rewrite Z.div_mul by done.
  rewrite resize_le by (rewrite length_app, length_fold_table; lia).
  rewrite take_app_length' by (rewrite length_fold_table; lia). done.
Qed.

Lemma shrunk_buckets ok map :
  wf map → MIN_SLOTS < len map →
  buckets (shrunk ok map) = fold_table (Z.to_nat (len map / 2)) (table map).
Proof.
  intros Hwf Hlt. pose proof (wf_capacity _ Hwf) as Hcap.
  destruct (wf_half map Hwf Hlt) as (k & Hk & Hh & Hlen & Hl2 & Hn).
  unfold buckets, shrunk, slots. cbn.
  destruct ok.
  - apply take_ge. rewrite length_fold_table; lia.
  - apply take_app_length'. rewrite length_fold_table; lia.
Qed.

Lemma shrunk_links ok map :
  wf map → MIN_SLOTS < len map → links (shrunk ok map) ≡ₚ links map.
Proof.
  intros Hwf Hlt. pose proof (wf_capacity _ Hwf) as Hcap.
  destruct (wf_half map Hwf Hlt) as (k & Hk & Hh & Hlen & Hl2 & Hn).
  unfold links. rewrite shrunk_buckets by done.
  unfold fold_table, buckets.
  rewrite concat_zip_app_perm
    by (rewrite !length_take, length_drop; lia).
  rewrite <- concat_app, take_take_drop. by rewrite Hn.
Qed.

(** A link of bucket [i] or of bucket [i + len / 2] belongs to bucket [i] once
    the top bit of the index is dropped. *)
Lemma land_mask_half h k i :
  0 ≤ k → 0 ≤ i < 2 ^ k →
  Z.land h (2 ^ (k + 1) - 1) = i ∨ Z.land h (2 ^ (k + 1) - 1) = i + 2 ^ k →
  Z.land h (2 ^ k - 1) = i.
Proof.
  intros Hk Hi. rewrite land_mask_succ by done.
  pose proof (land_mask_range h k Hk). rewrite land_bit by done.
  destruct (Z.testbit h k); lia.
Qed.

Lemma shrunk_wf ok map : wf map → MIN_SLOTS < len map → wf (shrunk ok map).
Proof.
  intros Hwf Hlt. pose proof (wf_capacity _ Hwf) as Hcap.
  destruct (wf_half map Hwf Hlt) as (k & Hk & Hh & Hlen & Hl2 & Hn).
  pose proof (pow2_pos k ltac:(lia)) as Hpos.
  split.
  - exists k. split; [lia|done].
  - unfold slots, shrunk. cbn.
    destruct ok; rewrite ?length_app, length_fold_table; lia.
  - intros i c n. rewrite shrunk_buckets by done.
    cbn [len shrunk set_table set_len].
    intros Hi Hin.
    pose proof (lookup_lt_Some _ _ _ Hi) as Hilt.
    rewrite length_fold_table in Hilt by lia.
    destruct (lookup_lt_is_Some_2 (table map) i ltac:(lia)) as [c1 Hc1].
    destruct (lookup_lt_is_Some_2 (table map) (Z.to_nat (len map / 2) + i)
                ltac:(lia)) as [c2 Hc2].
    rewrite (lookup_fold_table _ _ _ c1 c2) in Hi by done.
    simplify_eq. rewrite Hh. apply land_mask_half; [lia|lia|].
    rewrite <- Hlen.
    apply elem_of_app in Hin as [Hin|Hin].
    + left. apply (wf_slot _ Hwf i c1); [|done].
      unfold buckets. by rewrite lookup_take_lt by lia.
    + right.
      rewrite (wf_slot _ Hwf (Z.to_nat (len map / 2) + i)%nat c2 n);
        [lia| |done].
      unfold buckets. by rewrite lookup_take_lt by lia.
  - pose proof (shrunk_links ok map Hwf Hlt) as Hp.
    apply Permutation_length in Hp. rewrite Hp. cbn. apply (wf_count _ Hwf).
  - cbn. apply (wf_bound _ Hwf).
  - rewrite (addresses_perm _ _ (shrunk_links ok map Hwf Hlt)).
    apply (wf_distinct _ Hwf).
Qed.

(** The chain of a bucket after the fold: the chain of the old bucket with
    the same low bits, followed by the chain of its upper twin. *)
Lemma shrunk_bucket ok map h :
  wf map → MIN_SLOTS < len map →
  bucket (shrunk ok map) h =
    bucket map (slot_of (shrunk ok map) h) ++
    bucket map (slot_of (shrunk ok map) h + len map / 2).
Proof.
  intros Hwf Hlt. pose proof (wf_capacity _ Hwf) as Hcap.
  pose proof (shrunk_wf ok map Hwf Hlt) as Hwf'.
  pose proof (wf_len_range _ Hwf) as Hr.
  destruct (wf_half map Hwf Hlt) as (k & Hk & Hh & Hlen & Hl2 & Hn).
  pose proof (slot_of_range (shrunk ok map) h Hwf') as Hs.
  pose proof (buckets_bucket (shrunk ok map) h Hwf') as Hb.
  rewrite shrunk_buckets in Hb by done.
  cbn [len shrunk set_table set_len] in Hs.
  set (i := slot_of (shrunk ok map) h) in *.
  assert (∀ j, 0 ≤ j < len map →
               table map !! Z.to_nat j = Some (bucket map j)) as Hj.
  { intros j Hjr. rewrite <- (table_bucket map j Hwf).
    f_equal. rewrite slot_of_wf by done.
    destruct (wf_pow2 _ Hwf) as (k' & Hk' & Hlen').
    rewrite Hlen', land_mask by lia. rewrite Z.mod_small; lia. }
  rewrite (lookup_fold_table _ _ _ (bucket map i)
             (bucket map (i + len map / 2))) in Hb.
  - by simplify_eq.
  - lia.
  - apply Hj. lia.
  - rewrite <- Hj by lia. f_equal. lia.
Qed.

End Shrink.

(** ** Walking a chain: hashmap_get and hashmap_remove *)

Section Walk.

Context {K : Type}.
Implicit Types (c : hash_node → K → bool) (key : K) (ch : chain).

Lemma matching_cons c key n ch :
  matching c key (n :: ch) =
    if c n key then n :: matching c key ch else matching c key ch.
Proof.
  unfold matching. rewrite filter_cons.
  destruct (c n key); by rewrite ?decide_True, ?decide_False by done.
Qed.

Global Instance matching_Permutation c key :
  Proper ((≡ₚ) ==> (≡ₚ)) (matching c key).
Proof. intros ch1 ch2 Hp. unfold matching. by rewrite Hp. Qed.

Lemma matching_app c key ch1 ch2 :
  matching c key (ch1 ++ ch2) = matching c key ch1 ++ matching c key ch2.
Proof. apply filter_app. Qed.

Lemma matching_nil_iff c key ch :
  matching c key ch = [] ↔ ∀ n, n ∈ ch → c n key = false.
Proof.
  induction ch as [|n ch IH]; [by split; [intros ? ? ?%elem_of_nil|]|].
  rewrite matching_cons. split.
  - destruct (c n key) eqn:E; [done|]. intros Hm x [->|Hx]%elem_of_cons.
    + done.
    + by apply IH.
  - intros H. rewrite (H n) by (apply elem_of_cons; by left).
    apply IH. intros x Hx. apply H. apply elem_of_cons. by right.
Qed.

Lemma elem_of_matching c key ch n :
  n ∈ matching c key ch ↔ n ∈ ch ∧ c n key = true.
Proof. unfold matching. rewrite list_elem_of_filter. tauto. Qed.

(** [hashmap_get] returns the first link of the chain that matches. *)
Lemma chain_find_head c key ch :
  chain_find c key ch = head (matching c key ch).
Proof.
  induction ch as [|n ch IH]; [done|].
  cbn [chain_find]. rewrite matching_cons. by destruct (c n key).
Qed.

Lemma chain_unlink_None c key ch :
  matching c key ch = [] → chain_unlink c key ch = None.
Proof.
  induction ch as [|n ch IH]; [done|].
  cbn [chain_unlink]. rewrite matching_cons.
  destruct (c n key); [done|]. intros H. by rewrite IH.
Qed.

(** [hashmap_remove] unlinks the first link that matches and keeps the order
    of the others. *)
Lemma chain_unlink_Some c key ch x rest :
  matching c key ch = x :: rest →
  ∃ pre post,
    ch = pre ++ x :: post ∧ matching c key pre = [] ∧
    matching c key post = rest ∧ c x key = true ∧
    chain_unlink c key ch = Some (x, pre ++ post).
Proof.
  induction ch as [|n ch IH]; [done|].
  rewrite matching_cons. cbn [chain_unlink].
  destruct (c n key) eqn:E.
  - intros [= -> <-]. by exists [], ch.
  - intros (pre & post & -> & Hpre & Hpost & Hx & Hrun)%IH.
    exists (n :: pre), post. rewrite matching_cons, E, Hrun. done.
Qed.

Lemma chain_unlink_split c key pre x post :
  matching c key pre = [] → c x key = true →
  chain_unlink c key (pre ++ x :: post) = Some (x, pre ++ post).
Proof.
  intros Hpre Hx. induction pre as [|n pre IH]; cbn [app chain_unlink].
  - by rewrite Hx.
  - rewrite matching_cons in Hpre. destruct (c n key); [done|].
    by rewrite IH.
Qed.

End Walk.

Section Remove.

Context {K : Type}.
Implicit Types (map : hashmap K) (key : K) (t : list chain).

Lemma unlinked_links map h pre x post :
  wf map → bucket map h = pre ++ x :: post →
  links map ≡ₚ x :: links (unlinked map h (pre ++ post)).
Proof.
  intros Hwf Hb. unfold links, buckets, unlinked, slots. cbn.
  rewrite take_insert_lt by by apply slot_of_lt.
  destruct (concat_insert_perm _ _ _ (pre ++ post) (buckets_bucket map h Hwf))
    as (R & H1 & H2).
  unfold buckets, slots in H1, H2. rewrite H1, H2, Hb.
  rewrite <- !app_assoc, <- app_comm_cons. symmetry. apply Permutation_middle.
Qed.

Lemma unlinked_count map h pre x post :
  wf map → bucket map h = pre ++ x :: post →
  size_wrap (count map - 1) = count map - 1 ∧ 0 < count map.
Proof.
  intros Hwf Hb. pose proof (unlinked_links map h pre x post Hwf Hb) as Hp.
  apply Permutation_length in Hp. cbn in Hp.
  pose proof (wf_count _ Hwf). pose proof (wf_bound _ Hwf).
  split; [|lia]. apply size_wrap_small. consts. lia.
Qed.

Lemma unlinked_wf map h pre x post :
  wf map → bucket map h = pre ++ x :: post →
  wf (unlinked map h (pre ++ post)).
Proof.
  intros Hwf Hb.
  pose proof (slot_of_lt map h Hwf) as Hlt.
  pose proof (wf_capacity _ Hwf) as Hcap.
  split.
  - apply (wf_pow2 _ Hwf).
  - unfold slots. cbn. rewrite length_insert. apply (wf_capacity _ Hwf).
  - intros i c n. unfold buckets, slots. cbn.
    rewrite take_insert_lt by done.
    destruct (decide (i = Z.to_nat (slot_of map h))) as [->|Hi].
    + rewrite list_lookup_insert_eq
        by (rewrite length_take; unfold slots in *; lia).
      intros [= <-] Hn.
      apply (wf_slot _ Hwf _ (bucket map h)); [by apply buckets_bucket|].
      rewrite Hb. apply elem_of_app in Hn as [Hn|Hn]; apply elem_of_app;
        [by left|right; apply elem_of_cons; by right].
    + rewrite list_lookup_insert_ne by done. apply (wf_slot _ Hwf).
  - pose proof (unlinked_links map h pre x post Hwf Hb) as Hp.
    apply Permutation_length in Hp. cbn in Hp.
    cbn [count unlinked set_count]. rewrite (wf_count _ Hwf). lia.
  - pose proof (wf_bound _ Hwf). cbn. lia.
  - pose proof (wf_distinct _ Hwf) as Hnd.
    unfold addresses in Hnd.
    rewrite (unlinked_links map h pre x post Hwf Hb) in Hnd.
    by apply NoDup_cons in Hnd as [_ Hnd].
Qed.

Lemma unlinked_bucket map h rest h' :
  wf map →
  bucket (unlinked map h rest) h' =
    if decide (slot_of map h' = slot_of map h) then rest else bucket map h'.
Proof.
  intros Hwf. unfold bucket at 1. unfold load, unlinked. cbn.
  change (slot_of (set_count _ (set_table _ map)) h') with (slot_of map h').
  pose proof (slot_of_range map h' Hwf).
  pose proof (slot_of_range map h Hwf).
  pose proof (slot_of_lt map h Hwf).
  pose proof (wf_capacity _ Hwf).
  case_decide as Hs.
  - rewrite Hs. by rewrite list_lookup_insert_eq by lia.
  - by rewrite list_lookup_insert_ne by lia.
Qed.

Lemma shrink_due_spec map :
  shrink_due map = true ↔ count map < len map / 4 ∧ MIN_SLOTS < len map.
Proof. unfold shrink_due. rewrite andb_true_iff, Z.ltb_lt, Z.gtb_gt. lia. Qed.

Lemma hashmap_remove_absent ok map key ch :
  load (table map) (slot_of map (hash map key)) = Some ch →
  matching (cmp map) key ch = [] →
  hashmap_remove ok map key = Some (map, None).
Proof.
  intros Hl Hm. unfold hashmap_remove. rewrite Hl. cbn [mbind option_bind].
  by rewrite chain_unlink_None.
Qed.

Lemma hashmap_remove_at ok map key pre x post :
  wf map →
  bucket map (hash map key) = pre ++ x :: post →
  matching (cmp map) key pre = [] → cmp map x key = true →
  hashmap_remove ok map key =
    Some (removed ok map (hash map key) (pre ++ post), Some x).
Proof.
  intros Hwf Hb Hpre Hx.
  unfold hashmap_remove, load. rewrite table_bucket by done.
  cbn [mbind option_bind]. rewrite Hb, chain_unlink_split by done.
  pose proof (slot_of_lt map (hash map key) Hwf).
  pose proof (wf_capacity _ Hwf).
  unfold store. rewrite decide_True by lia. cbn [mbind option_bind].
  destruct (unlinked_count map _ _ _ _ Hwf Hb) as [-> _].
  fold (unlinked map (hash map key) (pre ++ post)). unfold removed.
  destruct (shrink_due _) eqn:Hdue; [|done].
  apply shrink_due_spec in Hdue as [_ Hlt].
  rewrite hashmap_shrink_spec; [done|by eapply unlinked_wf|done].
Qed.

Lemma hashmap_remove_present ok map key x rest :
  wf map →
  matching (cmp map) key (bucket map (hash map key)) = x :: rest →
  ∃ pre post,
    bucket map (hash map key) = pre ++ x :: post ∧
    matching (cmp map) key pre = [] ∧
    matching (cmp map) key post = rest ∧
    hashmap_remove ok map key =
      Some (removed ok map (hash map key) (pre ++ post), Some x).
Proof.
  intros Hwf Hm.
  destruct (chain_unlink_Some _ _ _ _ _ Hm)
    as (pre & post & Hb & Hpre & Hpost & Hx & _).
  exists pre, post. do 3 (split; [done|]). by apply hashmap_remove_at.
Qed.

Lemma removed_wf ok map h pre x post :
  wf map → bucket map h = pre ++ x :: post →
  wf (removed ok map h (pre ++ post)).
Proof.
  intros Hwf Hb. pose proof (unlinked_wf map h pre x post Hwf Hb) as Hwf1.
  unfold removed. destruct (shrink_due _) eqn:Hdue; [|done].
  apply shrink_due_spec in Hdue as [_ Hlt]. by apply shrunk_wf.
Qed.

Lemma removed_links ok map h pre x post :
  wf map → bucket map h = pre ++ x :: post →
  links map ≡ₚ x :: links (removed ok map h (pre ++ post)).
Proof.
  intros Hwf Hb. pose proof (unlinked_wf map h pre x post Hwf Hb) as Hwf1.
  rewrite (unlinked_links map h pre x post Hwf Hb).
  unfold removed. destruct (shrink_due _) eqn:Hdue; [|done].
  apply shrink_due_spec in Hdue as [_ Hlt]. by rewrite shrunk_links.
Qed.

Lemma removed_count ok map h rest :
  count (removed ok map h rest) = count map - 1.
Proof. unfold removed. by destruct (shrink_due _). Qed.

End Remove.

(** ** hashmap_insert and hashmap_remove as a whole *)

Ltac fields :=
  cbn [len count table hash cmp grown linked unlinked shrunk
       set_len set_count set_table set_hash] in *.

Section Operations.

Context {K : Type}.
Implicit Types (map : hashmap K) (key : K) (t : list chain).

Lemma grow_due_spec map :
  wf map → grow_due map = true ↔ len map * 3 < count map.
Proof.
  intros Hwf. pose proof (wf_len_range _ Hwf). unfold grow_due.
  rewrite size_wrap_small by (consts; lia). rewrite Z.gtb_gt. lia.
Qed.

Lemma grow_due_len map :
  wf map → grow_due map = true → len map ≤ 2 ^ 59.
Proof.
  intros Hwf Hdue. apply grow_due_spec in Hdue; [|done].
  pose proof (wf_bound _ Hwf). consts. lia.
Qed.

Lemma hashmap_insert_spec ok map node key :
  wf map → count map < MAX_LINKS → fresh map node = true →
  hashmap_insert ok map node key = Some (inserted ok map node key, 0).
Proof.
  intros Hwf Hc Hfresh. unfold hashmap_insert, inserted.
  rewrite insert_link_spec by done. cbn [mbind option_bind].
  pose proof (linked_wf map node key Hwf Hc Hfresh) as Hwf1.
  destruct (grow_due _) eqn:Hdue; [|done].
  destruct ok; [|done].
  by rewrite hashmap_grow_spec by eauto using grow_due_len.
Qed.

Lemma inserted_wf ok map node key :
  wf map → count map < MAX_LINKS → fresh map node = true →
  wf (inserted ok map node key).
Proof.
  intros Hwf Hc Hfresh.
  pose proof (linked_wf map node key Hwf Hc Hfresh) as Hwf1.
  unfold inserted. destruct (grow_due _) eqn:Hdue; [|done].
  destruct ok; [|done]. apply grown_wf; eauto using grow_due_len.
Qed.

Lemma inserted_links ok map node key :
  wf map → count map < MAX_LINKS → fresh map node = true →
  links (inserted ok map node key)
    ≡ₚ HashNode node (hash map key) :: links map.
Proof.
  intros Hwf Hc Hfresh.
  pose proof (linked_wf map node key Hwf Hc Hfresh) as Hwf1.
  rewrite <- linked_links by done.
  unfold inserted. destruct (grow_due _ && ok); [|done].
  by apply grown_links.
Qed.

Lemma inserted_fresh ok map node key node' :
  wf map → count map < MAX_LINKS → fresh map node = true →
  fresh map node' = true → node' ≠ node →
  fresh (inserted ok map node key) node' = true.
Proof.
  intros Hwf Hc Hfresh Hfresh' Hne. apply fresh_spec.
  rewrite (addresses_perm_cons _ _ _ (inserted_links ok map node key Hwf Hc
                                        Hfresh)).
  apply not_elem_of_cons. split; [done|by apply fresh_spec].
Qed.

Lemma inserted_count ok map node key :
  count (inserted ok map node key) = count map + 1.
Proof. unfold inserted. by destruct (grow_due _ && ok). Qed.

Lemma inserted_compact ok map node key :
  wf map → count map < MAX_LINKS → fresh map node = true →
  compact map → compact (inserted ok map node key).
Proof.
  intros Hwf Hc Hfresh Hcp.
  pose proof (linked_wf map node key Hwf Hc Hfresh) as Hwf1.
  pose proof (wf_len_range _ Hwf) as Hr.
  unfold inserted. destruct (grow_due _) eqn:Hdue; cbn [andb].
  - apply grow_due_spec in Hdue; [|done].
    destruct ok; unfold compact in *; fields; lia.
  - unfold compact in *. fields. lia.
Qed.

Lemma removed_compact ok map h pre x post :
  wf map → bucket map h = pre ++ x :: post →
  compact map → compact (removed ok map h (pre ++ post)).
Proof.
  intros Hwf Hb Hcp.
  pose proof (unlinked_wf map h pre x post Hwf Hb) as Hwf1.
  pose proof (wf_len_range _ Hwf) as Hr.
  unfold removed. destruct (shrink_due _) eqn:Hdue.
  - apply shrink_due_spec in Hdue as [_ Hlt].
    destruct (wf_half _ Hwf1 Hlt) as (k & Hk & Hh & Hlen & Hl2 & Hn).
    unfold compact in *. fields. consts. lia.
  - assert (¬ (count map - 1 < len map / 4 ∧ MIN_SLOTS < len map)) as Hnd.
    { intros Hd. apply (shrink_due_spec (unlinked map h (pre ++ post))) in Hd.
      congruence. }
    unfold compact in *. fields.
    destruct (decide (len map = MIN_SLOTS)); [by left|right].
    destruct (wf_pow2 _ Hwf) as (k & Hk & Hlen).
    assert (len map = 2 ^ (k - 2) * 4) as Hq.
    { change 4 with (2 ^ 2). rewrite <- Z.pow_add_r by lia.
      rewrite Hlen. f_equal. lia. }
    pose proof (Z.div_mul (2 ^ (k - 2)) 4 ltac:(lia)) as Hd4.
    rewrite <- Hq in Hd4. consts. lia.
Qed.

(** The load of the table exceeds three links per bucket only when a
    reallocation of [hashmap_grow] has failed. *)
Lemma inserted_load map node key :
  wf map → count map < MAX_LINKS → fresh map node = true →
  count map ≤ len map * 3 →
  count (inserted true map node key) ≤ len (inserted true map node key) * 3.
Proof.
  intros Hwf Hc Hfresh Hld.
  pose proof (linked_wf map node key Hwf Hc Hfresh) as Hwf1.
  pose proof (wf_len_range _ Hwf) as Hr.
  unfold inserted. destruct (grow_due _) eqn:Hdue; cbn [andb].
  - fields. lia.
  - assert (¬ len map * 3 < count map + 1) as Hnd.
    { intros Hd. apply (grow_due_spec (linked map node key)) in Hd; [|done].
      congruence. }
    fields. lia.
Qed.

Lemma removed_load ok map h pre x post :
  wf map → bucket map h = pre ++ x :: post →
  count map ≤ len map * 3 →
  count (removed ok map h (pre ++ post))
    ≤ len (removed ok map h (pre ++ post)) * 3.
Proof.
  intros Hwf Hb Hld.
  pose proof (unlinked_wf map h pre x post Hwf Hb) as Hwf1.
  unfold removed. destruct (shrink_due _) eqn:Hdue.
  - apply shrink_due_spec in Hdue as [Hc Hlt].
    destruct (wf_half _ Hwf1 Hlt) as (k & Hk & Hh & Hlen & Hl2 & Hn).
    pose proof (Z.mul_div_le (len map) 4 ltac:(lia)).
    fields. lia.
  - fields. lia.
Qed.

End Operations.

(** ** Lookups in a well-formed table *)

Section Lookup.

Context {K : Type}.
Implicit Types (map : hashmap K) (key : K) (ch : chain).
Implicit Types (c : hash_node → K → bool).

Lemma hashmap_get_spec map key :
  wf map →
  hashmap_get map key =
    Some (chain_find (cmp map) key (bucket map (hash map key))).
Proof.
  intros Hwf. unfold hashmap_get, load. by rewrite table_bucket by done.
Qed.

Lemma chain_find_unique c key ch x :
  x ∈ ch → c x key = true →
  (∀ y, y ∈ ch → c y key = true → y = x) →
  chain_find c key ch = Some x.
Proof.
  induction ch as [|n ch IH]; intros Hx Hc Hu; [by apply elem_of_nil in Hx|].
  cbn [chain_find]. destruct (c n key) eqn:E.
  - f_equal. apply Hu; [apply elem_of_cons; by left|done].
  - apply IH; [|done|].
    + apply elem_of_cons in Hx as [->|Hx]; [congruence|done].
    + intros y Hy. apply Hu. apply elem_of_cons. by right.
Qed.

(** The callbacks are never replaced. *)
Lemma inserted_callbacks ok map node key :
  hash (inserted ok map node key) = hash map ∧
  cmp (inserted ok map node key) = cmp map.
Proof. unfold inserted. by destruct (grow_due _ && ok). Qed.

Lemma removed_callbacks ok map h rest :
  hash (removed ok map h rest) = hash map ∧
  cmp (removed ok map h rest) = cmp map.
Proof. unfold removed. by destruct (shrink_due _). Qed.

Lemma matching_links map key :
  wf map → hash_consistent map key →
  matching (cmp map) key (links map) =
    matching (cmp map) key (bucket map (hash map key)).
Proof.
  intros Hwf Hcons. set (s := Z.to_nat (slot_of map (hash map key))).
  pose proof (buckets_bucket map (hash map key) Hwf) as Hb. fold s in Hb.
  pose proof (slot_of_range map (hash map key) Hwf) as Hr.
  assert (∀ (j : nat) bk n, buckets map !! j = Some bk → n ∈ bk →
                            j ≠ s → cmp map n key = false) as Hother.
  { intros j bk n Hj Hn Hjs. destruct (cmp map n key) eqn:E; [|done].
    pose proof (wf_slot _ Hwf j bk n Hj Hn) as Hslot.
    rewrite Hcons in Hslot; [|apply elem_of_links; eauto|done].
    rewrite <- slot_of_wf in Hslot by done. unfold s in Hjs. lia. }
  unfold links. rewrite <- (take_drop_middle _ _ _ Hb) at 1.
  rewrite concat_app, concat_cons, !matching_app.
  assert (matching (cmp map) key (concat (take s (buckets map))) = []) as ->.
  { apply matching_nil_iff. intros n (j & bk & Hj & Hn)%elem_of_concat_lookup.
    apply lookup_take_Some in Hj as [Hj Hlt].
    apply (Hother j bk n); [done..|lia]. }
  assert (matching (cmp map) key (concat (drop (S s) (buckets map))) = [])
    as ->.
  { apply matching_nil_iff. intros n (j & bk & Hj & Hn)%elem_of_concat_lookup.
    rewrite lookup_drop in Hj. apply (Hother _ bk n Hj Hn). lia. }
  by rewrite app_nil_r.
Qed.

End Lookup.

(** ** Sequences of operations *)

Section Runs.

Context {K : Type}.
Implicit Types (map : hashmap K) (key : K) (o : op K) (ops : list (op K)).
Implicit Types (h : K → Z) (c : hash_node → K → bool).

Lemma init_wf h c : wf (hashmap_init true h c).
Proof.
  split.
  - exists 4. split; [lia|done].
  - by compute.
  - intros i ch n Hi Hn. unfold buckets, slots in Hi. cbn in Hi.
    rewrite lookup_take_Some in Hi. destruct Hi as [Hi _].
    apply lookup_replicate in Hi as [-> _]. by apply elem_of_nil in Hn.
  - reflexivity.
  - by compute.
  - apply NoDup_nil_2.
Qed.

Lemma init_links ok h c : links (hashmap_init ok h c) = [].
Proof. by destruct ok. Qed.

Lemma init_compact ok h c : compact (hashmap_init ok h c).
Proof. by left. Qed.

(** On a [NULL] table every operation dereferences a null pointer. *)
Lemma step_null h c o : step (hashmap_init false h c) o = None.
Proof. by destruct o. Qed.

Lemma step_wf map o :
  wf map → count map < MAX_LINKS → allowed map o = true →
  ∃ map', step map o = Some map' ∧ wf map' ∧
          hash map' = hash map ∧ cmp map' = cmp map ∧
          count map' ≤ count map + 1 ∧
          (compact map → compact map') ∧
          (count map ≤ len map * 3 →
           count map' ≤ len map' * 3 ∨ grow_fails map o = true).
Proof.
  intros Hwf Hc Hal.
  destruct o as [node key ok|key ok]; cbn [step grow_fails allowed] in *.
  - rewrite hashmap_insert_spec by done.
    exists (inserted ok map node key). split; [done|].
    split; [by apply inserted_wf|].
    split; [apply inserted_callbacks|]. split; [apply inserted_callbacks|].
    split; [rewrite inserted_count; lia|].
    split; [by apply inserted_compact|].
    intros Hld. rewrite insert_link_spec by done.
    destruct ok; [left; by apply inserted_load|].
    rewrite hashmap_grow_fail. unfold inserted.
    destruct (grow_due _) eqn:Hdue; [by right|left].
    apply not_true_iff_false in Hdue.
    rewrite grow_due_spec in Hdue by by apply linked_wf.
    cbn [andb]. fields. lia.
  - destruct (matching (cmp map) key (bucket map (hash map key)))
      as [|x rest] eqn:Hm.
    + rewrite (hashmap_remove_absent ok map key (bucket map (hash map key)))
        by (unfold load; rewrite ?table_bucket; done).
      exists map. split; [done|]. split; [done|].
      split; [done|]. split; [done|]. split; [lia|].
      split; [done|]. intros Hld. by left.
    + destruct (hashmap_remove_present ok map key x rest Hwf Hm)
        as (pre & post & Hb & _ & _ & ->).
      exists (removed ok map (hash map key) (pre ++ post)).
      split; [done|]. split; [by eapply removed_wf|].
      split; [apply removed_callbacks|]. split; [apply removed_callbacks|].
      split; [rewrite removed_count; lia|].
      split; [by eapply removed_compact|].
      intros Hld. left. by eapply removed_load.
Qed.

Lemma run_wf map ops :
  wf map → count map + Z.of_nat (length ops) ≤ MAX_LINKS →
  respects map ops = true →
  ∃ map', run map ops = Some map' ∧ wf map' ∧
          hash map' = hash map ∧ cmp map' = cmp map ∧
          count map' ≤ count map + Z.of_nat (length ops) ∧
          (compact map → compact map') ∧
          (count map ≤ len map * 3 →
           count map' ≤ len map' * 3 ∨ grow_failed map ops = true).
Proof.
  revert map. induction ops as [|o ops IH]; intros map Hwf Hc Hres.
  - exists map. cbn [run length grow_failed].
    split; [done|]. split; [done|]. split; [done|]. split; [done|].
    split; [lia|]. split; [done|]. intros Hld. by left.
  - cbn [length] in Hc. cbn [run grow_failed].
    cbn [respects] in Hres. apply andb_true_iff in Hres as [Hal Hres].
    destruct (step_wf map o Hwf ltac:(lia) Hal)
      as (map1 & Hstep & Hwf1 & Hh1 & Hcmp1 & Hc1 & Hcp1 & Hld1).
    rewrite Hstep in Hres |- *. cbn [mbind option_bind].
    destruct (IH map1 Hwf1 ltac:(lia) Hres)
      as (map' & Hrun & Hwf' & Hh' & Hcmp' & Hc' & Hcp' & Hld').
    exists map'. split; [done|]. split; [done|].
    split; [congruence|]. split; [congruence|].
    split; [cbn [length]; lia|]. split; [tauto|].
    intros Hld. destruct (Hld1 Hld) as [H1| ->]; [|by right].
    destruct (Hld' H1) as [?| ->]; [by left|right].
    apply orb_true_r.
Qed.

End Runs.

(** Closed goals are decided by evaluation. *)
Ltac vm_decide :=
  vm_compute;
  repeat match goal with |- _ ∧ _ => split end;
  first [reflexivity | discriminate | exact I].

Lemma table_of_wf ops :
  Z.of_nat (length ops) ≤ MAX_LINKS →
  respects Harness.init ops = true →
  wf (Harness.table_of ops) ∧ compact (Harness.table_of ops).
Proof.
  intros Hlen Hres.
  destruct (run_wf Harness.init ops (init_wf _ _) Hlen Hres)
    as (map & Hrun & Hwf & _ & _ & _ & Hcp & _).
  unfold Harness.table_of. rewrite Hrun. split; [done|].
  apply Hcp, init_compact.
Qed.

Example main_inserts :
  len (Harness.table_of (Harness.insert_keys 0 48)) = 16 ∧
  len (Harness.table_of (Harness.insert_keys 0 49)) = 32 ∧
  len (Harness.table_of (Harness.insert_keys 0 97)) = 64 ∧
  hashmap_get (Harness.table_of (Harness.insert_keys 0 97)) 5
    = Some (Some (HashNode 20 5)).
Proof. vm_decide. Qed.

(** ** Removal of an absent key *)

(** C10: when no link of the bucket chain of [key] matches, [hashmap_remove]
    returns the absent result and the table is unchanged (count, len, bucket
    array and chains), whatever the load of the table: no shrink happens. *)
Theorem remove_absent_unchanged {K : Type} (ok : bool) (map : hashmap K)
    (key : K) (ch : chain) :
  load (table map) (slot_of map (hash map key)) = Some ch →
  (∀ n, n ∈ ch → cmp map n key = false) →
  hashmap_remove ok map key = Some (map, None).
Proof.
  intros Hl Hno. apply (hashmap_remove_absent ok map key ch Hl).
  by apply matching_nil_iff.
Qed.

Lemma remove_absent_unchanged_witness :
  shrink_due sparse_table = true ∧
  hashmap_remove true sparse_table 35 = Some (sparse_table, None).
Proof.
  split; [reflexivity|].
  apply (remove_absent_unchanged true sparse_table 35 [HashNode 12 3]).
  - reflexivity.
  - intros n Hn. apply list_elem_of_singleton in Hn as ->. reflexivity.
Defined.

(** ** A grow whose reallocation fails *)

(** C7: when a fresh node is inserted and the reallocation of the triggered
    [hashmap_grow] fails, the grow returns [-1] and leaves the table as it was
    on entry; the insertion has linked the node in front of its bucket and
    counted it, [len] and the other chains are those of before the insertion,
    and the table keeps working at that capacity: the new link is found, the
    other lookups answer as before and every further operation that respects
    the contract is defined. *)
Theorem grow_failure_skipped {K : Type} (map : hashmap K) (node : Z)
    (key : K) :
  wf map → count map < MAX_LINKS → fresh map node = true →
  len map * 3 < count map + 1 →
  let n := HashNode node (hash map key) in
  insert_link map node key = Some (linked map node key) ∧
  grow_due (linked map node key) = true ∧
  hashmap_grow false (linked map node key)
    = Some (linked map node key, -1) ∧
  ∃ map',
    hashmap_insert false map node key = Some (map', 0) ∧
    len map' = len map ∧
    count map' = count map + 1 ∧
    table map' =
      <[Z.to_nat (slot_of map (hash map key)) :=
          n :: bucket map (hash map key)]> (table map) ∧
    n ∈ links map' ∧
    wf map' ∧
    (cmp map n key = true → hashmap_get map' key = Some (Some n)) ∧
    (∀ key', cmp map n key' = false →
             hashmap_get map' key' = hashmap_get map key') ∧
    (∀ o, count map' < MAX_LINKS → allowed map' o = true →
          ∃ map'', step map' o = Some map'' ∧ wf map'').
Proof.
  intros Hwf Hc Hfresh Hdue n.
  pose proof (linked_wf map node key Hwf Hc Hfresh) as Hwf1.
  assert (grow_due (linked map node key) = true) as Hg.
  { by apply grow_due_spec. }
  split; [by apply insert_link_spec|].
  split; [done|]. split; [reflexivity|].
  exists (linked map node key).
  split.
  { unfold hashmap_insert. rewrite insert_link_spec by done.
    cbn [mbind option_bind]. by rewrite Hg. }
  do 3 (split; [done|]).
  split.
  { rewrite linked_links by done. apply elem_of_cons. by left. }
  split; [done|].
  split; [|split].
  - intros Hm. rewrite hashmap_get_spec by done.
    change (hash (linked map node key)) with (hash map).
    change (cmp (linked map node key)) with (cmp map).
    rewrite linked_bucket, decide_True by done.
    cbn [chain_find]. fold n. by rewrite Hm.
  - intros key' Hm. rewrite !hashmap_get_spec by done.
    change (hash (linked map node key)) with (hash map).
    change (cmp (linked map node key)) with (cmp map).
    rewrite linked_bucket by done. case_decide; [|done].
    cbn [chain_find]. fold n. by rewrite Hm.
  - intros o Hc' Hal.
    destruct (step_wf _ o Hwf1 Hc' Hal) as (map'' & ? & ? & _).
    by exists map''.
Qed.

Lemma grow_failure_skipped_witness :
  let map := Harness.table_of (Harness.insert_keys 0 48) in
  ∃ map',
    hashmap_insert false map 400 100 = Some (map', 0) ∧
    len map' = 16 ∧ count map' = 49 ∧
    hashmap_get map' 100 = Some (Some (HashNode 400 100)).
Proof.
  intros map.
  destruct (grow_failure_skipped map 400 100)
    as (_ & _ & _ & map' & Hins & Hlen & Hcount & _ & _ & _ & Hget & _).
  - apply table_of_wf; vm_decide.
  - vm_decide.
  - vm_decide.
  - vm_decide.
  - exists map'. split; [done|]. split; [by rewrite Hlen|].
    split; [by rewrite Hcount|]. by apply Hget.
Defined.

(** ** What the caller learns of an allocation failure *)

Lemma hashmap_remove_result {K : Type} (ok : bool) (map : hashmap K)
    (key : K) :
  wf map →
  snd <$> hashmap_remove ok map key =
    Some (head (matching (cmp map) key (bucket map (hash map key)))).
Proof.
  intros Hwf.
  destruct (matching (cmp map) key (bucket map (hash map key)))
    as [|x rest] eqn:Hm.
  - rewrite (hashmap_remove_absent ok map key (bucket map (hash map key)));
      [done| |done].
    unfold load. by apply table_bucket.
  - destruct (hashmap_remove_present ok map key x rest Hwf Hm)
      as (pre & post & _ & _ & _ & ->). done.
Qed.

(** The claim C6 does not hold: [hashmap_insert] answers [0] when the
    reallocation of the [hashmap_grow] that it triggers fails, as it does when
    the reallocation succeeds. *)
Lemma alloc_failure_reported_counterexample :
  let map := Harness.table_of (Harness.insert_keys 0 48) in
  grow_fails map (Insert 400 100 false) = true ∧
  snd <$> hashmap_insert false map 400 100 = Some 0 ∧
  snd <$> hashmap_insert true map 400 100 = Some 0.
Proof. vm_decide. Qed.

(** C6 (amended): allocation failures are not reported to the caller.
    [hashmap_init] returns no status: when [calloc] fails it leaves
    [len = MIN_SLOTS], [count = 0] and a [NULL] table, on which every
    operation is undefined.  [hashmap_grow] and [hashmap_shrink] return [-1]
    when their reallocation fails, but [hashmap_insert] discards it and
    returns [0], and [hashmap_remove] returns the same link (or absence)
    whether the reallocation succeeds or not. *)
Theorem alloc_failure_not_reported {K : Type} (map : hashmap K) (node : Z)
    (key : K) (h : K → Z) (c : hash_node → K → bool) :
  wf map → count map < MAX_LINKS → fresh map node = true →
  (len (hashmap_init false h c) = MIN_SLOTS ∧
   count (hashmap_init false h c) = 0 ∧
   table (hashmap_init false h c) = [] ∧
   hashmap_get (hashmap_init false h c) key = None ∧
   ∀ o, step (hashmap_init false h c) o = None) ∧
  (hashmap_grow false (linked map node key)
     = Some (linked map node key, -1) ∧
   snd <$> hashmap_insert false map node key = Some 0 ∧
   snd <$> hashmap_insert true map node key = Some 0) ∧
  (∀ map' : hashmap K, wf map' → MIN_SLOTS < len map' →
     snd <$> hashmap_shrink false map' = Some (-1)) ∧
  snd <$> hashmap_remove false map key = snd <$> hashmap_remove true map key.
Proof.
  intros Hwf Hc Hfresh. split; [|split; [|split]].
  - repeat split. apply step_null.
  - split; [reflexivity|]. by rewrite !hashmap_insert_spec.
  - intros map' Hwf' Hlt. by rewrite hashmap_shrink_spec.
  - by rewrite !hashmap_remove_result.
Qed.

Lemma alloc_failure_not_reported_witness :
  let map := Harness.table_of (Harness.insert_keys 0 48) in
  snd <$> hashmap_insert false map 400 100 = Some 0 ∧
  snd <$> hashmap_remove false map 7 = snd <$> hashmap_remove true map 7.
Proof.
  intros map.
  destruct (alloc_failure_not_reported map 400 7
              Harness.hash_test Harness.cmp_test) as (_ & _ & _ & Hrem).
  - apply table_of_wf; vm_decide.
  - vm_decide.
  - vm_decide.
  - split; [|done].
    destruct (alloc_failure_not_reported map 400 100
                Harness.hash_test Harness.cmp_test) as (_ & Hins & _).
    + apply table_of_wf; vm_decide.
    + vm_decide.
    + vm_decide.
    + apply Hins.
Defined.

(** ** Growing on insertion *)

Lemma hashmap_grow_set_hash {K : Type} (ok : bool) (map : hashmap K)
    (h : K → Z) :
  hashmap_grow ok (set_hash h map) =
    (λ r, (set_hash h r.1, r.2)) <$> hashmap_grow ok map.
Proof.
  unfold hashmap_grow. cbn [table len set_hash].
  destruct (realloc ok _ _) as [t|]; [|done].
  by destruct (grow_loop _ _ _ _).
Qed.

(** C3: [hashmap_insert] of a fresh node calls [hashmap_grow] exactly when
    [count > len * 3] holds after the increment.  When its reallocation
    succeeds, [hashmap_grow] doubles [len] and splits the chain of every
    bucket [i] of the lower half: the links whose cached hash has bit
    [len_old] clear form bucket [i], those with the bit set form bucket
    [i + len_old]; the result does not depend on the hash function. *)
Theorem insert_grow_split {K : Type} (ok : bool) (map : hashmap K)
    (node : Z) (key : K) :
  wf map → count map < MAX_LINKS → fresh map node = true →
  let map1 := linked map node key in
  let l := len map in
  insert_link map node key = Some map1 ∧
  count map1 = count map + 1 ∧
  (grow_due map1 = true ↔ count map1 > l * 3) ∧
  hashmap_insert ok map node key =
    (if grow_due map1 then r ← hashmap_grow ok map1; Some (r.1, 0)
     else Some (map1, 0)) ∧
  (grow_due map1 = true →
   ∃ map2,
     hashmap_grow true map1 = Some (map2, 0) ∧
     len map2 = l * 2 ∧
     (∀ i, 0 ≤ i < l →
        ∃ c, load (table map1) i = Some c ∧
             load (table map2) i = Some (split_lo l c) ∧
             load (table map2) (i + l) = Some (split_hi l c)) ∧
     (∀ c x, x ∈ c →
        (Z.land (node_hash x) l = 0 →
         x ∈ split_lo l c ∧ x ∉ split_hi l c) ∧
        (Z.land (node_hash x) l ≠ 0 →
         x ∈ split_hi l c ∧ x ∉ split_lo l c)) ∧
     (∀ h', hashmap_grow true (set_hash h' map1)
              = Some (set_hash h' map2, 0))).
Proof.
  intros Hwf Hc Hfresh map1 l.
  pose proof (linked_wf map node key Hwf Hc Hfresh) as Hwf1.
  fold map1 in Hwf1.
  split; [by apply insert_link_spec|]. split; [done|].
  split; [rewrite grow_due_spec by done; subst map1; fields; lia|].
  split.
  { unfold hashmap_insert. by rewrite insert_link_spec. }
  intros Hdue. pose proof (grow_due_len _ Hwf1 Hdue) as Hb.
  pose proof (hashmap_grow_spec map1 Hwf1 Hb) as Hgrow.
  exists (grown map1). split; [done|].
  split; [subst map1 l; fields; lia|].
  pose proof (wf_capacity _ Hwf1) as Hcap.
  pose proof (wf_slots _ Hwf1) as Hn.
  change (len map1) with l in Hn.
  split; [|split].
  - intros i Hi. unfold load.
    destruct (lookup_lt_is_Some_2 (table map1) (Z.to_nat i) ltac:(lia))
      as [c Hl].
    exists c. split; [done|].
    change (table (grown map1))
      with (grow_table (slots map1) (len map1) (table map1)).
    change (len map1) with l. split.
    + rewrite lookup_grow_table_lo by lia. by rewrite Hl.
    + replace (Z.to_nat (i + l)) with (slots map1 + Z.to_nat i)%nat by lia.
      rewrite lookup_grow_table_hi by lia. by rewrite Hl.
  - intros c x Hx. rewrite elem_of_split_lo, elem_of_split_hi. tauto.
  - intros h'. by rewrite hashmap_grow_set_hash, Hgrow.
Qed.

Lemma insert_grow_split_witness :
  let map := Harness.table_of (Harness.insert_keys 0 48) in
  ∃ map2,
    hashmap_insert true map 400 100 = Some (map2, 0) ∧ len map2 = 32 ∧
    load (table map2) 4
      = Some [HashNode 16 4; HashNode 144 36; HashNode 400 100] ∧
    load (table map2) (4 + 16) = Some [HashNode 80 20].
Proof.
  intros map.
  destruct (insert_grow_split true map 400 100)
    as (_ & _ & Hdue & Hins & Hgrow).
  - apply table_of_wf; vm_decide.
  - vm_decide.
  - vm_decide.
  - destruct Hgrow as (map2 & Hg & Hlen & Hsplit & _).
    { apply Hdue. vm_decide. }
    exists map2. split.
    { rewrite Hins. replace (grow_due _) with true by vm_decide.
      by rewrite Hg. }
    split; [rewrite Hlen; vm_decide|].
    destruct (Hsplit 4) as (c & Hc & Hlo & Hhi); [vm_decide|].
    vm_compute in Hc. injection Hc as <-.
    rewrite Hlo. replace (4 + 16) with (4 + len map) by vm_decide.
    rewrite Hhi. split; f_equal; vm_decide.
Defined.

(** ** Shrinking on removal *)

(** C4: [hashmap_remove] calls [hashmap_shrink] exactly when
    [count < len / 4] and [len > MIN_SLOTS] hold after the decrement.
    [hashmap_shrink] halves [len] and makes every bucket [i] of the halved
    range the chain of the old bucket [i] followed by the chain of the old
    bucket [i + len]; [len] stays at or above [MIN_SLOTS]. *)
Theorem remove_shrink_fold {K : Type} (ok : bool) (map : hashmap K)
    (key : K) (pre : chain) (x : hash_node) (post : chain) :
  wf map →
  bucket map (hash map key) = pre ++ x :: post →
  (∀ n, n ∈ pre → cmp map n key = false) →
  cmp map x key = true →
  let map1 := unlinked map (hash map key) (pre ++ post) in
  let l := len map in
  count map1 = count map - 1 ∧
  (shrink_due map1 = true ↔ count map1 < l / 4 ∧ l > MIN_SLOTS) ∧
  hashmap_remove ok map key =
    (if shrink_due map1 then r ← hashmap_shrink ok map1; Some (r.1, Some x)
     else Some (map1, Some x)) ∧
  (shrink_due map1 = true →
   ∃ map2 r,
     hashmap_shrink ok map1 = Some (map2, r) ∧
     len map2 = l / 2 ∧
     ∀ i, 0 ≤ i < l / 2 →
       ∃ c1 c2,
         load (table map1) i = Some c1 ∧
         load (table map1) (i + l / 2) = Some c2 ∧
         load (table map2) i = Some (c1 ++ c2)) ∧
  ∃ map', hashmap_remove ok map key = Some (map', Some x) ∧
          MIN_SLOTS ≤ len map'.
Proof.
  intros Hwf Hb Hpre%matching_nil_iff Hx map1 l.
  pose proof (unlinked_wf map _ pre x post Hwf Hb) as Hwf1. fold map1 in Hwf1.
  pose proof (hashmap_remove_at ok map key pre x post Hwf Hb Hpre Hx) as Hrem.
  unfold removed in Hrem. fold map1 in Hrem.
  split; [done|]. split; [rewrite shrink_due_spec; subst map1 l; fields; lia|].
  split.
  { rewrite Hrem. destruct (shrink_due map1) eqn:Hdue; [|done].
    apply shrink_due_spec in Hdue as [_ Hlt].
    by rewrite hashmap_shrink_spec. }
  split.
  - intros [_ Hlt]%shrink_due_spec.
    exists (shrunk ok map1), (if ok then 0 else -1).
    split; [by apply hashmap_shrink_spec|]. split; [done|].
    destruct (wf_half map1 Hwf1 Hlt) as (k & Hk & Hh & Hlen & Hl2 & Hn).
    pose proof (wf_capacity _ Hwf1) as Hcap.
    change (len map1) with l in *.
    intros i Hi. unfold load.
    replace (Z.to_nat (i + l / 2))
      with (Z.to_nat (l / 2) + Z.to_nat i)%nat by lia.
    destruct (lookup_lt_is_Some_2 (table map1) (Z.to_nat i) ltac:(lia))
      as [c1 H1].
    destruct (lookup_lt_is_Some_2 (table map1)
                (Z.to_nat (l / 2) + Z.to_nat i) ltac:(lia)) as [c2 H2].
    exists c1, c2. split; [done|]. split; [done|].
    pose proof (lookup_fold_table (Z.to_nat (l / 2)) (table map1)
                  (Z.to_nat i) c1 c2 ltac:(lia) H1 H2) as Hf.
    unfold shrunk. cbn [table set_table]. change (len map1) with l.
    destruct ok; [done|].
    rewrite lookup_app_l; [done|]. rewrite length_fold_table; lia.
  - eexists. split; [exact Hrem|].
    pose proof (removed_wf ok map _ pre x post Hwf Hb) as Hwf'.
    unfold removed in Hwf'. fold map1 in Hwf'.
    pose proof (wf_len_range _ Hwf'). consts. lia.
Qed.

Lemma remove_shrink_fold_witness :
  let map := Harness.table_of
               (Harness.insert_keys 0 49 ++ Harness.remove_keys 7 41) in
  ∃ map',
    hashmap_remove true map 48 = Some (map', Some (HashNode 192 48)) ∧
    len map = 32 ∧ len map' = 16 ∧
    load (table map') 0 = Some [HashNode 0 0].
Proof.
  intros map.
  destruct (remove_shrink_fold true map 48 [] (HashNode 192 48) [])
    as (_ & Hdue & Hrem & Hshrink & _).
  - apply table_of_wf; vm_decide.
  - vm_decide.
  - intros n Hn. by apply elem_of_nil in Hn.
  - vm_decide.
  - destruct Hshrink as (map2 & r & Hs & Hlen & Hfold).
    { apply Hdue. vm_decide. }
    exists map2. split.
    { rewrite Hrem. replace (shrink_due _) with true by vm_decide.
      by rewrite Hs. }
    split; [vm_decide|]. split; [rewrite Hlen; vm_decide|].
    destruct (Hfold 0) as (c1 & c2 & H1 & H2 & Hf); [vm_decide|].
    vm_compute in H1, H2. injection H1 as <-. injection H2 as <-.
    exact Hf.
Defined.

(** ** The count and the links *)

(** C8: after every sequence of operations that respects the contract of
    [hashmap_insert], [count] is the number of links in the chains of the
    table.  From such a table, [hashmap_insert] of a fresh node adds one
    link and increments [count], and a [hashmap_remove] that finds its
    key unlinks one link and decrements [count], whether they resize the
    array or not; [hashmap_grow] and [hashmap_shrink] keep [count] and the
    links of a well-formed table, up to their order and their bucket. *)
Theorem count_is_number_of_links {K : Type} (h : K → Z)
    (c : hash_node → K → bool) (ops : list (op K)) :
  Z.of_nat (length ops) < MAX_LINKS →
  respects (hashmap_init true h c) ops = true →
  ∃ map,
    run (hashmap_init true h c) ops = Some map ∧
    count map = Z.of_nat (length (links map)) ∧
    (∀ ok node key,
       fresh map node = true →
       ∃ map',
         hashmap_insert ok map node key = Some (map', 0) ∧
         links map' ≡ₚ HashNode node (h key) :: links map ∧
         count map' = count map + 1) ∧
    (∀ ok key pre x post,
       bucket map (h key) = pre ++ x :: post →
       (∀ n, n ∈ pre → c n key = false) → c x key = true →
       ∃ map',
         hashmap_remove ok map key = Some (map', Some x) ∧
         links map ≡ₚ x :: links map' ∧
         count map' = count map - 1) ∧
    (∀ ok (m : hashmap K),
       wf m → grow_due m = true →
       ∃ m' r,
         hashmap_grow ok m = Some (m', r) ∧
         links m' ≡ₚ links m ∧ count m' = count m) ∧
    (∀ ok (m : hashmap K),
       wf m → shrink_due m = true →
       ∃ m' r,
         hashmap_shrink ok m = Some (m', r) ∧
         links m' ≡ₚ links m ∧ count m' = count m).
Proof.
  intros Hlen Hres.
  destruct (run_wf (hashmap_init true h c) ops (init_wf h c))
    as (map & Hrun & Hwf & Hh & Hc & Hcount & _);
    [cbn [count hashmap_init]; lia|done|].
  cbn [hash cmp count hashmap_init] in Hh, Hc, Hcount.
  assert (count map < MAX_LINKS) as Hlt by lia.
  exists map. split; [done|]. split; [apply (wf_count _ Hwf)|].
  split; [|split; [|split]].
  - intros ok node key Hfresh. exists (inserted ok map node key).
    split; [by apply hashmap_insert_spec|].
    split; [|apply inserted_count].
    rewrite <- Hh. by apply inserted_links.
  - intros ok key pre x post Hb Hpre%matching_nil_iff Hx.
    rewrite <- Hh in Hb. rewrite <- Hc in Hpre, Hx.
    exists (removed ok map (hash map key) (pre ++ post)).
    split; [by apply hashmap_remove_at|].
    split; [by apply removed_links|apply removed_count].
  - intros ok m Hwfm Hdue. destruct ok.
    + exists (grown m), 0.
      split; [apply hashmap_grow_spec; eauto using grow_due_len|].
      split; [by apply grown_links|done].
    + by exists m, (-1).
  - intros ok m Hwfm [_ Hdue]%shrink_due_spec.
    exists (shrunk ok m), (if ok then 0 else -1).
    split; [by apply hashmap_shrink_spec|].
    split; [by apply shrunk_links|done].
Qed.

Lemma count_is_number_of_links_witness :
  ∃ map,
    run Harness.init (Harness.insert_keys 0 49 ++ Harness.remove_keys 3 5)
      = Some map ∧
    count map = 44 ∧ length (links map) = 44%nat ∧ len map = 32.
Proof.
  destruct (count_is_number_of_links Harness.hash_test Harness.cmp_test
              (Harness.insert_keys 0 49 ++ Harness.remove_keys 3 5))
    as (map & Hrun & Hcount & _); [vm_decide..|].
  exists map. split; [done|].
  assert (map = Harness.table_of
                  (Harness.insert_keys 0 49 ++ Harness.remove_keys 3 5))
    as Hmap.
  { unfold Harness.table_of, Harness.init. by rewrite Hrun. }
  assert (count map = 44) as H44 by (rewrite Hmap; vm_decide).
  split; [done|]. split; [lia|]. rewrite Hmap. vm_decide.
Defined.

(** ** The capacity *)

Section Load.

Context {K : Type}.
Implicit Types (map : hashmap K) (key : K) (o : op K) (ops : list (op K)).

(** [hashmap_grow] returns [-1] exactly when its reallocation is attempted
    and fails. *)
Lemma grow_fails_realloc map o :
  wf map → count map < MAX_LINKS → allowed map o = true →
  grow_fails map o = realloc_fails map o.
Proof.
  intros Hwf Hc Hal. destruct o as [node key ok|key ok]; [|done].
  cbn [grow_fails realloc_fails allowed] in *.
  rewrite insert_link_spec by done.
  pose proof (linked_wf map node key Hwf Hc Hal) as Hwf1.
  pose proof (grow_due_spec _ Hwf1) as Hdue.
  cbn [len count linked set_count set_table] in Hdue.
  destruct (grow_due (linked map node key)) eqn:Hg.
  - rewrite (proj2 (Z.ltb_lt _ _)) by by apply Hdue.
    destruct ok; [|by rewrite hashmap_grow_fail].
    by rewrite hashmap_grow_spec by eauto using grow_due_len.
  - rewrite (proj2 (Z.ltb_ge _ _)); [by rewrite andb_false_r|].
    apply Z.nlt_ge. intros Hlt%Hdue. done.
Qed.



End Load.



(** When every reallocation succeeds the load is within the bound: the main
    loop of the test program never leaves more than [len * 3] links. *)
Example loaded_within_bound :
  let ops := Harness.insert_keys 0 100 in
  let map := Harness.table_of ops in
  realloc_failed Harness.init ops = false ∧
  (len map, count map) = (64, 100).
Proof. vm_decide. Qed.

(** The load stays above the bound as long as the failed reallocations are
    not made up for: after 48 insertions, 49 insertions whose reallocation
    fails and one whose reallocation succeeds, there are 98 links in 32
    buckets. *)
Example failed_grows_linger :
  let before :=
    Harness.insert_keys 0 48 ++ Harness.starved_insert_keys 48 49 in
  let map := Harness.table_of before in
  let map' := Harness.table_of (before ++ [Insert 388 97 true]) in
  (len map, count map) = (16, 97) ∧
  realloc_failed Harness.init before = true ∧
  realloc_fails map (Insert 388 97 true) = false ∧
  (len map', count map') = (32, 98).
Proof. vm_decide. Qed.

(** ** Insertions with distinct keys *)

Section Distinct.

Context {K : Type}.
Implicit Types (map : hashmap K) (ins : list (Z * K * bool)).

Lemma run_inserts map ins :
  wf map → count map + Z.of_nat (length ins) ≤ MAX_LINKS →
  NoDup ((λ a, a.1.1) <$> ins) →
  (∀ a, a ∈ ins → fresh map a.1.1 = true) →
  ∃ map',
    run map (insert_op <$> ins) = Some map' ∧ wf map' ∧
    hash map' = hash map ∧ cmp map' = cmp map ∧
    count map' = count map + Z.of_nat (length ins) ∧
    ∀ x, x ∈ links map' ↔
         x ∈ links map ∨
         ∃ i, i ∈ ins ∧ x = HashNode i.1.1 (hash map i.1.2).
Proof.
  revert map.
  induction ins as [|[[n k] ok] ins IH]; intros map Hwf Hc Hnd Hfresh.
  - exists map. do 4 (split; [done|]). split; [cbn [length]; lia|].
    intros x. split; [by left|].
    intros [?|(i & Hi & _)]; [done|]. by apply elem_of_nil in Hi.
  - cbn [length] in Hc. cbn [fmap list_fmap run insert_op step fst snd].
    rewrite fmap_cons in Hnd. apply NoDup_cons in Hnd as [Hn Hnd].
    cbn [fst] in Hn.
    assert (fresh map n = true) as Hfn
      by (apply (Hfresh (n, k, ok)), elem_of_cons; by left).
    rewrite hashmap_insert_spec by (done || lia).
    cbn [fmap option_fmap option_map mbind option_bind fst].
    destruct (IH (inserted ok map n k))
      as (map' & Hrun & Hwf' & Hh & Hcmp & Hcount & Hl).
    { apply inserted_wf; [done|lia|done]. }
    { rewrite inserted_count. lia. }
    { done. }
    { intros a Ha. apply inserted_fresh; [done|lia|done| |].
      - apply Hfresh, elem_of_cons. by right.
      - intros Heq. apply Hn. rewrite <- Heq.
        by apply (list_elem_of_fmap_2 (λ a, a.1.1)). }
    destruct (inserted_callbacks ok map n k) as [Hh1 Hcmp1].
    exists map'. split; [done|]. split; [done|].
    split; [congruence|]. split; [congruence|].
    split; [rewrite Hcount, inserted_count; cbn [length]; lia|].
    intros x. rewrite Hl, Hh1.
    rewrite (inserted_links ok map n k Hwf ltac:(lia) Hfn), elem_of_cons.
    split.
    + intros [[->|?]|(i & Hi & ->)]; [right|by left|right].
      * exists (n, k, ok). split; [apply elem_of_cons; by left|done].
      * exists i. split; [apply elem_of_cons; by right|done].
    + intros [?|(i & [->|Hi]%elem_of_cons & ->)].
      * left. by right.
      * left. by left.
      * right. by exists i.
Qed.

End Distinct.

(** C1: after any sequence of insertions of distinct nodes in which the link
    inserted with a key matches no other key of the sequence, [count] is the
    number of insertions and [hashmap_get] of each key returns the link
    inserted with it, whatever the number of times [len] has doubled and
    whichever reallocations have failed. *)
Theorem distinct_keys_found {K : Type} (h : K → Z)
    (c : hash_node → K → bool) (ins : list (Z * K * bool)) :
  Z.of_nat (length ins) ≤ MAX_LINKS →
  NoDup ((λ a, a.1.1) <$> ins) →
  (∀ i j a b, ins !! i = Some a → ins !! j = Some b →
     c (HashNode a.1.1 (h a.1.2)) b.1.2 = true ↔ i = j) →
  ∃ map,
    run (hashmap_init true h c) (insert_op <$> ins) = Some map ∧
    count map = Z.of_nat (length ins) ∧
    ∀ a, a ∈ ins →
      hashmap_get map a.1.2 = Some (Some (HashNode a.1.1 (h a.1.2))).
Proof.
  intros Hlen Hnd Hdist.
  destruct (run_inserts (hashmap_init true h c) ins (init_wf h c))
    as (map & Hrun & Hwf & Hh & Hcmp & Hcount & Hl);
    [cbn [count hashmap_init]; lia|done|done|].
  cbn [hash cmp count hashmap_init] in Hh, Hcmp, Hcount, Hl.
  exists map. split; [done|]. split; [lia|]. intros a Ha.
  apply list_elem_of_lookup in Ha as [i Hi].
  rewrite hashmap_get_spec by done. f_equal. rewrite Hh, Hcmp.
  apply chain_find_unique.
  - rewrite <- Hh.
    change (hash map a.1.2)
      with (node_hash (HashNode a.1.1 (hash map a.1.2))) at 2.
    apply elem_of_links_bucket; [done|]. apply Hl. right.
    exists a. rewrite Hh. split; [|done].
    apply list_elem_of_lookup. by exists i.
  - by apply (Hdist i i a a).
  - intros y Hy Hm.
    rewrite <- Hh in Hy. apply elem_of_bucket_links in Hy; [|done].
    apply Hl in Hy as [Hy|(b & Hb & ->)].
    { rewrite init_links in Hy. by apply elem_of_nil in Hy. }
    apply list_elem_of_lookup in Hb as [j Hj].
    apply (Hdist j i b a Hj Hi) in Hm as ->. congruence.
Qed.

Lemma distinct_keys_found_witness :
  ∃ map,
    run Harness.init
      (insert_op <$> ((λ i : nat, (4 * Z.of_nat i, Z.of_nat i, true))
                        <$> seq 0 100)) = Some map ∧
    len map = 64 ∧
    hashmap_get map 77 = Some (Some (HashNode 308 77)).
Proof.
  set (ins := (λ i : nat, (4 * Z.of_nat i, Z.of_nat i, true)) <$> seq 0 100).
  destruct (distinct_keys_found Harness.hash_test Harness.cmp_test ins)
    as (map & Hrun & _ & Hget).
  - vm_decide.
  - unfold ins. rewrite <- list_fmap_compose.
    apply NoDup_fmap_2; [|apply NoDup_seq].
    intros i j Hij. cbn in Hij. lia.
  - intros i j a b Ha Hb. unfold ins in Ha, Hb.
    rewrite list_lookup_fmap in Ha, Hb.
    destruct (seq 0 100 !! i) as [i'|] eqn:Hi; [|done].
    destruct (seq 0 100 !! j) as [j'|] eqn:Hj; [|done].
    apply lookup_seq in Hi as [-> _]. apply lookup_seq in Hj as [-> _].
    cbn in Ha, Hb. injection Ha as <-. injection Hb as <-.
    unfold Harness.cmp_test, Harness.test_i.
    cbn [node_addr fst snd].
    rewrite Z.mul_comm, Z.div_mul by done. rewrite Z.eqb_eq. lia.
  - exists map. split; [exact Hrun|]. split.
    + assert (Harness.table_of (insert_op <$> ins) = map) as <-.
      { unfold Harness.table_of, Harness.init. rewrite Hrun. reflexivity. }
      vm_decide.
    + apply (Hget (308, 77, true)). unfold ins.
      apply (list_elem_of_fmap_2
               (λ i : nat, (4 * Z.of_nat i, Z.of_nat i, true)) _ 77%nat).
      apply elem_of_seq. lia.
Defined.

(** ** Insertion followed by removal *)

Section Roundtrip.

Context {K : Type}.
Implicit Types (map : hashmap K) (key : K).

Lemma compact_no_shrink map : wf map → compact map → shrink_due map = false.
Proof.
  intros Hwf [Hmin|Hc]; apply not_true_iff_false;
    intros [Hlt Hgt]%shrink_due_spec; [lia|].
  pose proof (wf_len_range _ Hwf).
  pose proof (Z.mul_div_le (len map) 4 ltac:(lia)). lia.
Qed.

(** Unlinking the node that was just linked gives the table back. *)
Lemma unlinked_linked map node key :
  wf map →
  unlinked (linked map node key) (hash map key) (bucket map (hash map key))
    = map.
Proof.
  intros Hwf. unfold unlinked, linked, set_count, set_table.
  cbn [table len count hash cmp].
  change (slot_of _ (hash map key)) with (slot_of map (hash map key)).
  rewrite list_insert_insert_eq, list_insert_id by by apply table_bucket.
  replace (count map + 1 - 1) with (count map) by lia. by destruct map.
Qed.

End Roundtrip.

(** The claim C9 does not hold when the insertion grows the array: the
    removal does not shrink it back.  In a table of 16 buckets with 48 links
    the next insertion triggers a grow; after the round trip the table has 32
    buckets, and the next insertion no longer triggers one. *)
Lemma insert_remove_roundtrip_counterexample :
  let map := Harness.table_of (Harness.insert_keys 0 48) in
  let map2 := run map [Insert 400 100 true; Remove 100 true] in
  (len map, count map) = (16, 48) ∧
  (len <$> map2, count <$> map2) = (Some 32, Some 48) ∧
  grow_due (linked map 404 101) = true ∧
  (λ m, grow_due (linked m 404 101)) <$> map2 = Some false.
Proof. vm_decide. Qed.

(** C9 (amended): on a well-formed table that removals have kept compact,
    inserting a fresh link with a key and removing the key at once returns a
    link of that key and restores [count].  When the insertion does not grow
    the array ([count + 1 <= len * 3], or the reallocation fails), the
    removal returns the inserted link and the table is exactly the one of
    before: [len], [count], the bucket array and every chain.  When the
    insertion grows the array, [len] stays doubled. *)
Theorem insert_remove_roundtrip {K : Type} (ok ok' : bool) (map : hashmap K)
    (node : Z) (key : K) :
  wf map → compact map → count map < MAX_LINKS → fresh map node = true →
  cmp map (HashNode node (hash map key)) key = true →
  ∃ map1 map2 x,
    hashmap_insert ok map node key = Some (map1, 0) ∧
    hashmap_remove ok' map1 key = Some (map2, Some x) ∧
    cmp map x key = true ∧
    count map2 = count map ∧
    (count map + 1 ≤ len map * 3 ∨ ok = false →
     map2 = map ∧ x = HashNode node (hash map key)) ∧
    (count map + 1 > len map * 3 ∧ ok = true →
     len map1 = len map * 2 ∧ len map2 = len map * 2).
Proof.
  intros Hwf Hcp Hc Hfresh Hm.
  pose proof (linked_wf map node key Hwf Hc Hfresh) as Hwf1.
  pose proof (wf_len_range _ Hwf) as Hr.
  pose proof (grow_due_spec _ Hwf1) as Hdue.
  cbn [len count linked set_count set_table] in Hdue.
  exists (inserted ok map node key).
  destruct (grow_due (linked map node key) && ok) eqn:Hg.
  - (* the array grows *)
    apply andb_true_iff in Hg as [Hg ->]. apply Hdue in Hg as Hgt.
    assert (inserted true map node key = grown (linked map node key)) as Hins.
    { unfold inserted. by rewrite Hg. }
    pose proof (inserted_wf true map node key Hwf Hc Hfresh) as Hwf2.
    destruct (inserted_callbacks true map node key) as [Hh Hcmp].
    assert (HashNode node (hash map key)
              ∈ bucket (inserted true map node key)
                  (hash (inserted true map node key) key)) as Hin.
    { rewrite Hh.
      change (hash map key)
        with (node_hash (HashNode node (hash map key))) at 2.
      apply elem_of_links_bucket; [done|].
      rewrite inserted_links by done. apply elem_of_cons. by left. }
    destruct (matching (cmp (inserted true map node key)) key
                (bucket (inserted true map node key)
                   (hash (inserted true map node key) key)))
      as [|x rest] eqn:Hmatch.
    { rewrite matching_nil_iff in Hmatch. rewrite Hcmp in Hmatch.
      rewrite (Hmatch _ Hin) in Hm. done. }
    assert (cmp map x key = true) as Hx.
    { rewrite <- Hcmp. eapply elem_of_matching. rewrite Hmatch.
      apply elem_of_cons. by left. }
    destruct (hashmap_remove_present ok' _ key x rest Hwf2 Hmatch)
      as (pre & post & Hb & _ & _ & Hrem).
    eexists _, x. split; [by apply hashmap_insert_spec|].
    split; [exact Hrem|]. split; [done|].
    split; [rewrite removed_count, inserted_count; lia|].
    split; [lia|]. intros _. rewrite Hins at 1. split; [cbn; lia|].
    unfold removed.
    destruct (shrink_due _) eqn:Hs; [|rewrite Hins; cbn; lia].
    apply shrink_due_spec in Hs as [Hs _]. exfalso. revert Hs.
    rewrite Hins.
    cbn [count len unlinked grown linked set_len set_count set_table].
    pose proof (Z.div_le_upper_bound (2 * len map) 4 (2 * len map)
                  ltac:(lia) ltac:(lia)). lia.
  - (* the array keeps its size *)
    assert (inserted ok map node key = linked map node key) as Hins.
    { unfold inserted. by rewrite Hg. }
    exists map, (HashNode node (hash map key)).
    split; [by apply hashmap_insert_spec|].
    split; [|split; [done|]; split; [done|]; split; [done|]].
    + rewrite Hins.
      rewrite (hashmap_remove_at ok' (linked map node key) key []
                 (HashNode node (hash map key)) (bucket map (hash map key)));
        [|done| |done|done].
      * cbn [app]. unfold removed.
        change (hash (linked map node key)) with (hash map).
        rewrite unlinked_linked by done.
        by rewrite compact_no_shrink.
      * change (hash (linked map node key)) with (hash map).
        rewrite linked_bucket by done. by rewrite decide_True.
    + intros [Hgt ->]. apply Z.gt_lt, Hdue in Hgt. rewrite Hgt in Hg. done.
Qed.

Lemma insert_remove_roundtrip_witness :
  let map := Harness.table_of (Harness.insert_keys 0 20) in
  ∃ map1,
    hashmap_insert true map 400 100 = Some (map1, 0) ∧
    hashmap_remove true map1 100 = Some (map, Some (HashNode 400 100)).
Proof.
  intros map.
  destruct (insert_remove_roundtrip true true map 400 100)
    as (map1 & map2 & x & Hins & Hrem & _ & _ & Hsame & _).
  - apply table_of_wf; vm_decide.
  - apply table_of_wf; vm_decide.
  - vm_decide.
  - vm_decide.
  - vm_decide.
  - destruct Hsame as [-> ->]; [left; vm_decide|].
    exists map1. split; [exact Hins|]. rewrite Hrem. do 3 f_equal.
Defined.

(** ** Links with equal keys *)

Section Duplicates.

Context {K : Type}.
Implicit Types (map : hashmap K) (key : K).

Lemma matches_bucket map key :
  wf map → hash_consistent map key →
  matching (cmp map) key (bucket map (hash map key)) = matches map key.
Proof. intros. symmetry. by apply matching_links. Qed.

Lemma hashmap_get_matching map key :
  wf map →
  hashmap_get map key =
    Some (head (matching (cmp map) key (bucket map (hash map key)))).
Proof. intros Hwf. by rewrite hashmap_get_spec, chain_find_head. Qed.

(** A removal takes the first matching link of the bucket of the key out of
    the matching links. *)
Lemma remove_matches ok map key x rest :
  wf map → hash_consistent map key →
  matching (cmp map) key (bucket map (hash map key)) = x :: rest →
  ∃ map',
    hashmap_remove ok map key = Some (map', Some x) ∧
    wf map' ∧ hash map' = hash map ∧ cmp map' = cmp map ∧
    hash_consistent map' key ∧
    matches map' key ≡ₚ rest.
Proof.
  intros Hwf Hcons Hm.
  destruct (hashmap_remove_present ok map key x rest Hwf Hm)
    as (pre & post & Hb & _ & _ & Hrem).
  pose proof (removed_links ok map _ pre x post Hwf Hb) as Hl.
  destruct (removed_callbacks ok map (hash map key) (pre ++ post))
    as [Hh Hcmp].
  exists (removed ok map (hash map key) (pre ++ post)).
  split; [done|]. split; [by eapply removed_wf|].
  split; [done|]. split; [done|]. split.
  - intros y Hy Hmy. rewrite Hh. rewrite Hcmp in Hmy.
    apply Hcons; [|done]. rewrite Hl. apply elem_of_cons. by right.
  - unfold matches. rewrite Hcmp.
    apply (Permutation_cons_inv (a := x)). rewrite <- Hm.
    rewrite matches_bucket by done. unfold matches. rewrite Hl.
    rewrite matching_cons.
    assert (cmp map x key = true) as ->; [|done].
    eapply elem_of_matching. rewrite Hm. apply elem_of_cons. by left.
Qed.

Lemma inserted_matches ok map node key :
  wf map → count map < MAX_LINKS → fresh map node = true →
  cmp map (HashNode node (hash map key)) key = true →
  matches (inserted ok map node key) key
    ≡ₚ HashNode node (hash map key) :: matches map key.
Proof.
  intros Hwf Hc Hfresh Hm. unfold matches.
  destruct (inserted_callbacks ok map node key) as [_ ->].
  rewrite (inserted_links ok map node key Hwf Hc Hfresh).
  by rewrite matching_cons, Hm.
Qed.

Lemma inserted_consistent ok map node key :
  wf map → count map < MAX_LINKS → fresh map node = true →
  hash_consistent map key → hash_consistent (inserted ok map node key) key.
Proof.
  intros Hwf Hc Hfresh Hcons x Hx Hm.
  destruct (inserted_callbacks ok map node key) as [Hh Hcmp].
  rewrite Hh. rewrite Hcmp in Hm.
  rewrite inserted_links in Hx by done.
  apply elem_of_cons in Hx as [->|Hx]; [done|by apply Hcons].
Qed.

End Duplicates.

(** The claim C5 does not hold when the second insertion grows the array:
    [hashmap_grow] pushes the links of a chain one by one on the new chains,
    which reverses their order.  In a table of 16 buckets with 47 links and
    no link of key 100, two links of key 100 are inserted, at addresses 400
    and then 401: the second insertion grows the array, and [hashmap_get] and
    the first [hashmap_remove] return the link inserted first. *)
Lemma duplicate_keys_order_counterexample :
  let map := Harness.table_of (Harness.insert_keys 0 47) in
  let map2 := run map [Insert 400 100 true; Insert 401 100 true] in
  matching Harness.cmp_test 100 (links map) = [] ∧
  (len <$> map2, count <$> map2) = (Some 32, Some 49) ∧
  map2 ≫= (λ m, hashmap_get m 100) = Some (Some (HashNode 400 100)) ∧
  map2 ≫= (λ m, snd <$> hashmap_remove true m 100)
    = Some (Some (HashNode 400 100)).
Proof. vm_decide. Qed.

(** When the table already holds a link of the key, the third removal returns
    it instead of reporting absence. *)
Example duplicate_keys_older_link :
  let map := Harness.table_of
               (Harness.insert_keys 0 20 ++ [Insert 402 100 true]) in
  let removal (n : nat) :=
    run map ([Insert 400 100 true; Insert 401 100 true]
               ++ replicate n (Remove 100 true))
      ≫= (λ m, snd <$> hashmap_remove true m 100) in
  removal 0%nat = Some (Some (HashNode 401 100)) ∧
  removal 1%nat = Some (Some (HashNode 400 100)) ∧
  removal 2%nat = Some (Some (HashNode 402 100)) ∧
  removal 3%nat = Some None.
Proof. vm_decide. Qed.

(** C5 (amended): in a well-formed table that holds no link of the key, after
    two distinct fresh links are inserted with that key and the second
    insertion does not grow the array ([count <= len * 3] after it, or its
    reallocation fails), [hashmap_get] returns the link inserted second, two
    successive [hashmap_remove] return the second and then the first, and a
    third one reports absence and leaves the table as it is. *)
Theorem duplicate_keys_order {K : Type} (ok1 ok2 ok3 ok4 ok5 : bool)
    (map map1 : hashmap K) (n1 n2 : Z) (key : K) :
  wf map → count map + 1 < MAX_LINKS →
  fresh map n1 = true → fresh map n2 = true → n1 ≠ n2 →
  (∀ x, x ∈ links map → cmp map x key = false) →
  cmp map (HashNode n1 (hash map key)) key = true →
  cmp map (HashNode n2 (hash map key)) key = true →
  hashmap_insert ok1 map n1 key = Some (map1, 0) →
  count map1 + 1 ≤ len map1 * 3 ∨ ok2 = false →
  ∃ map2 map3 map4,
    hashmap_insert ok2 map1 n2 key = Some (map2, 0) ∧
    hashmap_get map2 key = Some (Some (HashNode n2 (hash map key))) ∧
    hashmap_remove ok3 map2 key
      = Some (map3, Some (HashNode n2 (hash map key))) ∧
    hashmap_remove ok4 map3 key
      = Some (map4, Some (HashNode n1 (hash map key))) ∧
    hashmap_remove ok5 map4 key = Some (map4, None) ∧
    hashmap_get map4 key = Some None.
Proof.
  intros Hwf Hc Hf1 Hf2 Hne Hnone Hm1 Hm2 Hins1 Hnogrow.
  set (N1 := HashNode n1 (hash map key)) in *.
  set (N2 := HashNode n2 (hash map key)) in *.
  (* after the first insertion *)
  rewrite hashmap_insert_spec in Hins1 by (done || lia).
  injection Hins1 as <-.
  pose proof (inserted_wf ok1 map n1 key Hwf ltac:(lia) Hf1) as Hwf1.
  pose proof (inserted_fresh ok1 map n1 key n2 Hwf ltac:(lia) Hf1 Hf2
                ltac:(done)) as Hf2'.
  destruct (inserted_callbacks ok1 map n1 key) as [Hh1 Hcmp1].
  assert (hash_consistent map key) as Hcons.
  { intros x Hx Hmx. by rewrite Hnone in Hmx. }
  pose proof (inserted_consistent ok1 map n1 key Hwf ltac:(lia) Hf1 Hcons)
    as Hcons1.
  assert (matches (inserted ok1 map n1 key) key = [N1]) as Hmatch1.
  { apply Permutation_singleton_r.
    rewrite inserted_matches by (done || lia). fold N1.
    assert (matches map key = []) as ->; [|done].
    by apply matching_nil_iff. }
  set (m1 := inserted ok1 map n1 key) in *.
  assert (count m1 = count map + 1) as Hc1 by apply inserted_count.
  (* the second insertion links the node and leaves the array as it is *)
  assert (inserted ok2 m1 n2 key = linked m1 n2 key) as Hins2.
  { unfold inserted. destruct (grow_due _) eqn:Hg; [|done].
    destruct Hnogrow as [Hle| ->]; [|done].
    apply grow_due_spec in Hg; [|apply linked_wf; [done|lia|done]].
    cbn [len count linked set_count set_table] in Hg. lia. }
  pose proof (linked_wf m1 n2 key Hwf1 ltac:(lia) Hf2') as Hwf2.
  assert (matching (cmp m1) key (bucket (linked m1 n2 key) (hash m1 key))
          = [N2; N1]) as Hmatch2.
  { rewrite linked_bucket, decide_True by done.
    rewrite matching_cons, Hh1, Hcmp1. fold N2. rewrite Hm2.
    rewrite <- Hcmp1, <- Hh1, matches_bucket by done. by rewrite Hmatch1. }
  assert (hash_consistent (linked m1 n2 key) key) as Hcons2.
  { rewrite <- Hins2. apply inserted_consistent; [done|lia|done|done]. }
  set (m2 := linked m1 n2 key) in *.
  change (hash m1) with (hash m2) in Hmatch2.
  change (cmp m1) with (cmp m2) in Hmatch2.
  (* the removals *)
  destruct (remove_matches ok3 m2 key N2 [N1] Hwf2 Hcons2 Hmatch2)
    as (m3 & Hrem3 & Hwf3 & Hh3 & Hcmp3 & Hcons3 & Hmatch3).
  apply Permutation_singleton_r in Hmatch3.
  rewrite <- matches_bucket in Hmatch3 by done.
  destruct (remove_matches ok4 m3 key N1 [] Hwf3 Hcons3 Hmatch3)
    as (m4 & Hrem4 & Hwf4 & Hh4 & Hcmp4 & Hcons4 & Hmatch4).
  apply Permutation_nil_r in Hmatch4.
  rewrite <- matches_bucket in Hmatch4 by done.
  exists m2, m3, m4.
  split; [rewrite hashmap_insert_spec by (done || lia); by rewrite Hins2|].
  split; [by rewrite hashmap_get_matching, Hmatch2|].
  split; [done|]. split; [done|]. split.
  - apply (hashmap_remove_absent ok5 m4 key (bucket m4 (hash m4 key)));
      [|done].
    unfold load. by apply table_bucket.
  - by rewrite hashmap_get_matching, Hmatch4.
Qed.

Lemma duplicate_keys_order_witness :
  let map := Harness.table_of (Harness.insert_keys 0 20) in
  ∃ map1 map2 map3,
    hashmap_insert true map 400 100 = Some (map1, 0) ∧
    hashmap_insert true map1 401 100 = Some (map2, 0) ∧
    hashmap_get map2 100 = Some (Some (HashNode 401 100)) ∧
    hashmap_remove true map2 100 = Some (map3, Some (HashNode 401 100)).
Proof.
  intros map.
  assert (wf map) as Hwf by (apply table_of_wf; vm_decide).
  assert (count map + 1 < MAX_LINKS) as Hc by vm_decide.
  exists (inserted true map 400 100).
  destruct (duplicate_keys_order true true true true true map
              (inserted true map 400 100) 400 401 100)
    as (map2 & map3 & map4 & Hins2 & Hget & Hrem3 & _).
  - exact Hwf.
  - exact Hc.
  - vm_decide.
  - vm_decide.
  - clear. lia.
  - apply matching_nil_iff. vm_decide.
  - vm_decide.
  - vm_decide.
  - apply hashmap_insert_spec; [exact Hwf|clear -Hc; lia|vm_decide].
  - left. vm_decide.
  - exists map2, map3.
    split; [apply hashmap_insert_spec;
            [exact Hwf|clear -Hc; lia|vm_decide]|].
    split; [exact Hins2|]. split; [exact Hget|exact Hrem3].
Defined.

(** ** The order of the links of a key *)

Section Order.

Context {K : Type}.
Implicit Types (map : hashmap K) (key : K) (ch : chain).
Implicit Types (c : hash_node → K → bool).

Lemma matching_reverse c key ch :
  matching c key (reverse ch) = reverse (matching c key ch).
Proof. unfold matching. apply filter_reverse. Qed.

Lemma matching_filter c key (P : hash_node → Prop)
    `{∀ n, Decision (P n)} ch :
  (∀ n, n ∈ ch → c n key = true → P n) →
  matching c key (filter P ch) = matching c key ch.
Proof.
  induction ch as [|n ch IH]; intros HP; [done|].
  rewrite filter_cons, !matching_cons.
  assert (∀ n, n ∈ ch → c n key = true → P n) as HP'.
  { intros m Hm. apply HP, elem_of_cons. by right. }
  destruct (c n key) eqn:Hn.
  - rewrite decide_True by (apply HP; [apply elem_of_cons; by left|done]).
    rewrite matching_cons, Hn. by rewrite IH.
  - case_decide; [|by apply IH]. rewrite matching_cons, Hn. by apply IH.
Qed.

Lemma bucket_slot map h h' :
  slot_of map h = slot_of map h' → bucket map h = bucket map h'.
Proof. unfold bucket. by intros ->. Qed.

Lemma elem_of_bucket_slot map h y :
  wf map → y ∈ bucket map h → slot_of map (node_hash y) = slot_of map h.
Proof.
  intros Hwf Hy.
  pose proof (wf_slot _ Hwf _ _ _ (buckets_bucket map h Hwf) Hy) as Hs.
  pose proof (slot_of_range map h Hwf).
  rewrite (slot_of_wf map (node_hash y)) by done. lia.
Qed.

(** The links of a bucket that match a key whose matching links carry its
    hash are in the bucket of the key. *)
Lemma matching_other_bucket map key h :
  wf map → hash_consistent map key →
  slot_of map h ≠ slot_of map (hash map key) →
  matching (cmp map) key (bucket map h) = [].
Proof.
  intros Hwf Hcons Hne. apply matching_nil_iff. intros y Hy.
  apply not_true_iff_false. intros Hm. apply Hne.
  rewrite <- (elem_of_bucket_slot map h y) by done.
  f_equal. apply Hcons; [by eapply elem_of_bucket_links|done].
Qed.

(** [hashmap_grow] reverses the order of the links of a key. *)
Lemma grown_matching map key :
  wf map → len map ≤ 2 ^ 59 → hash_consistent map key →
  matching (cmp map) key (bucket (grown map) (hash map key)) =
    reverse (matching (cmp map) key (bucket map (hash map key))).
Proof.
  intros Hwf Hlen Hcons. rewrite grown_bucket by done.
  assert (∀ n, n ∈ bucket map (hash map key) → cmp map n key = true →
               node_hash n = hash map key) as Hh.
  { intros n Hn Hm. apply Hcons; [by eapply elem_of_bucket_links|done]. }
  case_decide as Hbit; unfold split_lo, split_hi;
    rewrite matching_reverse; f_equal; apply matching_filter;
    intros n Hn Hm; unfold lower_half; by rewrite (Hh n Hn Hm).
Qed.

(** [hashmap_shrink] keeps it. *)
Lemma shrunk_matching ok map key :
  wf map → MIN_SLOTS < len map → hash_consistent map key →
  matching (cmp map) key (bucket (shrunk ok map) (hash map key)) =
    matching (cmp map) key (bucket map (hash map key)).
Proof.
  intros Hwf Hlt Hcons. rewrite shrunk_bucket by done.
  destruct (wf_half map Hwf Hlt) as (k & Hk & Hhalf & Hlen & Hl2 & Hn).
  pose proof (shrunk_wf ok map Hwf Hlt) as Hwf'.
  set (s := slot_of (shrunk ok map) (hash map key)).
  assert (s = Z.land (hash map key) (2 ^ k - 1)) as Hs.
  { unfold s. rewrite slot_of_wf by done. fields. by rewrite Hhalf. }
  clearbody s.
  assert (0 ≤ s < 2 ^ k) as Hrange
    by (rewrite Hs; apply land_mask_range; lia).
  assert (slot_of map (hash map key) = s + Z.land (hash map key) (2 ^ k))
    as Hslot.
  { rewrite slot_of_wf by done. rewrite Hlen, land_mask_succ by lia. lia. }
  assert (∀ i, 0 ≤ i < 2 ^ (k + 1) → slot_of map i = i) as Hid.
  { intros i Hi. rewrite slot_of_wf, Hlen, land_mask by (done || lia).
    by apply Z.mod_small. }
  assert (2 ^ (k + 1) = 2 * 2 ^ k) as Hpow
    by (rewrite Z.pow_add_r by lia; lia).
  rewrite matching_app, Hhalf.
  rewrite land_bit in Hslot by lia.
  destruct (Z.testbit (hash map key) k).
  - rewrite (matching_other_bucket map key s);
      [|done|done|rewrite (Hid s) by lia; lia].
    cbn [app]. f_equal. apply bucket_slot. rewrite Hid; lia.
  - rewrite (matching_other_bucket map key (s + 2 ^ k));
      [|done|done|rewrite (Hid (s + 2 ^ k)) by lia; lia].
    rewrite app_nil_r. f_equal. apply bucket_slot. rewrite Hid; lia.
Qed.

End Order.

Section OrderOps.

Context {K : Type}.
Implicit Types (map : hashmap K) (key : K) (ch : chain).

(** The matching links of the bucket of a key once a node is linked. *)
Lemma linked_matching map node key key' :
  wf map →
  (cmp map (HashNode node (hash map key)) key' = true →
   hash map key = hash map key') →
  matching (cmp map) key' (bucket (linked map node key) (hash map key')) =
    if cmp map (HashNode node (hash map key)) key'
    then HashNode node (hash map key)
           :: matching (cmp map) key' (bucket map (hash map key'))
    else matching (cmp map) key' (bucket map (hash map key')).
Proof.
  intros Hwf Hh. rewrite linked_bucket by done. case_decide as Hslot.
  - by rewrite matching_cons.
  - destruct (cmp map _ key') eqn:Hm; [|done].
    destruct Hslot. by rewrite Hh.
Qed.

Lemma linked_consistent map node key key' :
  wf map → hash_consistent map key' →
  (cmp map (HashNode node (hash map key)) key' = true →
   hash map key = hash map key') →
  hash_consistent (linked map node key) key'.
Proof.
  intros Hwf Hcons Hh x Hx Hm. fields.
  rewrite linked_links in Hx by done.
  apply elem_of_cons in Hx as [->|Hx]; [by apply Hh|by apply Hcons].
Qed.

Lemma inserted_matching ok map node key key' :
  wf map → count map < MAX_LINKS → fresh map node = true →
  hash_consistent map key' →
  (cmp map (HashNode node (hash map key)) key' = true →
   hash map key = hash map key') →
  matching (cmp map) key' (bucket (inserted ok map node key) (hash map key'))
  = (if grow_due (linked map node key) && ok then reverse else id)
      (if cmp map (HashNode node (hash map key)) key'
       then HashNode node (hash map key)
              :: matching (cmp map) key' (bucket map (hash map key'))
       else matching (cmp map) key' (bucket map (hash map key'))).
Proof.
  intros Hwf Hc Hfresh Hcons Hh.
  rewrite <- linked_matching by done. unfold inserted.
  destruct (grow_due (linked map node key) && ok) eqn:Hg; [|done].
  apply andb_true_iff in Hg as [Hg _].
  pose proof (linked_wf map node key Hwf Hc Hfresh) as Hwf1.
  apply (grown_matching (linked map node key) key' Hwf1).
  - by apply grow_due_len.
  - by apply linked_consistent.
Qed.

Lemma unlinked_consistent map h pre x post key' :
  wf map → bucket map h = pre ++ x :: post →
  hash_consistent map key' →
  hash_consistent (unlinked map h (pre ++ post)) key'.
Proof.
  intros Hwf Hb Hcons y Hy Hm. fields. apply Hcons; [|done].
  rewrite (unlinked_links map h pre x post) by done.
  apply elem_of_cons. by right.
Qed.

Lemma removed_matching ok map h pre x post key' :
  wf map → bucket map h = pre ++ x :: post →
  hash_consistent map key' →
  matching (cmp map) key'
    (bucket (removed ok map h (pre ++ post)) (hash map key')) =
    if decide (slot_of map (hash map key') = slot_of map h)
    then matching (cmp map) key' (pre ++ post)
    else matching (cmp map) key' (bucket map (hash map key')).
Proof.
  intros Hwf Hb Hcons.
  assert (matching (cmp map) key'
            (bucket (unlinked map h (pre ++ post)) (hash map key')) =
          if decide (slot_of map (hash map key') = slot_of map h)
          then matching (cmp map) key' (pre ++ post)
          else matching (cmp map) key' (bucket map (hash map key'))) as <-.
  { rewrite unlinked_bucket by done. by case_decide. }
  unfold removed.
  destruct (shrink_due _) eqn:Hs; [|done].
  apply shrink_due_spec in Hs as [_ Hlt].
  apply (shrunk_matching ok (unlinked map h (pre ++ post)) key').
  - by eapply unlinked_wf.
  - done.
  - by eapply unlinked_consistent.
Qed.

Lemma links_NoDup map : wf map → NoDup (links map).
Proof. intros Hwf. eapply NoDup_fmap_1, (wf_distinct _ Hwf). Qed.

(** Both conditions can be checked by evaluation on a given table. *)
Lemma hash_consistent_check map key :
  forallb (λ x, implb (cmp map x key) (node_hash x =? hash map key))
    (links map) = true →
  hash_consistent map key.
Proof.
  intros Hall x Hx Hm. rewrite forallb_forall in Hall.
  specialize (Hall x ltac:(by apply list_elem_of_In)).
  rewrite Hm in Hall. by apply Z.eqb_eq.
Qed.

Lemma no_common_link_check map key key' :
  forallb (λ x, implb (cmp map x key) (negb (cmp map x key')))
    (links map) = true →
  ∀ x, x ∈ links map → cmp map x key = true → cmp map x key' = false.
Proof.
  intros Hall x Hx Hm. rewrite forallb_forall in Hall.
  specialize (Hall x ltac:(by apply list_elem_of_In)).
  rewrite Hm in Hall. by apply negb_true_iff.
Qed.

End OrderOps.

(** X1: on a well-formed table [hashmap_get] is defined and returns the
    first link of the bucket chain of the key that [cmp] accepts, and [NULL]
    when the chain has none.  A link that it returns is a link of the table
    that [cmp] accepts and whose cached hash selects the bucket of the key;
    when the links that match the key carry its hash, [NULL] means that no
    link of the whole table matches. *)
Theorem hashmap_get_first_match {K : Type} (map : hashmap K) (key : K) :
  wf map →
  ∃ r,
    hashmap_get map key = Some r ∧
    (∀ pre x post,
       bucket map (hash map key) = pre ++ x :: post →
       (∀ n, n ∈ pre → cmp map n key = false) → cmp map x key = true →
       r = Some x) ∧
    ((∀ n, n ∈ bucket map (hash map key) → cmp map n key = false) →
     r = None) ∧
    (∀ x, r = Some x →
       x ∈ links map ∧ cmp map x key = true ∧
       slot_of map (node_hash x) = slot_of map (hash map key)) ∧
    (r = None → hash_consistent map key →
     ∀ x, x ∈ links map → cmp map x key = false).
Proof.
  intros Hwf. rewrite hashmap_get_matching by done.
  eexists. split; [done|]. split; [|split; [|split]].
  - intros pre x post -> Hpre%matching_nil_iff Hx.
    by rewrite matching_app, Hpre, matching_cons, Hx.
  - intros Hno%matching_nil_iff. by rewrite Hno.
  - intros x Hx. apply head_Some_elem_of, elem_of_matching in Hx as [Hx Hm].
    split; [by eapply elem_of_bucket_links|]. split; [done|].
    by apply elem_of_bucket_slot.
  - intros Hnil%head_None Hcons.
    rewrite matches_bucket in Hnil by done. by apply matching_nil_iff.
Qed.

Lemma hashmap_get_first_match_witness :
  let map := Harness.table_of (Harness.insert_keys 0 48) in
  bucket map 20 = [HashNode 144 36; HashNode 80 20; HashNode 16 4] ∧
  hashmap_get map 20 = Some (Some (HashNode 80 20)) ∧
  hashmap_get map 52 = Some None.
Proof.
  intros map.
  assert (wf map) as Hwf by (apply table_of_wf; vm_decide).
  split; [vm_decide|]. split.
  - destruct (hashmap_get_first_match map 20 Hwf)
      as (r & Hget & Hfirst & _).
    rewrite Hget. f_equal.
    apply (Hfirst [HashNode 144 36] (HashNode 80 20) [HashNode 16 4]).
    + vm_decide.
    + intros n Hn. apply list_elem_of_singleton in Hn as ->. vm_decide.
    + vm_decide.
  - destruct (hashmap_get_first_match map 52 Hwf)
      as (r & Hget & _ & Hnone & _).
    rewrite Hget. f_equal. apply Hnone.
    intros n Hn. revert n Hn. apply Forall_forall. vm_compute.
    repeat constructor.
Defined.

(** X2: [hashmap_remove] unlinks the first link of the chain that matches the
    key and keeps the others in their order, also when it shrinks the array:
    the link it returns is no longer in the table, and the next
    [hashmap_get] and the next [hashmap_remove] of the key return the link
    that came next in the chain, or [NULL] when there was none. *)
Theorem remove_keeps_chain_order {K : Type} (ok ok' : bool) (map : hashmap K)
    (key : K) (x : hash_node) (rest : chain) :
  wf map → hash_consistent map key →
  matching (cmp map) key (bucket map (hash map key)) = x :: rest →
  ∃ map',
    hashmap_remove ok map key = Some (map', Some x) ∧
    (x ∉ links map') ∧
    matching (cmp map') key (bucket map' (hash map' key)) = rest ∧
    hashmap_get map' key = Some (head rest) ∧
    snd <$> hashmap_remove ok' map' key = Some (head rest).
Proof.
  intros Hwf Hcons Hm.
  destruct (hashmap_remove_present ok map key x rest Hwf Hm)
    as (pre & post & Hb & Hpre & Hpost & Hrem).
  pose proof (removed_wf ok map _ pre x post Hwf Hb) as Hwf'.
  destruct (removed_callbacks ok map (hash map key) (pre ++ post))
    as [Hh Hc].
  exists (removed ok map (hash map key) (pre ++ post)).
  split; [done|].
  assert (matching (cmp (removed ok map (hash map key) (pre ++ post))) key
            (bucket (removed ok map (hash map key) (pre ++ post))
               (hash (removed ok map (hash map key) (pre ++ post)) key))
          = rest) as Hrest.
  { rewrite Hh, Hc, (removed_matching ok map _ pre x post) by done.
    rewrite decide_True by done. by rewrite matching_app, Hpre, Hpost. }
  split.
  { pose proof (links_NoDup map Hwf) as Hnd.
    rewrite (removed_links ok map _ pre x post Hwf Hb) in Hnd.
    by apply NoDup_cons in Hnd as [? _]. }
  split; [done|]. split.
  - by rewrite hashmap_get_matching, Hrest.
  - by rewrite hashmap_remove_result, Hrest.
Qed.

Lemma remove_keeps_chain_order_witness :
  let map := Harness.table_of
               (Harness.insert_keys 0 49 ++ Harness.remove_keys 7 41
                  ++ [Insert 193 48 true; Insert 194 48 true]) in
  ∃ map',
    hashmap_remove true map 48 = Some (map', Some (HashNode 194 48)) ∧
    hashmap_get map' 48 = Some (Some (HashNode 193 48)).
Proof.
  intros map.
  destruct (remove_keeps_chain_order true true map 48 (HashNode 194 48)
              [HashNode 193 48; HashNode 192 48])
    as (map' & Hrem & _ & _ & Hget & _).
  - apply table_of_wf; vm_decide.
  - apply hash_consistent_check. vm_decide.
  - vm_decide.
  - exists map'. split; [exact Hrem|exact Hget].
Defined.

(** X3: [hashmap_insert] puts the new link in front of the links of its key;
    a [hashmap_grow] that it triggers reverses their order.  After an
    insertion that does not grow the array [hashmap_get] returns the new link;
    after one that grows it, [hashmap_get] returns the link of the key that
    was last in the chain, and the new link only when the key had none. *)
Theorem insert_chain_order {K : Type} (ok : bool) (map : hashmap K)
    (node : Z) (key : K) :
  wf map → count map < MAX_LINKS → fresh map node = true →
  hash_consistent map key →
  cmp map (HashNode node (hash map key)) key = true →
  let n := HashNode node (hash map key) in
  let ms := matching (cmp map) key (bucket map (hash map key)) in
  ∃ map',
    hashmap_insert ok map node key = Some (map', 0) ∧
    (count map + 1 ≤ len map * 3 ∨ ok = false →
     len map' = len map ∧
     matching (cmp map') key (bucket map' (hash map' key)) = n :: ms ∧
     hashmap_get map' key = Some (Some n)) ∧
    (len map * 3 < count map + 1 ∧ ok = true →
     len map' = len map * 2 ∧
     matching (cmp map') key (bucket map' (hash map' key))
       = reverse ms ++ [n] ∧
     hashmap_get map' key = Some (Some (default n (last ms)))).
Proof.
  intros Hwf Hc Hfresh Hcons Hm n ms.
  pose proof (inserted_wf ok map node key Hwf Hc Hfresh) as Hwf'.
  pose proof (linked_wf map node key Hwf Hc Hfresh) as Hwf1.
  destruct (inserted_callbacks ok map node key) as [Hh Hcmp].
  pose proof (inserted_matching ok map node key key Hwf Hc Hfresh Hcons
                ltac:(done)) as Hmatch.
  rewrite Hm in Hmatch. fold n ms in Hmatch.
  pose proof (grow_due_spec _ Hwf1) as Hdue.
  cbn [len count linked set_count set_table] in Hdue.
  exists (inserted ok map node key).
  split; [by apply hashmap_insert_spec|].
  rewrite hashmap_get_matching, Hh, Hcmp, Hmatch by done.
  unfold inserted.
  destruct (grow_due (linked map node key) && ok) eqn:Hg.
  - apply andb_true_iff in Hg as [Hg ->]. apply Hdue in Hg.
    split; [intros [?|?]; [lia|done]|]. intros _.
    split; [fields; lia|]. rewrite reverse_cons. split; [done|].
    rewrite head_snoc, head_reverse. by destruct (last ms).
  - split; [|intros [Hgt ->]; apply Hdue in Hgt; by rewrite Hgt in Hg].
    intros _. done.
Qed.

Lemma insert_chain_order_witness :
  let map := Harness.table_of
               (Harness.insert_keys 0 47 ++ [Insert 400 100 true]) in
  ∃ map',
    hashmap_insert true map 401 100 = Some (map', 0) ∧
    len map' = 32 ∧
    hashmap_get map' 100 = Some (Some (HashNode 400 100)).
Proof.
  intros map.
  destruct (insert_chain_order true map 401 100)
    as (map' & Hins & _ & Hgrow).
  - apply table_of_wf; vm_decide.
  - vm_decide.
  - vm_decide.
  - apply hash_consistent_check. vm_decide.
  - vm_decide.
  - destruct Hgrow as (Hlen & _ & Hget); [vm_decide|].
    exists map'. split; [exact Hins|].
    split; [rewrite Hlen; vm_decide|].
    rewrite Hget. vm_decide.
Defined.

(** X4: an insertion does not change what [hashmap_get] returns for a key
    that the new link does not match, provided that the table holds at most
    one link of that key or the insertion does not grow the array. *)
Theorem insert_get_frame {K : Type} (ok : bool) (map : hashmap K)
    (node : Z) (key key' : K) :
  wf map → count map < MAX_LINKS → fresh map node = true →
  hash_consistent map key' →
  cmp map (HashNode node (hash map key)) key' = false →
  (length (matches map key') ≤ 1)%nat ∨
    count map + 1 ≤ len map * 3 ∨ ok = false →
  ∃ map',
    hashmap_insert ok map node key = Some (map', 0) ∧
    hashmap_get map' key' = hashmap_get map key'.
Proof.
  intros Hwf Hc Hfresh Hcons Hm Hcase.
  pose proof (inserted_wf ok map node key Hwf Hc Hfresh) as Hwf'.
  pose proof (linked_wf map node key Hwf Hc Hfresh) as Hwf1.
  destruct (inserted_callbacks ok map node key) as [Hh Hcmp].
  pose proof (inserted_matching ok map node key key' Hwf Hc Hfresh Hcons)
    as Hmatch.
  rewrite Hm in Hmatch. specialize (Hmatch ltac:(done)).
  exists (inserted ok map node key).
  split; [by apply hashmap_insert_spec|].
  rewrite !hashmap_get_matching, Hh, Hcmp, Hmatch by done. f_equal.
  destruct (grow_due (linked map node key) && ok) eqn:Hg; [|done].
  apply andb_true_iff in Hg as [Hg ->].
  apply grow_due_spec in Hg; [|done].
  cbn [len count linked set_count set_table] in Hg.
  destruct Hcase as [Hle|[?|?]]; [|lia|done].
  rewrite <- matches_bucket in Hle by done.
  destruct (matching _ _ _) as [|y [|z ms]]; [done|done|].
  cbn [length] in Hle. lia.
Qed.

Lemma insert_get_frame_witness :
  let map := Harness.table_of (Harness.insert_keys 0 48) in
  ∃ map',
    hashmap_insert true map 400 100 = Some (map', 0) ∧
    hashmap_get map' 36 = hashmap_get map 36.
Proof.
  intros map.
  apply (insert_get_frame true map 400 100 36).
  - apply table_of_wf; vm_decide.
  - vm_decide.
  - vm_decide.
  - apply hash_consistent_check. vm_decide.
  - vm_decide.
  - left. vm_compute. lia.
Defined.

(** With two links of a key, the insertion of another key changes what
    [hashmap_get] returns for the first one when it grows the array. *)
Example unrelated_insert_changes_lookup :
  let map := Harness.table_of
               (Harness.insert_keys 0 46
                  ++ [Insert 400 100 true; Insert 401 100 true]) in
  hashmap_get map 100 = Some (Some (HashNode 401 100)) ∧
  (λ r, hashmap_get r.1 100) <$> hashmap_insert true map 800 200
    = Some (Some (Some (HashNode 400 100))).
Proof. vm_decide. Qed.

(** X5: a removal does not change what [hashmap_get] returns for a key that
    no link of the removed key matches, whether it shrinks the array or
    not. *)
Theorem remove_get_frame {K : Type} (ok : bool) (map : hashmap K)
    (key key' : K) :
  wf map → hash_consistent map key' →
  (∀ x, x ∈ links map → cmp map x key = true → cmp map x key' = false) →
  ∃ map' r,
    hashmap_remove ok map key = Some (map', r) ∧
    hashmap_get map' key' = hashmap_get map key'.
Proof.
  intros Hwf Hcons Hdisj.
  destruct (matching (cmp map) key (bucket map (hash map key)))
    as [|x rest] eqn:Hm.
  { exists map, None. split; [|done].
    apply (hashmap_remove_absent ok map key (bucket map (hash map key)));
      [|done].
    unfold load. by apply table_bucket. }
  destruct (hashmap_remove_present ok map key x rest Hwf Hm)
    as (pre & post & Hb & Hpre & Hpost & Hrem).
  pose proof (removed_wf ok map _ pre x post Hwf Hb) as Hwf'.
  destruct (removed_callbacks ok map (hash map key) (pre ++ post))
    as [Hh Hc].
  exists (removed ok map (hash map key) (pre ++ post)), (Some x).
  split; [done|].
  rewrite !hashmap_get_matching, Hh, Hc by done. f_equal.
  rewrite (removed_matching ok map _ pre x post) by done.
  case_decide as Hslot; [|done].
  rewrite (bucket_slot map _ _ Hslot), Hb, !matching_app, matching_cons.
  assert (cmp map x key' = false) as ->; [|done].
  apply Hdisj.
  - apply (elem_of_bucket_links map (hash map key)); [done|].
    rewrite Hb. apply elem_of_app. right. apply elem_of_cons. by left.
  - eapply elem_of_matching. rewrite Hm. apply elem_of_cons. by left.
Qed.

Lemma remove_get_frame_witness :
  let map := Harness.table_of
               (Harness.insert_keys 0 49 ++ Harness.remove_keys 7 41) in
  ∃ map' r,
    hashmap_remove true map 48 = Some (map', r) ∧
    hashmap_get map' 3 = hashmap_get map 3.
Proof.
  intros map. apply (remove_get_frame true map 48 3).
  - apply table_of_wf; vm_decide.
  - apply hash_consistent_check. vm_decide.
  - apply no_common_link_check. vm_decide.
Defined.

(** ** A key with a single link *)

Section Unique.

Context {K : Type}.
Implicit Types (map : hashmap K) (key : K).

Lemma NoDup_fmap_elem_inj {A B : Type} (f : A → B) (l : list A) a b :
  NoDup (f <$> l) → a ∈ l → b ∈ l → f a = f b → a = b.
Proof.
  induction l as [|x l IH]; intros Hnd Ha Hb Hf; [by apply elem_of_nil in Ha|].
  rewrite fmap_cons in Hnd. apply NoDup_cons in Hnd as [Hx Hnd].
  apply elem_of_cons in Ha as [->|Ha]; apply elem_of_cons in Hb as [->|Hb].
  - done.
  - destruct Hx. rewrite Hf. by apply list_elem_of_fmap_2.
  - destruct Hx. rewrite <- Hf. by apply list_elem_of_fmap_2.
  - by apply IH.
Qed.

Lemma links_addr_inj map x y :
  wf map → x ∈ links map → y ∈ links map →
  node_addr x = node_addr y → x = y.
Proof.
  intros Hwf. apply NoDup_fmap_elem_inj, (wf_distinct _ Hwf).
Qed.

Lemma hashmap_get_unique map key x :
  wf map → x ∈ links map → node_hash x = hash map key →
  cmp map x key = true →
  (∀ y, y ∈ links map → cmp map y key = true → y = x) →
  hashmap_get map key = Some (Some x).
Proof.
  intros Hwf Hx Hh Hm Huniq. rewrite hashmap_get_spec by done. f_equal.
  apply chain_find_unique; [|done|].
  - rewrite <- Hh. by apply elem_of_links_bucket.
  - intros y Hy. apply Huniq. by eapply elem_of_bucket_links.
Qed.

Lemma hashmap_remove_unique ok map key x :
  wf map → x ∈ links map → node_hash x = hash map key →
  cmp map x key = true →
  (∀ y, y ∈ links map → cmp map y key = true → y = x) →
  ∃ map',
    hashmap_remove ok map key = Some (map', Some x) ∧
    wf map' ∧ hash map' = hash map ∧ cmp map' = cmp map ∧
    count map' = count map - 1 ∧
    links map ≡ₚ x :: links map' ∧
    (compact map → compact map').
Proof.
  intros Hwf Hx Hh Hm Huniq.
  assert (x ∈ bucket map (hash map key)) as Hb
    by (rewrite <- Hh; by apply elem_of_links_bucket).
  destruct (matching (cmp map) key (bucket map (hash map key)))
    as [|y rest] eqn:Hmatch.
  { rewrite matching_nil_iff in Hmatch. by rewrite (Hmatch x Hb) in Hm. }
  assert (y = x) as ->.
  { assert (y ∈ matching (cmp map) key (bucket map (hash map key))) as Hy
      by (rewrite Hmatch; apply elem_of_cons; by left).
    apply elem_of_matching in Hy as [Hy ?].
    apply Huniq; [by eapply elem_of_bucket_links|done]. }
  destruct (hashmap_remove_present ok map key x rest Hwf Hmatch)
    as (pre & post & Hbk & _ & _ & Hrem).
  destruct (removed_callbacks ok map (hash map key) (pre ++ post))
    as [? ?].
  exists (removed ok map (hash map key) (pre ++ post)).
  split; [done|]. split; [by eapply removed_wf|].
  split; [done|]. split; [done|]. split; [apply removed_count|].
  split; [by apply removed_links|by eapply removed_compact].
Qed.

End Unique.

(** ** Emptying the table *)

Section Drain.

Context {K : Type}.
Implicit Types (map : hashmap K) (key : K).
Implicit Types (ins rems : list (Z * K * bool)).

Lemma inserts_respect map ins :
  wf map → count map + Z.of_nat (length ins) ≤ MAX_LINKS →
  NoDup ((λ a, a.1.1) <$> ins) →
  (∀ a, a ∈ ins → fresh map a.1.1 = true) →
  respects map (insert_op <$> ins) = true.
Proof.
  revert map.
  induction ins as [|[[n k] ok] ins IH]; intros map Hwf Hc Hnd Hfresh; [done|].
  cbn [length] in Hc. rewrite fmap_cons in Hnd.
  apply NoDup_cons in Hnd as [Hn Hnd]. cbn [fst] in Hn.
  assert (fresh map n = true) as Hfn
    by (apply (Hfresh (n, k, ok)), elem_of_cons; by left).
  cbn [fmap list_fmap respects insert_op allowed step fst snd].
  rewrite Hfn, hashmap_insert_spec by (done || lia).
  cbn [fmap option_fmap option_map fst andb].
  apply IH; [apply inserted_wf; [done|lia|done]| |done|].
  - rewrite inserted_count. lia.
  - intros a Ha. apply inserted_fresh; [done|lia|done| |].
    + apply Hfresh, elem_of_cons. by right.
    + intros Heq. apply Hn. rewrite <- Heq.
      by apply (list_elem_of_fmap_2 (λ a, a.1.1)).
Qed.

Lemma run_removes map rems :
  wf map → compact map →
  links map ≡ₚ (λ a, HashNode a.1.1 (hash map a.1.2)) <$> rems →
  (∀ a b, a ∈ rems → b ∈ rems →
     cmp map (HashNode a.1.1 (hash map a.1.2)) b.1.2 = true ↔
     a.1.1 = b.1.1) →
  ∃ map',
    remove_all map ((λ a, (a.1.2, a.2)) <$> rems) =
      Some (map', (λ a, Some (HashNode a.1.1 (hash map a.1.2))) <$> rems) ∧
    wf map' ∧ compact map' ∧ links map' = [] ∧
    hash map' = hash map ∧ cmp map' = cmp map.
Proof.
  revert map.
  induction rems as [|b rems IH]; intros map Hwf Hcp Hl Hdist.
  { exists map. split; [done|]. split; [done|]. split; [done|].
    split; [by apply Permutation_nil_r|done]. }
  set (x := HashNode b.1.1 (hash map b.1.2)).
  assert (b ∈ b :: rems) as Hb by (apply elem_of_cons; by left).
  assert (x ∈ links map) as Hx.
  { rewrite Hl, fmap_cons. apply elem_of_cons. by left. }
  destruct (hashmap_remove_unique b.2 map b.1.2 x Hwf Hx)
    as (map1 & Hrem & Hwf1 & Hh1 & Hc1 & _ & Hl1 & Hcp1).
  - done.
  - by apply Hdist.
  - intros y Hy Hm. apply (links_addr_inj map); [done..|].
    rewrite Hl in Hy. apply list_elem_of_fmap in Hy as (a & -> & Ha).
    cbn [node_addr]. by apply (Hdist a b).
  - destruct (IH map1) as (map' & Hall & Hwf' & Hcp' & Hl' & Hh' & Hc').
    + done.
    + by apply Hcp1.
    + rewrite Hh1. apply (Permutation_cons_inv (a := x)).
      by rewrite <- Hl1, Hl.
    + intros a a' Ha Ha'. rewrite Hh1, Hc1.
      apply Hdist; apply elem_of_cons; by right.
    + exists map'. cbn [fmap list_fmap remove_all fst snd].
      rewrite Hrem. cbn [mbind option_bind fst snd].
      rewrite Hall. cbn [mbind option_bind fst snd]. rewrite Hh1.
      split; [done|]. split; [done|]. split; [done|]. split; [done|].
      split; congruence.
Qed.

End Drain.

(** X6: after links with distinct keys are inserted, [hashmap_remove] of
    their keys, in any order, returns each time the link inserted with the
    key, and leaves an empty table of [MIN_SLOTS] buckets, whichever
    reallocations have failed. *)
Theorem insert_all_remove_all {K : Type} (h : K → Z)
    (c : hash_node → K → bool) (ins rems : list (Z * K * bool)) :
  Z.of_nat (length ins) ≤ MAX_LINKS →
  NoDup ((λ a, a.1.1) <$> ins) →
  (∀ a b, a ∈ ins → b ∈ ins →
     c (HashNode a.1.1 (h a.1.2)) b.1.2 = true ↔ a.1.1 = b.1.1) →
  fst <$> rems ≡ₚ fst <$> ins →
  ∃ map map',
    run (hashmap_init true h c) (insert_op <$> ins) = Some map ∧
    count map = Z.of_nat (length ins) ∧
    remove_all map ((λ a, (a.1.2, a.2)) <$> rems) =
      Some (map', (λ a, Some (HashNode a.1.1 (h a.1.2))) <$> rems) ∧
    links map' = [] ∧ count map' = 0 ∧ len map' = MIN_SLOTS.
Proof.
  intros Hlen Hnd Hdist Hperm.
  destruct (run_inserts (hashmap_init true h c) ins (init_wf h c))
    as (map & Hrun & Hwf & Hh & Hcmp & Hcount & Hl);
    [cbn [count hashmap_init]; lia|done|done|].
  destruct (run_wf (hashmap_init true h c) (insert_op <$> ins) (init_wf h c))
    as (map0 & Hrun0 & _ & _ & _ & _ & Hcp & _).
  { rewrite length_fmap. cbn [count hashmap_init]. lia. }
  { apply inserts_respect; [apply init_wf| |done|done].
    cbn [count hashmap_init]. lia. }
  rewrite Hrun in Hrun0. injection Hrun0 as <-.
  specialize (Hcp (init_compact true h c)).
  cbn [hash cmp count hashmap_init] in Hh, Hcmp, Hcount, Hl.
  assert (∀ l : list (Z * K * bool),
            node_addr <$> ((λ a, HashNode a.1.1 (h a.1.2)) <$> l) =
            (λ a, a.1.1) <$> l) as Haddr.
  { intros l. by rewrite <- list_fmap_compose. }
  assert ((λ a, a.1.1) <$> rems ≡ₚ (λ a : Z * K * bool, a.1.1) <$> ins)
    as Hperm1.
  { assert (∀ l : list (Z * K * bool),
              (λ a, a.1.1) <$> l = fst <$> (fst <$> l)) as Hff
      by (intros l; by rewrite <- list_fmap_compose).
    by rewrite !Hff, Hperm. }
  assert (links map ≡ₚ (λ a, HashNode a.1.1 (h a.1.2)) <$> rems) as Hlinks.
  { apply NoDup_Permutation.
    - by apply links_NoDup.
    - apply (NoDup_fmap_1 node_addr). by rewrite Haddr, Hperm1.
    - intros x. rewrite Hl, init_links, list_elem_of_fmap. split.
      + intros [Hx|(a & Ha & ->)]; [by apply elem_of_nil in Hx|].
        assert (a.1 ∈ fst <$> rems) as Ha'
          by (rewrite Hperm; by apply list_elem_of_fmap_2).
        apply list_elem_of_fmap in Ha' as (b & Hab & Hb).
        exists b. by rewrite <- Hab.
      + intros (b & -> & Hb). right.
        assert (b.1 ∈ fst <$> ins) as Hb'
          by (rewrite <- Hperm; by apply list_elem_of_fmap_2).
        apply list_elem_of_fmap in Hb' as (a & Hab & Ha).
        exists a. by rewrite <- Hab. }
  destruct (run_removes map rems Hwf Hcp)
    as (map' & Hall & Hwf' & Hcp' & Hl' & _).
  { by rewrite Hh. }
  { intros a b Ha Hb. rewrite Hh, Hcmp.
    assert (a.1 ∈ fst <$> ins) as Ha'
      by (rewrite <- Hperm; by apply list_elem_of_fmap_2).
    assert (b.1 ∈ fst <$> ins) as Hb'
      by (rewrite <- Hperm; by apply list_elem_of_fmap_2).
    apply list_elem_of_fmap in Ha' as (a' & -> & Ha').
    apply list_elem_of_fmap in Hb' as (b' & -> & Hb').
    by apply Hdist. }
  rewrite Hh in Hall.
  assert (count map' = 0) as Hc0.
  { rewrite (wf_count _ Hwf'), Hl'. done. }
  exists map, map'. split; [done|]. split; [lia|]. split; [done|].
  split; [done|]. split; [done|].
  destruct Hcp' as [?|Hle]; [done|].
  pose proof (wf_len_range _ Hwf'). lia.
Qed.

Lemma insert_all_remove_all_witness :
  let ins := (λ i : nat, (4 * Z.of_nat i, Z.of_nat i, true)) <$> seq 0 100 in
  ∃ map map',
    run Harness.init (insert_op <$> ins) = Some map ∧
    len map = 64 ∧
    remove_all map ((λ a, (a.1.2, a.2)) <$> reverse ins) =
      Some (map', (λ a, Some (HashNode a.1.1 a.1.2)) <$> reverse ins) ∧
    len map' = 16.
Proof.
  intros ins.
  destruct (insert_all_remove_all Harness.hash_test Harness.cmp_test ins
              (reverse ins))
    as (map & map' & Hrun & _ & Hall & _ & _ & Hlen).
  - vm_decide.
  - unfold ins. rewrite <- list_fmap_compose.
    apply NoDup_fmap_2; [|apply NoDup_seq].
    intros i j Hij. cbn in Hij. lia.
  - intros a b Ha Hb. unfold ins in Ha, Hb.
    apply list_elem_of_fmap in Ha as (i & -> & _).
    apply list_elem_of_fmap in Hb as (j & -> & _).
    unfold Harness.cmp_test, Harness.test_i. cbn [node_addr fst snd].
    rewrite Z.mul_comm, Z.div_mul by done. rewrite Z.eqb_eq. lia.
  - by rewrite fmap_reverse, reverse_Permutation.
  - exists map, map'. split; [exact Hrun|]. split.
    { assert (Harness.table_of (insert_op <$> ins) = map) as <-.
      { unfold Harness.table_of, Harness.init. rewrite Hrun. reflexivity. }
      vm_decide. }
    split; [|exact Hlen]. rewrite Hall. reflexivity.
Defined.

(** ** The size of the bucket array *)

Section Footprint.

Context {K : Type}.
Implicit Types (map : hashmap K) (key : K) (o : op K) (ops : list (op K)).

Lemma inserted_exact ok map node key :
  wf map → count map < MAX_LINKS → fresh map node = true →
  length (table map) = slots map →
  length (table (inserted ok map node key)) =
    slots (inserted ok map node key).
Proof.
  intros Hwf Hc Hfresh Hex. unfold inserted.
  destruct (grow_due _ && ok); fields; unfold slots in *; fields.
  - rewrite length_grow_table; [lia|rewrite length_insert; lia].
  - by rewrite length_insert.
Qed.

Lemma removed_exact map h pre x post :
  wf map → bucket map h = pre ++ x :: post →
  length (table map) = slots map →
  length (table (removed true map h (pre ++ post))) =
    slots (removed true map h (pre ++ post)).
Proof.
  intros Hwf Hb Hex. unfold removed.
  pose proof (unlinked_wf map h pre x post Hwf Hb) as Hwf1.
  destruct (shrink_due _) eqn:Hs.
  - apply shrink_due_spec in Hs as [_ Hlt].
    destruct (wf_half _ Hwf1 Hlt) as (k & _ & _ & _ & _ & Hn).
    fields. unfold slots in *. fields.
    rewrite length_fold_table; [lia|rewrite length_insert; lia].
  - fields. unfold slots in *. fields. by rewrite length_insert.
Qed.

Lemma step_exact map o map' :
  wf map → count map < MAX_LINKS → allowed map o = true →
  shrinks_succeed [o] = true → length (table map) = slots map →
  step map o = Some map' → length (table map') = slots map'.
Proof.
  intros Hwf Hc Hal Hok Hex Hstep. destruct o as [node key ok|key ok].
  - cbn [step allowed] in *. rewrite hashmap_insert_spec in Hstep by done.
    injection Hstep as <-. by apply inserted_exact.
  - cbn [step shrinks_succeed forallb] in *.
    rewrite andb_true_r in Hok. subst ok.
    destruct (matching (cmp map) key (bucket map (hash map key)))
      as [|x rest] eqn:Hm.
    + rewrite (hashmap_remove_absent true map key
                 (bucket map (hash map key))) in Hstep;
        [|unfold load; by apply table_bucket|done].
      by injection Hstep as <-.
    + destruct (hashmap_remove_present true map key x rest Hwf Hm)
        as (pre & post & Hb & _ & _ & Hrem).
      rewrite Hrem in Hstep. injection Hstep as <-.
      by eapply removed_exact.
Qed.

Lemma run_exact map ops :
  wf map → count map + Z.of_nat (length ops) ≤ MAX_LINKS →
  respects map ops = true → shrinks_succeed ops = true →
  length (table map) = slots map →
  ∀ map', run map ops = Some map' → length (table map') = slots map'.
Proof.
  revert map. induction ops as [|o ops IH];
    intros map Hwf Hc Hres Hok Hex map' Hrun.
  { by injection Hrun as <-. }
  cbn [length] in Hc. cbn [respects] in Hres.
  apply andb_true_iff in Hres as [Hal Hres].
  cbn [shrinks_succeed forallb] in Hok.
  apply andb_true_iff in Hok as [Hok1 Hok].
  destruct (step_wf map o Hwf ltac:(lia) Hal)
    as (map1 & Hstep & Hwf1 & _ & _ & Hc1 & _).
  cbn [run] in Hrun. rewrite Hstep in Hres, Hrun.
  cbn [mbind option_bind] in Hrun.
  apply (IH map1); [done|lia|done|done| |done].
  apply (step_exact map o); [done|lia|done| |done|done].
  cbn [shrinks_succeed forallb]. by rewrite Hok1.
Qed.

End Footprint.

(** X7: after every sequence of operations the bucket array is no larger
    than removals leave it: [len] is [MIN_SLOTS] or at most [4 * count], so
    that an emptied table is back to [MIN_SLOTS] buckets, whichever
    reallocations have failed.  The allocated block holds at least [len]
    pointers, and exactly [len] when no [hashmap_shrink] has met a failing
    reallocation. *)
Theorem table_stays_compact {K : Type} (h : K → Z)
    (c : hash_node → K → bool) (ops : list (op K)) :
  Z.of_nat (length ops) ≤ MAX_LINKS →
  respects (hashmap_init true h c) ops = true →
  ∃ map,
    run (hashmap_init true h c) ops = Some map ∧
    (len map = MIN_SLOTS ∨ len map ≤ 4 * count map) ∧
    (count map = 0 → len map = MIN_SLOTS) ∧
    len map ≤ Z.of_nat (length (table map)) ∧
    (shrinks_succeed ops = true → Z.of_nat (length (table map)) = len map).
Proof.
  intros Hlen Hres.
  destruct (run_wf (hashmap_init true h c) ops (init_wf h c))
    as (map & Hrun & Hwf & _ & _ & _ & Hcp & _);
    [cbn [count hashmap_init]; lia|done|].
  specialize (Hcp (init_compact true h c)).
  pose proof (wf_len_range _ Hwf) as Hr.
  pose proof (wf_capacity _ Hwf) as Hcap.
  pose proof (wf_slots _ Hwf) as Hslots.
  exists map. split; [done|]. split; [done|].
  split; [destruct Hcp; lia|]. split; [lia|].
  intros Hok. rewrite Hslots. f_equal.
  apply (run_exact (hashmap_init true h c) ops);
    first [done | apply init_wf | cbn [count hashmap_init]; lia].
Qed.

Lemma table_stays_compact_witness :
  ∃ map,
    run Harness.init (Harness.insert_keys 0 200 ++ Harness.remove_keys 0 190)
      = Some map ∧
    count map = 10 ∧ len map = 32 ∧ length (table map) = 32%nat.
Proof.
  destruct (table_stays_compact Harness.hash_test Harness.cmp_test
              (Harness.insert_keys 0 200 ++ Harness.remove_keys 0 190))
    as (map & Hrun & _ & _ & _ & Hex); [vm_decide..|].
  exists map. split; [exact Hrun|].
  assert (Harness.table_of
            (Harness.insert_keys 0 200 ++ Harness.remove_keys 0 190) = map)
    as Hmap.
  { unfold Harness.table_of, Harness.init. rewrite Hrun. reflexivity. }
  assert (len map = 32) as Hlen by (rewrite <- Hmap; vm_decide).
  split; [rewrite <- Hmap; vm_decide|]. split; [done|].
  specialize (Hex ltac:(vm_decide)). lia.
Defined.

(** ** A shrink whose reallocation fails *)

Section SameBuckets.

Context {K : Type}.
Implicit Types (map m : hashmap K) (key : K) (o : op K).
Implicit Types (ops : list (op K)).

Lemma same_buckets_bucket m1 m2 h :
  wf m1 → wf m2 → same_buckets m1 m2 → bucket m1 h = bucket m2 h.
Proof.
  intros Hwf1 Hwf2 (Hlen & _ & _ & _ & Hb).
  pose proof (buckets_bucket m1 h Hwf1) as H1.
  pose proof (buckets_bucket m2 h Hwf2) as H2.
  unfold slot_of in *. rewrite Hlen, Hb in H1. congruence.
Qed.

Lemma same_buckets_links m1 m2 : same_buckets m1 m2 → links m1 = links m2.
Proof. intros (_ & _ & _ & _ & Hb). unfold links. by rewrite Hb. Qed.

Lemma same_buckets_allowed m1 m2 o :
  same_buckets m1 m2 → allowed m1 o = allowed m2 o.
Proof.
  intros Hs. destruct o; [|done].
  cbn [allowed]. unfold fresh, addresses.
  by rewrite (same_buckets_links m1 m2).
Qed.

Lemma buckets_linked map node key :
  wf map →
  buckets (linked map node key) =
    <[Z.to_nat (slot_of map (hash map key)) :=
        HashNode node (hash map key) :: bucket map (hash map key)]>
      (buckets map).
Proof.
  intros Hwf. unfold buckets, slots. fields.
  apply take_insert_lt, slot_of_lt, Hwf.
Qed.

Lemma buckets_unlinked map h rest :
  wf map →
  buckets (unlinked map h rest) =
    <[Z.to_nat (slot_of map h) := rest]> (buckets map).
Proof.
  intros Hwf. unfold buckets, slots. fields.
  apply take_insert_lt, slot_of_lt, Hwf.
Qed.

Lemma buckets_grown map :
  wf map →
  buckets (grown map) =
    (split_lo (len map) <$> buckets map)
      ++ (split_hi (len map) <$> buckets map).
Proof. intros Hwf. by rewrite grown_buckets. Qed.

Lemma fold_table_take n (t : list chain) :
  fold_table n (take (n + n) t) = fold_table n t.
Proof.
  unfold fold_table.
  rewrite take_take, Nat.min_l by lia. f_equal.
  by rewrite (take_drop_commute (take (n + n) t) n n), take_idemp,
    <- take_drop_commute.
Qed.

Lemma buckets_shrunk ok map :
  wf map → MIN_SLOTS < len map →
  buckets (shrunk ok map) = fold_table (Z.to_nat (len map / 2)) (buckets map).
Proof.
  intros Hwf Hlt. rewrite shrunk_buckets by done.
  destruct (wf_half _ Hwf Hlt) as (k & _ & _ & _ & _ & Hn).
  unfold buckets. by rewrite <- Hn, fold_table_take.
Qed.

Lemma same_buckets_inserted ok m1 m2 node key :
  wf m1 → wf m2 → count m1 < MAX_LINKS → fresh m1 node = true →
  same_buckets m1 m2 →
  same_buckets (inserted ok m1 node key) (inserted ok m2 node key).
Proof.
  intros Hwf1 Hwf2 Hc Hfresh Hs.
  pose proof (same_buckets_bucket m1 m2 (hash m1 key) Hwf1 Hwf2 Hs) as Hbk.
  pose proof (same_buckets_allowed m1 m2 (Insert node key ok) Hs) as Hal.
  cbn [allowed] in Hal.
  destruct Hs as (Hlen & Hcount & Hh & Hcmp & Hb).
  assert (same_buckets (linked m1 node key) (linked m2 node key)) as Hl.
  { unfold same_buckets.
    rewrite !buckets_linked by done. unfold slot_of. fields.
    by rewrite <- Hlen, <- Hcount, <- Hh, <- Hcmp, <- Hb, <- Hbk. }
  unfold inserted.
  assert (grow_due (linked m2 node key) = grow_due (linked m1 node key))
    as ->.
  { unfold grow_due. fields. by rewrite Hlen, Hcount. }
  destruct (grow_due _ && ok); [|done].
  destruct Hl as (Hlen' & Hcount' & Hh' & Hcmp' & Hb').
  unfold same_buckets.
  rewrite !buckets_grown
    by (apply linked_wf; [done| |]; congruence).
  rewrite Hb'. fields. by rewrite Hlen, Hcount, Hh, Hcmp.
Qed.

Lemma same_buckets_removed ok ok' m1 m2 h pre x post :
  wf m1 → wf m2 → bucket m1 h = pre ++ x :: post →
  same_buckets m1 m2 →
  same_buckets (removed ok m1 h (pre ++ post))
               (removed ok' m2 h (pre ++ post)).
Proof.
  intros Hwf1 Hwf2 Hbk1 Hs.
  pose proof (same_buckets_bucket m1 m2 h Hwf1 Hwf2 Hs) as Hbk.
  rewrite Hbk1 in Hbk. symmetry in Hbk.
  pose proof (unlinked_wf m1 h pre x post Hwf1 Hbk1) as Hwf1'.
  pose proof (unlinked_wf m2 h pre x post Hwf2 Hbk) as Hwf2'.
  destruct Hs as (Hlen & Hcount & Hh & Hcmp & Hb).
  assert (same_buckets (unlinked m1 h (pre ++ post))
                       (unlinked m2 h (pre ++ post))) as Hl.
  { unfold same_buckets.
    rewrite !buckets_unlinked by done. unfold slot_of. fields.
    by rewrite <- Hlen, <- Hcount, <- Hh, <- Hcmp, <- Hb. }
  unfold removed.
  assert (shrink_due (unlinked m2 h (pre ++ post)) =
          shrink_due (unlinked m1 h (pre ++ post))) as ->.
  { unfold shrink_due. fields. by rewrite Hlen, Hcount. }
  destruct (shrink_due _) eqn:Hdue; [|done].
  apply shrink_due_spec in Hdue as [_ Hlt].
  destruct Hl as (Hlen' & Hcount' & Hh' & Hcmp' & Hb').
  unfold same_buckets.
  rewrite !buckets_shrunk by (done || by rewrite <- Hlen').
  rewrite Hb'. fields. by rewrite Hlen, Hcount, Hh, Hcmp.
Qed.

Lemma same_buckets_step m1 m2 o :
  wf m1 → wf m2 → same_buckets m1 m2 →
  count m1 < MAX_LINKS → allowed m1 o = true →
  ∃ m1' m2',
    step m1 o = Some m1' ∧ step m2 o = Some m2' ∧
    wf m1' ∧ wf m2' ∧ same_buckets m1' m2' ∧ count m1' ≤ count m1 + 1.
Proof.
  intros Hwf1 Hwf2 Hs Hc Hal.
  pose proof (same_buckets_allowed m1 m2 o Hs) as Hal2.
  rewrite Hal in Hal2. symmetry in Hal2.
  pose proof Hs as (Hlen & Hcount & Hh & Hcmp & Hb).
  destruct o as [node key ok|key ok]; cbn [step allowed] in *.
  - exists (inserted ok m1 node key), (inserted ok m2 node key).
    rewrite !hashmap_insert_spec by (done || lia).
    split; [done|]. split; [done|].
    split; [by apply inserted_wf|].
    split; [apply inserted_wf; [done|lia|done]|].
    split; [by apply same_buckets_inserted|].
    rewrite inserted_count. lia.
  - pose proof (same_buckets_bucket m1 m2 (hash m1 key) Hwf1 Hwf2 Hs)
      as Hbk1.
    destruct (matching (cmp m1) key (bucket m1 (hash m1 key)))
      as [|x rest] eqn:Hm.
    + exists m1, m2.
      rewrite (hashmap_remove_absent ok m1 key (bucket m1 (hash m1 key)));
        [|unfold load; by apply table_bucket|done].
      rewrite (hashmap_remove_absent ok m2 key (bucket m2 (hash m2 key)));
        [|unfold load; by apply table_bucket
         |by rewrite <- Hh, <- Hcmp, <- Hbk1].
      repeat (split; [done|]). lia.
    + destruct (hashmap_remove_present ok m1 key x rest Hwf1 Hm)
        as (pre & post & Hbk' & Hpre & _ & Hrem).
      assert (cmp m1 x key = true) as Hx.
      { eapply elem_of_matching. rewrite Hm. apply elem_of_cons. by left. }
      exists (removed ok m1 (hash m1 key) (pre ++ post)),
             (removed ok m2 (hash m1 key) (pre ++ post)).
      split; [by rewrite Hrem|]. split.
      { rewrite (hashmap_remove_at ok m2 key pre x post);
          rewrite <- ?Hh, <- ?Hcmp, <- ?Hbk1; done. }
      split; [by eapply removed_wf|].
      split; [eapply removed_wf; [done|by rewrite <- Hbk1]|].
      split; [by eapply same_buckets_removed|].
      rewrite removed_count. lia.
Qed.

Lemma same_buckets_run m1 m2 ops :
  wf m1 → wf m2 → same_buckets m1 m2 →
  count m1 + Z.of_nat (length ops) ≤ MAX_LINKS →
  respects m1 ops = true →
  ∃ m1' m2',
    run m1 ops = Some m1' ∧ run m2 ops = Some m2' ∧
    wf m1' ∧ wf m2' ∧ same_buckets m1' m2'.
Proof.
  revert m1 m2. induction ops as [|o ops IH];
    intros m1 m2 Hwf1 Hwf2 Hs Hc Hres.
  { by exists m1, m2. }
  cbn [length] in Hc. cbn [respects] in Hres.
  apply andb_true_iff in Hres as [Hal Hres].
  destruct (same_buckets_step m1 m2 o Hwf1 Hwf2 Hs ltac:(lia) Hal)
    as (m1' & m2' & Hs1 & Hs2 & Hwf1' & Hwf2' & Hs' & Hc').
  rewrite Hs1 in Hres. cbn [run]. rewrite Hs1, Hs2.
  cbn [mbind option_bind]. apply IH; [done|done|done|lia|done].
Qed.

Lemma same_buckets_get m1 m2 key :
  wf m1 → wf m2 → same_buckets m1 m2 →
  hashmap_get m1 key = hashmap_get m2 key.
Proof.
  intros Hwf1 Hwf2 Hs. rewrite !hashmap_get_spec by done.
  rewrite <- (same_buckets_bucket m1 m2) by done.
  destruct Hs as (_ & _ & Hh & Hcmp & _). by rewrite Hh, Hcmp.
Qed.

Lemma same_buckets_remove ok ok' m1 m2 key :
  wf m1 → wf m2 → same_buckets m1 m2 →
  snd <$> hashmap_remove ok m1 key = snd <$> hashmap_remove ok' m2 key.
Proof.
  intros Hwf1 Hwf2 Hs. rewrite !hashmap_remove_result by done.
  rewrite <- (same_buckets_bucket m1 m2) by done.
  destruct Hs as (_ & _ & Hh & Hcmp & _). by rewrite Hh, Hcmp.
Qed.

End SameBuckets.

(** X8: a [hashmap_remove] whose [hashmap_shrink] meets a failing
    reallocation returns the same link and leaves a table with the same
    [len], [count] and chains as when the reallocation succeeds; only the
    size of the block differs.  Every later sequence of operations is
    defined on both tables and leaves them with the same buckets, so that
    every [hashmap_get] and [hashmap_remove] returns the same link on
    both. *)
Theorem shrink_failure_unobservable {K : Type} (map : hashmap K) (key : K) :
  wf map →
  ∃ ma mb r,
    hashmap_remove true map key = Some (ma, r) ∧
    hashmap_remove false map key = Some (mb, r) ∧
    len ma = len mb ∧ count ma = count mb ∧ buckets ma = buckets mb ∧
    ∀ ops,
      count map + Z.of_nat (length ops) ≤ MAX_LINKS →
      respects ma ops = true →
      ∃ ma' mb',
        run ma ops = Some ma' ∧ run mb ops = Some mb' ∧
        len ma' = len mb' ∧ count ma' = count mb' ∧
        buckets ma' = buckets mb' ∧
        (∀ key', hashmap_get ma' key' = hashmap_get mb' key') ∧
        (∀ ok ok' key',
           snd <$> hashmap_remove ok ma' key' =
           snd <$> hashmap_remove ok' mb' key').
Proof.
  intros Hwf.
  assert (∃ ma mb r,
            hashmap_remove true map key = Some (ma, r) ∧
            hashmap_remove false map key = Some (mb, r) ∧
            wf ma ∧ wf mb ∧ same_buckets ma mb ∧ count ma ≤ count map)
    as (ma & mb & r & Hra & Hrb & Hwfa & Hwfb & Hs & Hc).
  { destruct (matching (cmp map) key (bucket map (hash map key)))
      as [|x rest] eqn:Hm.
    - exists map, map, None.
      rewrite !(hashmap_remove_absent _ map key (bucket map (hash map key)))
        by (done || unfold load; by apply table_bucket).
      do 4 (split; [done|]). split; [by unfold same_buckets|lia].
    - destruct (hashmap_remove_present true map key x rest Hwf Hm)
        as (pre & post & Hb & Hpre & _ & Hrem).
      assert (cmp map x key = true) as Hx.
      { eapply elem_of_matching. rewrite Hm. apply elem_of_cons. by left. }
      exists (removed true map (hash map key) (pre ++ post)),
             (removed false map (hash map key) (pre ++ post)), (Some x).
      split; [done|].
      split; [by apply hashmap_remove_at|].
      split; [by eapply removed_wf|]. split; [by eapply removed_wf|].
      split; [by eapply same_buckets_removed|].
      rewrite removed_count. lia. }
  exists ma, mb, r. split; [done|]. split; [done|].
  pose proof Hs as (? & ? & _ & _ & ?).
  split; [done|]. split; [done|]. split; [done|].
  intros ops Hlen Hres.
  destruct (same_buckets_run ma mb ops Hwfa Hwfb Hs ltac:(lia) Hres)
    as (ma' & mb' & Hruna & Hrunb & Hwfa' & Hwfb' & Hs').
  exists ma', mb'. split; [done|]. split; [done|].
  pose proof Hs' as (? & ? & _ & _ & ?).
  split; [done|]. split; [done|]. split; [done|]. split.
  - intros key'. by apply same_buckets_get.
  - intros ok ok' key'. by apply same_buckets_remove.
Qed.

Lemma shrink_failure_unobservable_witness :
  let map := Harness.table_of
               (Harness.insert_keys 0 49 ++ Harness.remove_keys 7 41) in
  ∃ ma mb,
    hashmap_remove true map 48 = Some (ma, Some (HashNode 192 48)) ∧
    hashmap_remove false map 48 = Some (mb, Some (HashNode 192 48)) ∧
    len mb = 16 ∧ buckets ma = buckets mb ∧
    length (table ma) = 16%nat ∧ length (table mb) = 32%nat.
Proof.
  intros map.
  destruct (shrink_failure_unobservable map 48)
    as (ma & mb & r & Hra & Hrb & Hlen & _ & Hb & _).
  - apply table_of_wf; vm_decide.
  - assert (r = Some (HashNode 192 48)) as ->.
    { assert (snd <$> hashmap_remove true map 48 = Some r) as Hr
        by (by rewrite Hra).
      vm_compute in Hr. by injection Hr as <-. }
    exists ma, mb. split; [exact Hra|]. split; [exact Hrb|].
    assert ((λ p : hashmap Z * option hash_node, length (table p.1))
              <$> hashmap_remove true map 48 = Some 16%nat) as Hta
      by vm_decide.
    assert ((λ p : hashmap Z * option hash_node,
               (len p.1, length (table p.1)))
              <$> hashmap_remove false map 48 = Some (16, 32%nat)) as Htb
      by vm_decide.
    rewrite Hra in Hta. rewrite Hrb in Htb.
    injection Hta as Hta. injection Htb as Hlb Htb.
    split; [exact Hlb|]. split; [exact Hb|]. split; [exact Hta|exact Htb].
Defined.

(** X9: a table that [hashmap_init] has just set up has [MIN_SLOTS] empty
    buckets: for every key, whatever its hash, [hashmap_get] and
    [hashmap_remove] report absence and the removal leaves the table as it
    is. *)
Theorem init_empty {K : Type} (h : K → Z) (c : hash_node → K → bool)
    (ok : bool) (key : K) :
  len (hashmap_init true h c) = MIN_SLOTS ∧
  count (hashmap_init true h c) = 0 ∧
  links (hashmap_init true h c) = [] ∧
  hashmap_get (hashmap_init true h c) key = Some None ∧
  hashmap_remove ok (hashmap_init true h c) key
    = Some (hashmap_init true h c, None).
Proof.
  pose proof (init_wf h c) as Hwf.
  assert (bucket (hashmap_init true h c) (h key) = []) as Hb.
  { destruct (bucket (hashmap_init true h c) (h key)) as [|x ch] eqn:Hb;
      [done|].
    assert (x ∈ links (hashmap_init true h c)) as Hx.
    { apply (elem_of_bucket_links _ (h key)); [done|].
      rewrite Hb. apply elem_of_cons. by left. }
    rewrite init_links in Hx. by apply elem_of_nil in Hx. }
  split; [done|]. split; [done|]. split; [apply init_links|]. split.
  - rewrite hashmap_get_spec by done.
    cbn [hash cmp hashmap_init]. by rewrite Hb.
  - apply (hashmap_remove_absent ok _ key []); [|done].
    unfold load. rewrite <- Hb. by apply table_bucket.
Qed.

(** ** Where the links are *)

Section Placement.

Context {K : Type}.
Implicit Types (map : hashmap K) (key : K) (o : op K) (ops : list (op K)).

Lemma step_links map o map' x :
  wf map → count map < MAX_LINKS → allowed map o = true →
  step map o = Some map' → x ∈ links map' →
  x ∈ links map ∨
  ∃ node key ok, o = Insert node key ok ∧ x = HashNode node (hash map key).
Proof.
  intros Hwf Hc Hal Hstep Hx. destruct o as [node key ok|key ok].
  - cbn [step allowed] in *. rewrite hashmap_insert_spec in Hstep by done.
    injection Hstep as <-. rewrite inserted_links in Hx by done.
    apply elem_of_cons in Hx as [->|Hx]; [right|by left].
    by exists node, key, ok.
  - left. cbn [step] in Hstep.
    destruct (matching (cmp map) key (bucket map (hash map key)))
      as [|y rest] eqn:Hm.
    + rewrite (hashmap_remove_absent ok map key
                 (bucket map (hash map key))) in Hstep;
        [|unfold load; by apply table_bucket|done].
      by injection Hstep as <-.
    + destruct (hashmap_remove_present ok map key y rest Hwf Hm)
        as (pre & post & Hb & _ & _ & Hrem).
      rewrite Hrem in Hstep. injection Hstep as <-.
      rewrite (removed_links ok map _ pre y post Hwf Hb).
      apply elem_of_cons. by right.
Qed.

Lemma run_links map ops map' x :
  wf map → count map + Z.of_nat (length ops) ≤ MAX_LINKS →
  respects map ops = true →
  run map ops = Some map' → x ∈ links map' →
  x ∈ links map ∨
  ∃ node key ok,
    Insert node key ok ∈ ops ∧ x = HashNode node (hash map key).
Proof.
  revert map. induction ops as [|o ops IH];
    intros map Hwf Hc Hres Hrun Hx.
  { injection Hrun as <-. by left. }
  cbn [length] in Hc. cbn [respects] in Hres.
  apply andb_true_iff in Hres as [Hal Hres].
  destruct (step_wf map o Hwf ltac:(lia) Hal)
    as (map1 & Hstep & Hwf1 & Hh1 & _ & Hc1 & _).
  cbn [run] in Hrun. rewrite Hstep in Hres, Hrun.
  cbn [mbind option_bind] in Hrun.
  destruct (IH map1 Hwf1 ltac:(lia) Hres Hrun Hx)
    as [Hx1|(node & key & ok & Hin & ->)].
  - destruct (step_links map o map1 x Hwf ltac:(lia) Hal Hstep Hx1)
      as [?|(node & key & ok & -> & ->)]; [by left|right].
    exists node, key, ok. split; [apply elem_of_cons; by left|done].
  - right. exists node, key, ok. rewrite Hh1.
    split; [apply elem_of_cons; by right|done].
Qed.

End Placement.

(** X10: after every sequence of operations that respects the contract of
    [hashmap_insert], every link of the table is a node that an insertion of
    the sequence has linked, with the hash of the key of that insertion in
    its [hash] field; it is in the bucket that the low bits of this cached
    hash select, and no node is linked twice. *)
Theorem links_in_their_buckets {K : Type} (h : K → Z)
    (c : hash_node → K → bool) (ops : list (op K)) :
  Z.of_nat (length ops) ≤ MAX_LINKS →
  respects (hashmap_init true h c) ops = true →
  ∃ map,
    run (hashmap_init true h c) ops = Some map ∧
    NoDup (node_addr <$> links map) ∧
    (∀ x, x ∈ links map →
       ∃ node key ok, Insert node key ok ∈ ops ∧ x = HashNode node (h key)) ∧
    (∀ (i : Z) ch x,
       load (table map) i = Some ch → 0 ≤ i < len map → x ∈ ch →
       Z.land (node_hash x) (len map - 1) = i) ∧
    (∀ x, x ∈ links map →
       ∃ ch, load (table map) (slot_of map (node_hash x)) = Some ch ∧
             x ∈ ch).
Proof.
  intros Hlen Hres.
  destruct (run_wf (hashmap_init true h c) ops (init_wf h c))
    as (map & Hrun & Hwf & _);
    [cbn [count hashmap_init]; lia|done|].
  exists map. split; [done|]. split; [apply (wf_distinct _ Hwf)|].
  split; [|split].
  - intros x Hx.
    destruct (run_links (hashmap_init true h c) ops map x (init_wf h c))
      as [Hx0|?]; [cbn [count hashmap_init]; lia|done|done|done| |done].
    rewrite init_links in Hx0. by apply elem_of_nil in Hx0.
  - intros i ch x Hl Hi Hx.
    rewrite <- (Z2Nat.id i) by lia.
    apply (wf_slot _ Hwf _ ch); [|done].
    unfold buckets, load in *. rewrite lookup_take_lt; [done|].
    unfold slots. lia.
  - intros x Hx. exists (bucket map (node_hash x)).
    split; [unfold load; by apply table_bucket|].
    by apply elem_of_links_bucket.
Qed.

Lemma links_in_their_buckets_witness :
  ∃ map,
    run Harness.init (Harness.insert_keys 0 49 ++ Harness.remove_keys 3 5)
      = Some map ∧
    load (table map) (slot_of map 20) = Some [HashNode 80 20].
Proof.
  destruct (links_in_their_buckets Harness.hash_test Harness.cmp_test
              (Harness.insert_keys 0 49 ++ Harness.remove_keys 3 5))
    as (map & Hrun & _); [vm_decide..|].
  exists map. split; [exact Hrun|].
  assert (Harness.table_of
            (Harness.insert_keys 0 49 ++ Harness.remove_keys 3 5) = map)
    as <-.
  { unfold Harness.table_of, Harness.init. rewrite Hrun. reflexivity. }
  vm_decide.
Defined.

(** ** The assertions of [main] *)

Section MainRuns.

Import Main.

Variable env : libc.
Variable cnt : Z.

Hypothesis count_range : 0 < cnt ≤ INT_MAX - 123.
Hypothesis calloc_not_null :
  ∀ i, 0 ≤ i < cnt → calloc_test env i ≠ 0.
Hypothesis calloc_distinct :
  ∀ i j, 0 ≤ i < j → j < cnt → calloc_test env i ≠ calloc_test env j.

Implicit Types (map : hashmap key) (mem : memory) (n todo : nat).

Lemma int_Ok z : INT_MIN ≤ z ≤ INT_MAX → int z = Ok z.
Proof.
  intros Hz. unfold int.
  by rewrite (proj2 (Z.leb_le _ _)), (proj2 (Z.leb_le _ _)) by lia.
Qed.

Lemma int_range_count z : - 1 ≤ z ≤ cnt + 123 → INT_MIN ≤ z ≤ INT_MAX.
Proof. unfold INT_MIN, INT_MAX in *. lia. Qed.

Lemma calloc_inj (i j : nat) :
  Z.of_nat i < cnt → Z.of_nat j < cnt →
  calloc_test env (Z.of_nat i) = calloc_test env (Z.of_nat j) → i = j.
Proof.
  intros Hi Hj Heq.
  destruct (decide (i < j)%nat) as [Hlt|].
  { destruct (calloc_distinct (Z.of_nat i) (Z.of_nat j)); [lia|lia|done]. }
  destruct (decide (j < i)%nat) as [Hlt|]; [|lia].
  destruct (calloc_distinct (Z.of_nat j) (Z.of_nat i)); [lia|lia|done].
Qed.

Lemma elem_of_node_of n x :
  x ∈ node_of env <$> seq 0 n ↔ ∃ j : nat, (j < n)%nat ∧ x = node_of env j.
Proof.
  rewrite list_elem_of_fmap. split.
  - intros (j & -> & Hj). exists j. apply elem_of_seq in Hj. split; [lia|done].
  - intros (j & Hj & ->). exists j. split; [done|]. apply elem_of_seq. lia.
Qed.

(** The record of a key is the one link that [cmp_test] accepts for it. *)
Lemma holds_key n N map mem (k : nat) :
  holds env n map → filled env N mem → (n ≤ N)%nat → Z.of_nat N ≤ cnt →
  (k < n)%nat →
  node_of env k ∈ links map ∧
  node_hash (node_of env k) = hash map (mem, Z.of_nat k) ∧
  cmp map (node_of env k) (mem, Z.of_nat k) = true ∧
  (∀ y, y ∈ links map → cmp map y (mem, Z.of_nat k) = true →
        y = node_of env k) ∧
  mem (node_addr (node_of env k))
    = Some (Test (Z.of_nat k) (Z.of_nat k + 123)).
Proof.
  intros (Hwf & _ & Hh & Hc & _ & Hl) Hmem HnN HN Hk.
  rewrite Hh, Hc.
  assert (∀ j : nat, (j < n)%nat →
            cmp_test (node_of env j) (mem, Z.of_nat k)
              = (Z.of_nat j =? Z.of_nat k)) as Hcmp.
  { intros j Hj. unfold cmp_test. cbn [fst snd node_addr node_of].
    by rewrite Hmem by lia. }
  split; [rewrite Hl; apply elem_of_node_of; by exists k|].
  split; [done|]. split; [rewrite Hcmp by done; by apply Z.eqb_eq|].
  split; [|apply Hmem; lia].
  intros y Hy Hm. rewrite Hl in Hy.
  apply elem_of_node_of in Hy as (j & Hj & ->).
  rewrite Hcmp in Hm by done. apply Z.eqb_eq in Hm. f_equal. lia.
Qed.

Lemma check_test_ok mem (k : nat) :
  Z.of_nat k < cnt →
  mem (node_addr (node_of env k))
    = Some (Test (Z.of_nat k) (Z.of_nat k + 123)) →
  check_test mem (node_of env k) (Z.of_nat k) = Ok ().
Proof.
  intros Hk Hmem. unfold check_test. rewrite Hmem.
  cbn [defined mbind exec_bind test_i test_j].
  rewrite Z.eqb_refl, int_Ok by (apply int_range_count; lia).
  cbn [mbind exec_bind]. by rewrite Z.eqb_refl.
Qed.

Lemma readable_ok n N map mem :
  holds env n map → filled env N mem → (n ≤ N)%nat →
  readable mem map = Ok ().
Proof.
  intros (_ & _ & _ & _ & _ & Hl) Hmem HnN. unfold readable.
  rewrite (proj2 (forallb_forall _ _)); [done|].
  intros x Hx%list_elem_of_In. rewrite Hl in Hx.
  apply elem_of_node_of in Hx as (j & Hj & ->).
  apply bool_decide_eq_true. cbn [node_addr node_of].
  by rewrite Hmem by lia.
Qed.

Lemma holds_init :
  holds env 0 (hashmap_init true hash_test cmp_test).
Proof.
  split; [apply init_wf|]. split; [apply init_compact|].
  do 3 (split; [done|]). by rewrite init_links.
Qed.

Lemma insert_loop_holds todo n map mem :
  holds env n map → filled env n mem →
  Z.of_nat (n + todo) ≤ cnt →
  ∃ map' mem',
    insert_loop env todo (Z.of_nat n) map mem = Ok (map', mem') ∧
    holds env (n + todo) map' ∧ filled env (n + todo) mem'.
Proof.
  revert n map mem.
  induction todo as [|todo IH]; intros n map mem Hmap Hmem Hle.
  { exists map, mem. rewrite Nat.add_0_r. done. }
  destruct Hmap as (Hwf & Hcp & Hh & Hc & Hcount & Hl).
  set (t := calloc_test env (Z.of_nat n)).
  set (mem' := store_test mem t (Test (Z.of_nat n) (Z.of_nat n + 123))).
  set (ok := realloc_grow env (Z.of_nat n)).
  assert (count map < MAX_LINKS) as Hlt.
  { rewrite MAX_LINKS_eq. unfold INT_MAX in *. lia. }
  assert (fresh map t = true) as Hfresh.
  { apply fresh_spec. unfold addresses. rewrite Hl.
    intros (x & Hx & (j & Hj & ->)%elem_of_node_of)%list_elem_of_fmap.
    cbn [node_addr node_of] in Hx. apply calloc_inj in Hx; lia. }
  destruct (IH (S n) (inserted ok map t (mem', Z.of_nat n)) mem')
    as (map' & mem'' & Hloop & Hmap' & Hmem').
  - unfold holds.
    destruct (inserted_callbacks ok map t (mem', Z.of_nat n)) as [-> ->].
    split; [by apply inserted_wf|]. split; [by apply inserted_compact|].
    do 2 (split; [done|]). split; [rewrite inserted_count; lia|].
    rewrite inserted_links by done. rewrite seq_S, fmap_app, Hh.
    cbn [fmap list_fmap plus]. rewrite <- Permutation_cons_append.
    by rewrite Hl.
  - intros j Hj. unfold mem', store_test. case_decide as Heq.
    + apply calloc_inj in Heq as ->; [done|lia..].
    + apply Hmem. destruct (decide (j = n)) as [->|]; [done|lia].
  - lia.
  - exists map', mem''. rewrite <- Nat.add_succ_comm. split; [|done].
    cbn [insert_loop]. fold t.
    rewrite (proj2 (Z.eqb_neq t 0)) by (apply calloc_not_null; lia).
    rewrite (int_Ok (Z.of_nat n + 123)) by (apply int_range_count; lia).
    cbn [mbind exec_bind]. fold mem' ok.
    rewrite hashmap_insert_spec by done. cbn [defined mbind exec_bind fst].
    rewrite (int_Ok (Z.of_nat n + 1)) by (apply int_range_count; lia).
    cbn [mbind exec_bind].
    by replace (Z.of_nat n + 1) with (Z.of_nat (S n)) by lia.
Qed.

Lemma get_loop_ok N map mem todo (i : Z) :
  holds env N map → filled env N mem → Z.of_nat N = cnt →
  0 ≤ i → i + Z.of_nat todo ≤ INT_MAX →
  (∀ i', i ≤ i' < i + Z.of_nat todo → 0 ≤ rand env i' ≤ INT_MAX) →
  get_loop env cnt mem map todo i = Ok ().
Proof.
  intros Hmap Hmem HN. revert i.
  induction todo as [|todo IH]; intros i Hi Hle Hrand; [done|].
  cbn [get_loop]. unfold int_rem.
  rewrite (proj2 (Z.eqb_neq cnt 0)), (proj2 (Z.eqb_neq cnt (-1))) by lia.
  rewrite andb_false_r. cbn [orb].
  pose proof (Z.rem_bound_pos (rand env i) cnt) as Hk.
  specialize (Hk ltac:(apply Hrand; lia) ltac:(lia)).
  rewrite (int_Ok (Z.rem (rand env i) cnt)) by (apply int_range_count; lia).
  cbn [mbind exec_bind].
  destruct (holds_key N N map mem (Z.to_nat (Z.rem (rand env i) cnt))
              Hmap Hmem ltac:(lia) ltac:(lia) ltac:(lia))
    as (Hx & Hh & Hm & Huniq & Hrec).
  rewrite Z2Nat.id in Hh, Hm, Huniq, Hrec by lia.
  rewrite (readable_ok N N map mem) by done. cbn [mbind exec_bind].
  rewrite (hashmap_get_unique map _ _ (proj1 Hmap) Hx Hh Hm Huniq).
  cbn [defined mbind exec_bind].
  pose proof (check_test_ok mem (Z.to_nat (Z.rem (rand env i) cnt)))
    as Hcheck.
  rewrite Z2Nat.id in Hcheck by lia.
  rewrite Hcheck by (done || lia). cbn [mbind exec_bind].
  rewrite (int_Ok (i + 1)) by (unfold INT_MIN; lia). cbn [mbind exec_bind].
  apply IH; [lia|lia|]. intros i' Hi'. apply Hrand. lia.
Qed.

Lemma remove_loop_holds N mem todo (i : Z) map :
  holds env todo map → filled env N mem → Z.of_nat N ≤ cnt →
  (todo ≤ N)%nat → i + Z.of_nat todo = cnt → 0 ≤ i →
  ∃ map', remove_loop env cnt mem todo i map = Ok map' ∧
          holds env 0 map'.
Proof.
  intros Hmap Hmem HN. revert i map Hmap.
  induction todo as [|todo IH]; intros i map Hmap Hle Hi Hi0.
  { by exists map. }
  cbn [remove_loop].
  rewrite (int_Ok (cnt - 1)) by (apply int_range_count; lia).
  cbn [mbind exec_bind].
  rewrite (int_Ok (cnt - 1 - i)) by (apply int_range_count; lia).
  cbn [mbind exec_bind].
  replace (cnt - 1 - i) with (Z.of_nat todo) by lia.
  destruct (holds_key (S todo) N map mem todo Hmap Hmem
              ltac:(lia) ltac:(lia) ltac:(lia))
    as (Hx & Hh & Hm & Huniq & Hrec).
  rewrite (readable_ok (S todo) N map mem) by (done || lia).
  cbn [mbind exec_bind].
  destruct Hmap as (Hwf & Hcp & Hhash & Hcmp & Hcount & Hl).
  destruct (hashmap_remove_unique (realloc_shrink env i) map
              (mem, Z.of_nat todo) (node_of env todo) Hwf Hx Hh Hm Huniq)
    as (map1 & Hrem & Hwf1 & Hh1 & Hc1 & Hcount1 & Hl1 & Hcp1).
  rewrite Hrem. cbn [defined mbind exec_bind fst snd].
  rewrite check_test_ok by (done || lia). cbn [mbind exec_bind].
  rewrite (int_Ok (i + 1)) by (apply int_range_count; lia).
  cbn [mbind exec_bind].
  apply IH; [|lia|lia|lia].
  split; [done|]. split; [by apply Hcp1|].
  split; [congruence|]. split; [congruence|]. split; [lia|].
  apply (Permutation_cons_inv (a := node_of env todo)).
  rewrite <- Hl1, Hl, seq_S, fmap_app. cbn [fmap list_fmap plus].
  by rewrite <- Permutation_cons_append.
Qed.

Lemma main_with_exits get_count :
  0 ≤ get_count ≤ INT_MAX →
  calloc_table env = true →
  (∀ i, 0 ≤ i < get_count → 0 ≤ rand env i ≤ INT_MAX) →
  main_with cnt get_count env = Ok 0.
Proof.
  intros Hget Htable Hrand. unfold main_with. rewrite Htable.
  destruct (insert_loop_holds (Z.to_nat cnt) 0 _ (λ _, None) holds_init)
    as (map & mem & Hloop & Hmap & Hmem).
  { intros j Hj. lia. }
  { lia. }
  change (Z.of_nat 0) with 0 in Hloop. rewrite Hloop.
  cbn [mbind exec_bind fst snd].
  cbn [plus] in Hmap, Hmem.
  rewrite (get_loop_ok (Z.to_nat cnt))
    by (done || lia || (intros; apply Hrand; lia)).
  cbn [mbind exec_bind].
  destruct (remove_loop_holds (Z.to_nat cnt) mem (Z.to_nat cnt) 0 map
              Hmap Hmem) as (map' & Hrem & Hmap'); [lia..|].
  rewrite Hrem. cbn [mbind exec_bind].
  destruct Hmap' as (Hwf & Hcp & _ & _ & Hcount & _).
  assert (len map' = MIN_SLOTS) as ->.
  { destruct Hcp as [?|Hcp]; [done|].
    pose proof (wf_len_range _ Hwf). lia. }
  done.
Qed.

End MainRuns.

(** X11: [main] returns [0] for every positive [COUNT] (up to
    [INT_MAX - 123]) and every [GET_COUNT]: no assertion fails and no
    behaviour is undefined, as long as [calloc] returns the bucket array and
    a block of its own for every record, whichever reallocations fail and
    whatever [rand] returns.  After the first loop the table counts [COUNT]
    links, and [hashmap_get] returns for every key below [COUNT] the node of
    the record that holds this key and the key plus 123. *)
Theorem main_returns_0 (env : Main.libc) (COUNT GET_COUNT : Z) :
  0 < COUNT ≤ Main.INT_MAX - 123 →
  0 ≤ GET_COUNT ≤ Main.INT_MAX →
  Main.calloc_table env = true →
  (∀ i, 0 ≤ i < COUNT → Main.calloc_test env i ≠ 0) →
  (∀ i j, 0 ≤ i < j → j < COUNT →
     Main.calloc_test env i ≠ Main.calloc_test env j) →
  (∀ i, 0 ≤ i < GET_COUNT → 0 ≤ Main.rand env i ≤ Main.INT_MAX) →
  Main.main_with COUNT GET_COUNT env = Main.Ok 0 ∧
  ∃ map mem,
    Main.insert_loop env (Z.to_nat COUNT) 0
      (hashmap_init true Main.hash_test Main.cmp_test) (λ _, None)
      = Main.Ok (map, mem) ∧
    count map = COUNT ∧
    ∀ k, 0 ≤ k < COUNT →
      mem (Main.calloc_test env k) = Some (Main.Test k (k + 123)) ∧
      hashmap_get map (mem, k)
        = Some (Some (HashNode (Main.calloc_test env k) (size_wrap k))).
Proof.
  intros Hcount Hget Htable Hnull Hdist Hrand.
  split; [by apply main_with_exits|].
  destruct (insert_loop_holds env COUNT Hcount Hnull Hdist (Z.to_nat COUNT)
              0 _ (λ _, None) (holds_init env))
    as (map & mem & Hloop & Hmap & Hmem).
  { intros j Hj. lia. }
  { lia. }
  cbn [plus] in Hmap, Hmem.
  exists map, mem. split; [exact Hloop|].
  split; [destruct Hmap as (_ & _ & _ & _ & -> & _); lia|].
  intros k Hk.
  destruct (holds_key env COUNT (Z.to_nat COUNT) (Z.to_nat COUNT)
              map mem (Z.to_nat k) Hmap Hmem)
    as (Hx & Hh & Hm & Huniq & Hrec); [lia..|].
  rewrite Z2Nat.id in Hh, Hm, Huniq, Hrec by lia.
  unfold Main.node_of in *. rewrite Z2Nat.id in * by lia.
  split; [exact Hrec|].
  by apply hashmap_get_unique; [apply Hmap|..].
Qed.

Lemma main_returns_0_witness :
  Main.main_with 100 50 Main.small_env = Main.Ok 0.
Proof.
  apply main_returns_0;
    cbn [Main.small_env Main.calloc_table Main.calloc_test Main.rand];
    unfold Main.INT_MAX; intros; lia.
Defined.

(** [main] as the source has it, with [COUNT = 1000000] and
    [GET_COUNT = 10000000]. *)
Corollary main_source_constants (env : Main.libc) :
  Main.calloc_table env = true →
  (∀ i, 0 ≤ i < Main.COUNT → Main.calloc_test env i ≠ 0) →
  (∀ i j, 0 ≤ i < j → j < Main.COUNT →
     Main.calloc_test env i ≠ Main.calloc_test env j) →
  (∀ i, 0 ≤ i < Main.GET_COUNT → 0 ≤ Main.rand env i ≤ Main.INT_MAX) →
  Main.main env = Main.Ok 0.
Proof.
  intros Htable Hnull Hdist Hrand.
  apply main_with_exits; try done;
    unfold Main.COUNT, Main.GET_COUNT, Main.INT_MAX; lia.
Qed.

(** ** The table as a map *)

Section Refinement.

Context {K : Type} `{EqDecision K}.
Variable h : K → Z.
Variable c : hash_node → K → bool.
Variable key_of : Z → K.

Hypothesis cmp_key :
  ∀ node k, c node k = true ↔ key_of (node_addr node) = k.

Implicit Types (map : hashmap K) (key : K) (m : list Z).
Implicit Types (o : op K) (ops : list (op K)).

Lemma represents_present map m a :
  represents h c key_of map m → a ∈ m →
  HashNode a (h (key_of a)) ∈ links map ∧
  node_hash (HashNode a (h (key_of a))) = hash map (key_of a) ∧
  cmp map (HashNode a (h (key_of a))) (key_of a) = true ∧
  (∀ y, y ∈ links map → cmp map y (key_of a) = true →
        y = HashNode a (h (key_of a))).
Proof.
  intros (Hwf & Hh & Hc & Hnd & Hl) Ha. rewrite Hh, Hc.
  split.
  { rewrite Hl.
    by apply (list_elem_of_fmap_2 (λ a, HashNode a (h (key_of a)))). }
  split; [done|]. split; [by apply cmp_key|].
  intros y Hy Hm. rewrite Hl in Hy.
  apply list_elem_of_fmap in Hy as (b & -> & Hb).
  apply cmp_key in Hm. cbn [node_addr] in Hm.
  by rewrite (NoDup_fmap_elem_inj key_of m b a Hnd Hb Ha Hm).
Qed.

Lemma represents_absent map m key :
  represents h c key_of map m → key ∉ key_of <$> m →
  ∀ y, y ∈ links map → cmp map y key = false.
Proof.
  intros (Hwf & Hh & Hc & Hnd & Hl) Hk y Hy. rewrite Hc.
  apply not_true_iff_false. intros Hm%cmp_key. apply Hk.
  rewrite Hl in Hy. apply list_elem_of_fmap in Hy as (b & -> & Hb).
  rewrite <- Hm. by apply list_elem_of_fmap_2.
Qed.

Lemma filter_absent_key m key :
  key ∉ key_of <$> m → filter (λ b, key_of b ≠ key) m = m.
Proof.
  intros Hk. induction m as [|b m IH]; [done|].
  rewrite fmap_cons, not_elem_of_cons in Hk. destruct Hk as [Hb Hk].
  rewrite filter_cons, decide_True by done. by rewrite IH.
Qed.

Lemma filter_other_keys m a :
  NoDup (key_of <$> m) → a ∈ m →
  m ≡ₚ a :: filter (λ b, key_of b ≠ key_of a) m.
Proof.
  induction m as [|b m IH]; intros Hnd Ha; [by apply elem_of_nil in Ha|].
  rewrite fmap_cons in Hnd. apply NoDup_cons in Hnd as [Hb Hnd].
  rewrite filter_cons. apply elem_of_cons in Ha as [->|Ha].
  - rewrite decide_False by (intros Hne; by apply Hne).
    by rewrite filter_absent_key.
  - rewrite decide_True.
    + rewrite (IH Hnd Ha) at 1. apply Permutation_swap.
    + intros Heq. apply Hb. rewrite Heq. by apply list_elem_of_fmap_2.
Qed.

Lemma represents_step map m o :
  represents h c key_of map m → count map < MAX_LINKS →
  keyed key_of m o = true →
  ∃ map',
    step map o = Some map' ∧
    represents h c key_of map' (model_step key_of m o) ∧
    count map' ≤ count map + 1.
Proof.
  intros Hrep Hc Hkeyed.
  pose proof Hrep as (Hwf & Hh & Hcmp & Hnd & Hl).
  destruct o as [node key ok|key ok]; cbn [step model_step keyed] in *.
  - apply andb_true_iff in Hkeyed as [[Hk Hn]%andb_true_iff Hnk].
    apply bool_decide_eq_true in Hk, Hn, Hnk.
    assert (fresh map node = true) as Hfresh.
    { apply fresh_spec. unfold addresses.
      by rewrite Hl, <- list_fmap_compose, list_fmap_id. }
    destruct (inserted_callbacks ok map node key) as [Hh' Hc'].
    exists (inserted ok map node key).
    rewrite hashmap_insert_spec by done.
    split; [done|]. split; [|rewrite inserted_count; lia].
    split; [by apply inserted_wf|]. split; [congruence|].
    split; [congruence|]. split.
    + rewrite fmap_cons. apply NoDup_cons. by rewrite Hk.
    + rewrite inserted_links, Hl, fmap_cons, Hh, Hk by done. done.
  - destruct (decide (key ∈ key_of <$> m)) as [Hin|Hout].
    + apply list_elem_of_fmap in Hin as (a & -> & Ha).
      destruct (represents_present map m a Hrep Ha)
        as (Hx & Hhx & Hm & Huniq).
      destruct (hashmap_remove_unique ok map (key_of a) _ Hwf Hx Hhx Hm
                  Huniq)
        as (map' & Hrem & Hwf' & Hh' & Hc' & Hcount & Hl' & _).
      exists map'. rewrite Hrem. split; [done|]. split; [|lia].
      split; [done|]. split; [congruence|]. split; [congruence|].
      pose proof (filter_other_keys m a Hnd Ha) as Hperm.
      split.
      * rewrite Hperm, fmap_cons in Hnd. by apply NoDup_cons in Hnd as [_ ?].
      * apply (Permutation_cons_inv (a := HashNode a (h (key_of a)))).
        rewrite <- Hl', Hl. by rewrite Hperm at 1.
    + exists map.
      rewrite (hashmap_remove_absent ok map key (bucket map (hash map key))).
      * split; [done|]. rewrite filter_absent_key by done.
        split; [done|lia].
      * unfold load. by apply table_bucket.
      * apply matching_nil_iff. intros y Hy.
        apply (represents_absent map m key Hrep Hout).
        by eapply elem_of_bucket_links.
Qed.

Lemma represents_run map m ops :
  represents h c key_of map m →
  count map + Z.of_nat (length ops) ≤ MAX_LINKS →
  well_keyed key_of m ops = true →
  ∃ map',
    run map ops = Some map' ∧
    represents h c key_of map' (foldl (model_step key_of) m ops).
Proof.
  revert map m. induction ops as [|o ops IH]; intros map m Hrep Hc Hk.
  { by exists map. }
  cbn [length] in Hc. cbn [well_keyed] in Hk.
  apply andb_true_iff in Hk as [Hk1 Hk].
  destruct (represents_step map m o Hrep ltac:(lia) Hk1)
    as (map1 & Hstep & Hrep1 & Hc1).
  cbn [run foldl]. rewrite Hstep. cbn [mbind option_bind].
  apply IH; [done|lia|done].
Qed.

Lemma represents_init : represents h c key_of (hashmap_init true h c) [].
Proof.
  split; [apply init_wf|]. do 2 (split; [done|]).
  split; [constructor|by rewrite init_links].
Qed.

End Refinement.

(** X12: used as a map, the table is one.  When [cmp] compares the key with
    the key of the record of the node, and every node is inserted with the
    key of its record while the table holds no node with this key, then
    after any sequence of insertions and removals the table holds the nodes
    that were inserted and not removed since: [count] is their number,
    [hashmap_get] and [hashmap_remove] return for the key of each of them its
    node, and report absence for every other key, whichever reallocations
    have failed. *)
Theorem table_refines_map {K : Type} `{EqDecision K} (h : K → Z)
    (c : hash_node → K → bool) (key_of : Z → K) (ops : list (op K)) :
  (∀ node k, c node k = true ↔ key_of (node_addr node) = k) →
  Z.of_nat (length ops) ≤ MAX_LINKS →
  well_keyed key_of [] ops = true →
  ∃ map,
    run (hashmap_init true h c) ops = Some map ∧
    count map = Z.of_nat (length (model key_of ops)) ∧
    (∀ a ok, a ∈ model key_of ops →
       hashmap_get map (key_of a) = Some (Some (HashNode a (h (key_of a)))) ∧
       snd <$> hashmap_remove ok map (key_of a)
         = Some (Some (HashNode a (h (key_of a))))) ∧
    (∀ key ok, key ∉ key_of <$> model key_of ops →
       hashmap_get map key = Some None ∧
       hashmap_remove ok map key = Some (map, None)).
Proof.
  intros Hcmp Hlen Hk.
  destruct (represents_run h c key_of Hcmp (hashmap_init true h c) [] ops
              (represents_init h c key_of))
    as (map & Hrun & Hrep); [cbn [count hashmap_init]; lia|done|].
  fold (model key_of ops) in Hrep.
  pose proof Hrep as (Hwf & Hh & Hc & Hnd & Hl).
  exists map. split; [done|]. split; [|split].
  - by rewrite (wf_count _ Hwf), Hl, length_fmap.
  - intros a ok Ha.
    destruct (represents_present h c key_of Hcmp map _ a Hrep Ha)
      as (Hx & Hhx & Hm & Huniq).
    split; [by apply hashmap_get_unique|].
    destruct (hashmap_remove_unique ok map (key_of a) _ Hwf Hx Hhx Hm Huniq)
      as (map' & -> & _). done.
  - intros key ok Hout.
    pose proof (represents_absent h c key_of Hcmp map _ key Hrep Hout)
      as Hno.
    assert (matching (cmp map) key (bucket map (hash map key)) = [])
      as Hnil.
    { apply matching_nil_iff. intros y Hy. apply Hno.
      by eapply elem_of_bucket_links. }
    split.
    + by rewrite hashmap_get_matching, Hnil.
    + apply (hashmap_remove_absent ok map key (bucket map (hash map key)));
        [|done].
      unfold load. by apply table_bucket.
Qed.

Lemma table_refines_map_witness :
  let ops := Harness.insert_keys 0 60 ++ Harness.remove_keys 10 45
               ++ [Insert 81 20 false; Remove 3 false] in
  ∃ map,
    run Harness.init ops = Some map ∧ count map = 15 ∧
    hashmap_get map 20 = Some (Some (HashNode 81 20)) ∧
    hashmap_get map 3 = Some None.
Proof.
  intros ops.
  destruct (table_refines_map Harness.hash_test Harness.cmp_test
              Harness.test_i ops)
    as (map & Hrun & Hcount & Hin & Hout).
  - intros node k. unfold Harness.cmp_test. apply Z.eqb_eq.
  - vm_decide.
  - vm_decide.
  - exists map. split; [exact Hrun|].
    split; [rewrite Hcount; vm_decide|]. split.
    + apply (Hin 81 true). apply (bool_decide_eq_true_1 _). vm_decide.
    + apply (Hout 3 true). apply (bool_decide_eq_true_1 _). vm_decide.
Defined.

(** ** The distance between two resizes *)

Section Hysteresis.

Context {K : Type}.
Implicit Types (map : hashmap K) (key : K) (o : op K) (ops : list (op K)).

Lemma wf_len_multiple map :
  wf map →
  ∃ m, 1 ≤ m ∧ len map = 16 * m ∧ len map / 4 = 4 * m ∧
       len map / 2 = 8 * m.
Proof.
  intros Hwf. destruct (wf_pow2 _ Hwf) as (k & Hk & Hlen).
  exists (2 ^ (k - 4)).
  assert (len map = 16 * 2 ^ (k - 4)) as Hm.
  { rewrite Hlen. change 16 with (2 ^ 4).
    rewrite <- Z.pow_add_r by lia. f_equal. lia. }
  pose proof (pow2_pos (k - 4) ltac:(lia)).
  split; [lia|]. split; [done|]. rewrite Hm. split.
  - replace (16 * 2 ^ (k - 4)) with (4 * 2 ^ (k - 4) * 4) by lia.
    by rewrite Z.div_mul.
  - replace (16 * 2 ^ (k - 4)) with (8 * 2 ^ (k - 4) * 2) by lia.
    by rewrite Z.div_mul.
Qed.

(** An operation on a table that is neither full nor sparse leaves [len] as
    it is. *)
Lemma step_quiet map o :
  wf map → count map < MAX_LINKS → allowed map o = true →
  count map + 1 ≤ len map * 3 →
  len map = MIN_SLOTS ∨ len map / 4 ≤ count map - 1 →
  ∃ map',
    step map o = Some map' ∧ wf map' ∧ len map' = len map ∧
    count map - 1 ≤ count map' ≤ count map + 1.
Proof.
  intros Hwf Hc Hal Hhi Hlo. destruct o as [node key ok|key ok].
  - cbn [step allowed] in *. exists (inserted ok map node key).
    rewrite hashmap_insert_spec by done.
    split; [done|]. split; [by apply inserted_wf|].
    rewrite inserted_count. split; [|lia].
    unfold inserted. destruct (grow_due _) eqn:Hg; [|done].
    apply grow_due_spec in Hg; [|by apply linked_wf].
    cbn [len count linked set_count set_table] in Hg. lia.
  - cbn [step].
    destruct (matching (cmp map) key (bucket map (hash map key)))
      as [|x rest] eqn:Hm.
    + exists map.
      rewrite (hashmap_remove_absent ok map key (bucket map (hash map key)));
        [|unfold load; by apply table_bucket|done].
      split; [done|]. split; [done|]. split; [done|lia].
    + destruct (hashmap_remove_present ok map key x rest Hwf Hm)
        as (pre & post & Hb & _ & _ & Hrem).
      exists (removed ok map (hash map key) (pre ++ post)).
      rewrite Hrem. split; [done|]. split; [by eapply removed_wf|].
      rewrite removed_count. split; [|lia].
      unfold removed. destruct (shrink_due _) eqn:Hs; [|done].
      apply shrink_due_spec in Hs as [Hlt Hgt].
      cbn [len count unlinked set_count set_table] in Hlt, Hgt.
      unfold MIN_SLOTS in *. lia.
Qed.

Lemma run_quiet (d : Z) map ops :
  wf map → count map + d < MAX_LINKS → respects map ops = true →
  Z.of_nat (length ops) ≤ d →
  count map + d ≤ len map * 3 →
  len map = MIN_SLOTS ∨ len map / 4 + d ≤ count map →
  ∃ map', run map ops = Some map' ∧ wf map' ∧ len map' = len map.
Proof.
  revert d map. induction ops as [|o ops IH];
    intros d map Hwf Hc Hres Hd Hhi Hlo.
  { by exists map. }
  cbn [length] in Hd. cbn [respects] in Hres.
  apply andb_true_iff in Hres as [Hal Hres].
  destruct (step_quiet map o Hwf ltac:(lia) Hal ltac:(lia))
    as (map1 & Hstep & Hwf1 & Hlen1 & Hc1).
  { destruct Hlo; [by left|right; lia]. }
  rewrite Hstep in Hres. cbn [run]. rewrite Hstep. cbn [mbind option_bind].
  destruct (IH (d - 1) map1) as (map' & Hrun & Hwf' & Hlen');
    [done|lia|done|lia|rewrite Hlen1; lia| |].
  - rewrite Hlen1. destruct Hlo; [by left|right; lia].
  - exists map'. split; [done|]. split; [done|congruence].
Qed.

(** The table after an operation that has changed [len]. *)
Lemma step_resized map o map1 :
  wf map → compact map → count map ≤ len map * 3 →
  count map < MAX_LINKS → allowed map o = true →
  step map o = Some map1 → len map1 ≠ len map →
  wf map1 ∧ count map1 ≤ count map + 1 ∧
  (len map1 = len map * 2 ∧ count map1 = len map * 3 + 1 ∨
   len map = len map1 * 2 ∧ count map1 = len map / 4 - 1 ∧
   MIN_SLOTS < len map).
Proof.
  intros Hwf Hcp Hload Hc Hal Hstep Hne.
  destruct o as [node key ok|key ok]; cbn [step allowed] in *.
  - rewrite hashmap_insert_spec in Hstep by done. injection Hstep as <-.
    split; [by apply inserted_wf|].
    rewrite inserted_count. split; [lia|]. left. unfold inserted in *.
    destruct (grow_due _ && ok) eqn:Hg; [|done].
    apply andb_true_iff in Hg as [Hg _].
    apply grow_due_spec in Hg; [|by apply linked_wf].
    cbn [len count linked grown set_len set_count set_table] in *. lia.
  - destruct (matching (cmp map) key (bucket map (hash map key)))
      as [|x rest] eqn:Hm.
    { rewrite (hashmap_remove_absent ok map key
                 (bucket map (hash map key))) in Hstep;
        [|unfold load; by apply table_bucket|done].
      by injection Hstep as <-. }
    destruct (hashmap_remove_present ok map key x rest Hwf Hm)
      as (pre & post & Hb & _ & _ & Hrem).
    rewrite Hrem in Hstep. injection Hstep as <-.
    split; [by eapply removed_wf|].
    rewrite removed_count. split; [lia|]. right. unfold removed in *.
    destruct (shrink_due _) eqn:Hs; [|done].
    apply shrink_due_spec in Hs as [Hlt Hgt].
    cbn [len count unlinked shrunk set_len set_count set_table] in *.
    destruct (wf_len_multiple map Hwf) as (m & Hm1 & Hl & Hl4 & Hl2).
    destruct Hcp as [?|Hcp]; [unfold MIN_SLOTS in *; lia|].
    split; [lia|]. split; [lia|done].
Qed.

End Hysteresis.

(** X13: resizes are far apart.  On a table within its load bounds, after an
    operation that has doubled or halved [len], no sequence of fewer than
    [len / 4] operations changes [len] again, whatever the operations are:
    the array is never resized back and forth. *)
Theorem resize_then_quiet {K : Type} (map map1 : hashmap K) (o : op K)
    (ops : list (op K)) :
  wf map → compact map → count map ≤ len map * 3 →
  allowed map o = true → step map o = Some map1 → len map1 ≠ len map →
  count map + 1 + Z.of_nat (length ops) < MAX_LINKS →
  Z.of_nat (length ops) < len map1 / 4 →
  respects map1 ops = true →
  ∃ map2, run map1 ops = Some map2 ∧ len map2 = len map1.
Proof.
  intros Hwf Hcp Hload Hal Hstep Hne Hc Hlen Hres.
  destruct (step_resized map o map1 Hwf Hcp Hload ltac:(lia) Hal Hstep Hne)
    as (Hwf1 & Hc1 & Hcase).
  destruct (wf_len_multiple map Hwf) as (m & Hm & Hl & Hl4 & Hl2).
  destruct (wf_len_multiple map1 Hwf1) as (m1 & Hm1 & Hl1 & Hl14 & Hl12).
  destruct (run_quiet (Z.of_nat (length ops)) map1 ops Hwf1)
    as (map2 & Hrun & _ & Hlen2); [|done|lia| | |by exists map2].
  - destruct Hcase as [[? ?]|(? & ? & ?)]; lia.
  - destruct Hcase as [[? ?]|(? & ? & ?)]; lia.
  - destruct Hcase as [[? ?]|(? & ? & ?)]; right; lia.
Qed.

Lemma resize_then_quiet_witness :
  let map := Harness.table_of (Harness.insert_keys 0 48) in
  ∃ map1 map2,
    step map (Insert 192 48 true) = Some map1 ∧ len map1 = 32 ∧
    run map1 (Harness.remove_keys 0 7) = Some map2 ∧ len map2 = 32.
Proof.
  intros map.
  assert (wf map ∧ compact map) as [Hwf Hcp]
    by (apply table_of_wf; vm_decide).
  destruct (step_wf map (Insert 192 48 true) Hwf)
    as (map1 & Hstep & _); [vm_decide..|].
  assert (len map1 = 32) as Hlen.
  { assert (len <$> step map (Insert 192 48 true) = Some 32) as Hl
      by vm_decide.
    rewrite Hstep in Hl. by injection Hl. }
  destruct (resize_then_quiet map map1 (Insert 192 48 true)
              (Harness.remove_keys 0 7) Hwf Hcp)
    as (map2 & Hrun & Hlen2).
  - vm_decide.
  - vm_decide.
  - exact Hstep.
  - rewrite Hlen. vm_decide.
  - vm_decide.
  - rewrite Hlen. vm_decide.
  - assert ((λ m, respects m (Harness.remove_keys 0 7))
              <$> step map (Insert 192 48 true) = Some true) as Hr
      by vm_decide.
    rewrite Hstep in Hr. by injection Hr.
  - exists map1, map2. split; [exact Hstep|]. split; [exact Hlen|].
    split; [exact Hrun|]. by rewrite Hlen2.
Defined.
